(** * homebridge-bose-soundtouch: the device communication layer

    A shallow embedding of the three components that talk to a speaker:

    - [Client]      : src/soundtouchClient.ts    (XML over HTTP, request/response)
    - [EventStream] : src/soundtouchWebSocket.ts (push connection, reconnect policy)
    - [Discovery]   : src/discovery.ts           (mDNS browser, address selection)

    and of the code that uses them:

    - [ClientCommands] : src/soundtouchClient.ts    (the remaining commands)
    - [Browsing]       : src/discovery.ts           (the continuous browser)
    - [Platform]       : src/platform.ts            (which accessories are published)
    - [Accessory]      : src/soundtouchAccessory.ts (the HomeKit handlers)
    - [UiServer]       : homebridge-ui/server.js    (discovery for the settings page)

    JavaScript values are modelled in [Js]; the two libraries the code calls
    (xml2js and the HTTP/WebSocket runtime) are interfaces: a type class for
    the XML codec, an explicit device handler for HTTP, and event labels for
    what the socket and timer runtime may deliver. *)

From Stdlib Require Import ZArith QArith Qround Lia Lqa Ascii String.
From stdpp Require Import base option list gmap strings pretty.

Set Warnings "-register-all".

Close Scope Q_scope.
Open Scope Z_scope.

(* ===================================================================== *)
(** * JavaScript values *)
(* ===================================================================== *)

Module Js.

(** The double quote character, for XML attribute syntax in templates. *)
Definition dq : string := String (ascii_of_nat 34) EmptyString.

(** What a rejected promise or a [throw] carries. *)
Inductive exn : Type :=
| Error (message : string)
| TypeError (message : string)
| XmlError (message : string).

(** A computation that either throws or returns. *)
Definition res (A : Type) : Type := exn + A.

Definition ok {A} (a : A) : res A := inr a.
Definition throw {A} (e : exn) : res A := inl e.

Definition rbind {A B} (m : res A) (k : A -> res B) : res B :=
  match m with
  | inl e => inl e
  | inr a => k a
  end.

Definition is_ok {A} (m : res A) : bool :=
  match m with inr _ => true | inl _ => false end.

(** ** Numbers

    A JavaScript number is an IEEE double: a finite value, NaN or an
    infinity.  Every finite double is a rational, so finite values are
    carried by [A := Q] (a superset of the doubles, on which [Math.round],
    [Math.min] and [Math.max] are exact) and integral ones by [A := Z].
    The sign of zero is not tracked: no operation below distinguishes
    [+0] from [-0] in what it finally prints. *)
Inductive xnum (A : Type) : Type :=
| Fin (a : A)
| NaN
| PosInf
| NegInf.
Arguments Fin {A} a.
Arguments NaN {A}.
Arguments PosInf {A}.
Arguments NegInf {A}.

Definition number : Type := xnum Q.
Definition integral : Type := xnum Z.

(** [Math.round(x)]: the integer closest to [x], ties towards +infinity. *)
Definition Math_round (x : number) : integral :=
  match x with
  | Fin q => Fin (Qfloor (q + (1 # 2))%Q)
  | NaN => NaN
  | PosInf => PosInf
  | NegInf => NegInf
  end.

(** [Math.min(a, b)] and [Math.max(a, b)]: NaN if either argument is. *)
Definition Math_min (a b : integral) : integral :=
  match a, b with
  | NaN, _ | _, NaN => NaN
  | NegInf, _ | _, NegInf => NegInf
  | PosInf, y => y
  | x, PosInf => x
  | Fin x, Fin y => Fin (Z.min x y)
  end.

Definition Math_max (a b : integral) : integral :=
  match a, b with
  | NaN, _ | _, NaN => NaN
  | PosInf, _ | _, PosInf => PosInf
  | NegInf, y => y
  | x, NegInf => x
  | Fin x, Fin y => Fin (Z.max x y)
  end.

(** [String(n)] for an integral number, as a template literal prints it.
    Decimal digits are what JavaScript prints for integers below 1e21. *)
Definition Number_toString (n : integral) : string :=
  match n with
  | Fin z => pretty z
  | NaN => "NaN"
  | PosInf => "Infinity"
  | NegInf => "-Infinity"
  end.

(** ** Objects as xml2js produces and consumes them *)
Inductive value : Type :=
| Undefined
| Null
| Str (s : string)
| Obj (fields : list (string * value))
| Arr (items : list value).

Fixpoint assoc {A} (k : string) (l : list (string * A)) : option A :=
  match l with
  | [] => None
  | (k', v) :: l' => if String.eqb k k' then Some v else assoc k l'
  end.

(** [v.k].  Reading a property of [undefined] or [null] throws a
    TypeError.  On strings and arrays only keys that are neither an
    index, [length] nor a prototype member are ever read by the program
    (element and attribute names of the protocol, [$] and [_]), and
    those read as [undefined]. *)
Definition get (v : value) (k : string) : res value :=
  match v with
  | Undefined =>
      throw (TypeError ("Cannot read properties of undefined (reading '" +:+ k +:+ "')"))
  | Null =>
      throw (TypeError ("Cannot read properties of null (reading '" +:+ k +:+ "')"))
  | Str _ => ok Undefined
  | Arr _ => ok Undefined
  | Obj fs => ok (default Undefined (assoc k fs))
  end.

(** [v?.k]: short-circuits to [undefined] on [undefined] and [null]. *)
Definition get_opt (v : value) (k : string) : res value :=
  match v with
  | Undefined | Null => ok Undefined
  | _ => get v k
  end.

(** ToBoolean. *)
Definition truthy (v : value) : bool :=
  match v with
  | Undefined | Null => false
  | Str s => negb (String.eqb s "")
  | Obj _ | Arr _ => true
  end.

(** [v === 'true']. *)
Definition is_true_literal (v : value) : bool :=
  match v with
  | Str s => String.eqb s "true"
  | _ => false
  end.

Definition isArray (v : value) : bool :=
  match v with Arr _ => true | _ => false end.

Definition is_string (v : value) : bool :=
  match v with Str _ => true | _ => false end.

(** [Array.isArray(v) ? v : [v]]. *)
Definition as_array (v : value) : list value :=
  match v with
  | Arr items => items
  | _ => [v]
  end.

(** ToString, as [parseInt] applies it to its argument. *)
Fixpoint ToString (v : value) : string :=
  match v with
  | Undefined => "undefined"
  | Null => "null"
  | Str s => s
  | Obj _ => "[object Object]"
  | Arr items =>
      let elem (x : value) : string :=
        match x with
        | Undefined | Null => ""
        | _ => ToString x
        end in
      String.concat "," (map elem items)
  end.

Definition is_space (c : ascii) : bool :=
  let n := nat_of_ascii c in
  ((9 <=? n) && (n <=? 13))%nat || (n =? 32)%nat.

Definition digit_of (c : ascii) : option Z :=
  let n := nat_of_ascii c in
  if ((48 <=? n) && (n <=? 57))%nat then Some (Z.of_nat n - 48) else None.

Fixpoint skip_spaces (s : string) : string :=
  match s with
  | String c s' => if is_space c then skip_spaces s' else s
  | EmptyString => s
  end.

(** The longest prefix of decimal digits, accumulated; [None] if empty. *)
Fixpoint read_digits (acc : option Z) (s : string) : option Z :=
  match s with
  | String c s' =>
      match digit_of c with
      | Some d => read_digits (Some (10 * default 0 acc + d)) s'
      | None => acc
      end
  | EmptyString => acc
  end.

(** [parseInt(v, 10)]: leading white space, an optional sign, then the
    longest run of digits; NaN when there is none. *)
Definition parseInt (v : value) : integral :=
  let s := skip_spaces (ToString v) in
  let '(neg, s) :=
    match s with
    | String "-" s' => (true, s')
    | String "+" s' => (false, s')
    | _ => (false, s)
    end in
  match read_digits None s with
  | Some n => Fin (if neg : bool then - n else n)
  | None => NaN
  end.

End Js.

Export Js.

Notation "x <-r m ; k" := (rbind m (fun x => k))
  (at level 100, m at next level, right associativity, only parsing).

(* ===================================================================== *)
(** * xml2js at the boundary *)
(* ===================================================================== *)

(** The program parses every document with
    [parseStringPromise(xml, {explicitArray: false, ignoreAttrs: false})]
    and builds every object payload with
    [new Builder({headless: true}).buildObject(obj)].  Both belong to the
    xml2js package; the development is generic in them. *)
Class Xml2js : Type := {
  parseString : string -> res value;
  buildObject : value -> string
}.

(* ===================================================================== *)
(** * ProtocolClient: src/soundtouchClient.ts *)
(* ===================================================================== *)

Module Client.

(** ** HTTP as an interaction *)

Inductive Method : Type := GET | POST.

(** What [http.request(options, ...)] is given, and what [req.write]
    sends.  Strings stand for their UTF-8 bytes, so [Buffer.byteLength]
    is the length of the string. *)
Record Request : Type := {
  req_hostname : string;
  req_port : Z;
  req_path : string;
  req_method : Method;
  req_timeout : Z;
  req_headers : list (string * string);
  req_body : option string
}.

Global Instance Method_eq_dec : EqDecision Method.
Proof. solve_decision. Defined.

Global Instance Request_eq_dec : EqDecision Request.
Proof. solve_decision. Defined.

(** How one request settles: the response's ['end'] with its status and
    the accumulated data, the request's ['error'], or its ['timeout'].
    These are the only events [request] listens to.  A response that is
    cut off after its headers (['aborted'] or ['close'] on the response,
    with no ['end']) settles nothing: the promise stays pending, and so
    does every method that awaits it.  An [Outcome] is the end of a
    request that does settle. *)
Inductive Outcome : Type :=
| Responded (statusCode : Z) (data : string)
| Failed (e : exn)
| TimedOut.

(** An asynchronous client method: it returns, rejects, or issues a
    request and continues with the outcome.  The continuation of a
    request runs only once its outcome is known, which is what [await]
    does. *)
Inductive io (A : Type) : Type :=
| Ret (a : A)
| Throw (e : exn)
| Http (r : Request) (k : Outcome -> io A).
Arguments Ret {A} a.
Arguments Throw {A} e.
Arguments Http {A} r k.

Fixpoint bind {A B} (m : io A) (f : A -> io B) : io B :=
  match m with
  | Ret a => f a
  | Throw e => Throw e
  | Http r k => Http r (fun o => bind (k o) f)
  end.

Definition lift {A} (m : res A) : io A :=
  match m with
  | inl e => Throw e
  | inr a => Ret a
  end.

Notation "x <- m ;; k" := (bind m (fun x => k))
  (at level 100, m at next level, right associativity, only parsing).
Notation "m ;; k" := (bind m (fun _ => k))
  (at level 100, right associativity, only parsing).

(** Running a method against a device that settles every request: a
    handler with a state of its own answers each request in turn.  The
    result, the requests in the order they were issued, and the device's
    final state.  What is proved of [exec] is proved of the runs in
    which every request settles; [run] below also has the requests that
    are left unsettled. *)
Section Exec.
Context {S : Type} (device : S -> Request -> Outcome * S).

Fixpoint exec {A} (p : io A) (s : S) : res A * list Request * S :=
  match p with
  | Ret a => (ok a, [], s)
  | Throw e => (throw e, [], s)
  | Http r k =>
      let '(o, s1) := device s r in
      let '(a, tr, s2) := exec (k o) s1 in
      (a, r :: tr, s2)
  end.

Definition result_of {A} (p : io A) (s : S) : res A := (exec p s).1.1.
Definition trace_of {A} (p : io A) (s : S) : list Request := (exec p s).1.2.
Definition final_of {A} (p : io A) (s : S) : S := (exec p s).2.
End Exec.

(** Running a method against a speaker that may leave a request
    unsettled: it answers [None] when the connection is lost after the
    response headers.  The method that awaits such a request never
    settles and issues nothing more; its result is [None] and the
    requests are those issued up to there.  This describes the methods
    that await one request at a time. *)
Section Run.
Context {S : Type} (speaker : S -> Request -> option Outcome * S).

Fixpoint run {A} (p : io A) (s : S) : option (res A) * list Request * S :=
  match p with
  | Ret a => (Some (ok a), [], s)
  | Throw e => (Some (throw e), [], s)
  | Http r k =>
      match speaker s r with
      | (Some o, s1) => let '(a, tr, s2) := run (k o) s1 in (a, r :: tr, s2)
      | (None, s1) => (None, [r], s1)
      end
  end.
End Run.

(** A device, as a speaker that settles every request. *)
Definition settling {S : Type} (device : S -> Request -> Outcome * S)
    : S -> Request -> option Outcome * S :=
  fun s r => let '(o, s1) := device s r in (Some o, s1).

(** ** Typed results *)

Record ContentItem : Type := {
  source : value;
  type : value;
  location : value;
  sourceAccount : value;
  isPresetable : bool;
  name : value
}.

Record NowPlaying : Type := {
  np_source : value;
  np_sourceAccount : value;
  np_contentItem : option ContentItem;
  np_track : value;
  np_artist : value;
  np_album : value;
  np_stationName : value;
  np_art : value;
  np_playStatus : value;
  np_shuffleSetting : value;
  np_repeatSetting : value;
  np_streamType : value;
  np_trackID : value
}.

Record Volume : Type := {
  targetvolume : integral;
  actualvolume : integral;
  muteenabled : bool
}.

Record Preset : Type := {
  id : integral;
  contentItem : ContentItem
}.

Record Source : Type := {
  src_source : value;
  src_sourceAccount : value;
  src_status : value;
  src_isLocal : bool;
  src_multiroomAllowed : bool
}.

Inductive KeyValue : Type :=
| PLAY | PAUSE | PLAY_PAUSE | STOP
| PREV_TRACK | NEXT_TRACK
| THUMBS_UP | THUMBS_DOWN | BOOKMARK
| POWER | MUTE
| VOLUME_UP | VOLUME_DOWN
| PRESET_1 | PRESET_2 | PRESET_3 | PRESET_4 | PRESET_5 | PRESET_6
| AUX_INPUT | SHUFFLE_OFF | SHUFFLE_ON
| REPEAT_OFF | REPEAT_ONE | REPEAT_ALL
| ADD_FAVORITE | REMOVE_FAVORITE.

(** The string a key is at run time. *)
Definition key_text (k : KeyValue) : string :=
  match k with
  | PLAY => "PLAY" | PAUSE => "PAUSE" | PLAY_PAUSE => "PLAY_PAUSE" | STOP => "STOP"
  | PREV_TRACK => "PREV_TRACK" | NEXT_TRACK => "NEXT_TRACK"
  | THUMBS_UP => "THUMBS_UP" | THUMBS_DOWN => "THUMBS_DOWN" | BOOKMARK => "BOOKMARK"
  | POWER => "POWER" | MUTE => "MUTE"
  | VOLUME_UP => "VOLUME_UP" | VOLUME_DOWN => "VOLUME_DOWN"
  | PRESET_1 => "PRESET_1" | PRESET_2 => "PRESET_2" | PRESET_3 => "PRESET_3"
  | PRESET_4 => "PRESET_4" | PRESET_5 => "PRESET_5" | PRESET_6 => "PRESET_6"
  | AUX_INPUT => "AUX_INPUT" | SHUFFLE_OFF => "SHUFFLE_OFF" | SHUFFLE_ON => "SHUFFLE_ON"
  | REPEAT_OFF => "REPEAT_OFF" | REPEAT_ONE => "REPEAT_ONE" | REPEAT_ALL => "REPEAT_ALL"
  | ADD_FAVORITE => "ADD_FAVORITE" | REMOVE_FAVORITE => "REMOVE_FAVORITE"
  end.

(** [presets.map(f)] where [f] may throw: the first failure wins. *)
Fixpoint mapM {A B} (f : A -> res B) (l : list A) : res (list B) :=
  match l with
  | [] => ok []
  | a :: l' => b <-r f a; bs <-r mapM f l'; ok (b :: bs)
  end.

(** ** The client *)

(** [new SoundTouchClient(host, port = 8090, timeout = 5000)]. *)
Record SoundTouchClient : Type := {
  host : string;
  port : Z;
  timeout : Z
}.

Definition new_SoundTouchClient (h : string) (p t : option Z) : SoundTouchClient :=
  {| host := h; port := default 8090 p; timeout := default 5000 t |}.

Section Methods.
Context `{Xml2js} (this : SoundTouchClient).

(** [body ? ... : ...] on an optional string: absent and empty are falsy. *)
Definition body_given (body : option string) : option string :=
  match body with
  | Some b => if String.eqb b "" then None else Some b
  | None => None
  end.

Definition options (method : Method) (path : string) (body : option string) : Request :=
  {| req_hostname := host this;
     req_port := port this;
     req_path := path;
     req_method := method;
     req_timeout := timeout this;
     req_headers :=
       match body_given body with
       | Some b => [("Content-Type", "application/xml");
                    ("Content-Length", pretty (Z.of_nat (String.length b)))]
       | None => []
       end;
     req_body := body_given body |}.

(** [res.statusCode && res.statusCode >= 200 && res.statusCode < 300]. *)
Definition status_ok (statusCode : Z) : bool :=
  negb (statusCode =? 0)%Z && (200 <=? statusCode)%Z && (statusCode <? 300)%Z.

Definition settle (o : Outcome) : io string :=
  match o with
  | Responded statusCode data =>
      if status_ok statusCode then Ret data
      else Throw (Error ("HTTP " +:+ pretty statusCode +:+ ": " +:+ data))
  | Failed e => Throw e
  | TimedOut => Throw (Error "Request timeout")
  end.

Definition request (method : Method) (path : string) (body : option string) : io string :=
  Http (options method path body) settle.

Definition get (path : string) : io value :=
  xml <- request GET path None ;;
  lift (parseString xml).

Definition post (path : string) (body : string) : io value :=
  xml <- request POST path (Some body) ;;
  lift (parseString xml).

(** The content item of [ci], read as both [getNowPlaying] and
    [getPresets] read it: attributes under [$], the name as element
    text. *)
Definition contentItemOf (ci : value) : res ContentItem :=
  a1 <-r Js.get ci "$"; v_source <-r Js.get a1 "source";
  a2 <-r Js.get ci "$"; v_type <-r Js.get a2 "type";
  a3 <-r Js.get ci "$"; v_location <-r Js.get a3 "location";
  a4 <-r Js.get ci "$"; v_sourceAccount <-r Js.get a4 "sourceAccount";
  a5 <-r Js.get ci "$"; v_isPresetable <-r Js.get a5 "isPresetable";
  v_name <-r Js.get ci "itemName";
  ok {| source := v_source;
        type := v_type;
        location := v_location;
        sourceAccount := v_sourceAccount;
        isPresetable := is_true_literal v_isPresetable;
        name := v_name |}.

(** The [art] element is text, or text next to an attribute. *)
Definition artUrlOf (art : value) : res value :=
  if truthy art then
    if is_string art then ok art
    else
      t <-r Js.get art "_";
      if truthy t then ok t else ok Undefined
  else ok Undefined.

Definition decodeNowPlaying (result : value) : res NowPlaying :=
  np <-r Js.get result "nowPlaying";
  ci <-r Js.get np "ContentItem";
  item <-r (if truthy ci
            then c <-r contentItemOf ci; ok (Some c)
            else ok None);
  art <-r Js.get np "art";
  artUrl <-r artUrlOf art;
  a1 <-r Js.get np "$"; v_source <-r Js.get a1 "source";
  a2 <-r Js.get np "$"; v_sourceAccount <-r Js.get a2 "sourceAccount";
  v_track <-r Js.get np "track";
  v_artist <-r Js.get np "artist";
  v_album <-r Js.get np "album";
  v_stationName <-r Js.get np "stationName";
  v_playStatus <-r Js.get np "playStatus";
  v_shuffleSetting <-r Js.get np "shuffleSetting";
  v_repeatSetting <-r Js.get np "repeatSetting";
  v_streamType <-r Js.get np "streamType";
  v_trackID <-r Js.get np "trackID";
  ok {| np_source := v_source;
        np_sourceAccount := v_sourceAccount;
        np_contentItem := item;
        np_track := v_track;
        np_artist := v_artist;
        np_album := v_album;
        np_stationName := v_stationName;
        np_art := artUrl;
        np_playStatus := v_playStatus;
        np_shuffleSetting := v_shuffleSetting;
        np_repeatSetting := v_repeatSetting;
        np_streamType := v_streamType;
        np_trackID := v_trackID |}.

Definition getNowPlaying : io NowPlaying :=
  result <- get "/now_playing" ;;
  lift (decodeNowPlaying result).

Definition decodeVolume (result : value) : res Volume :=
  v1 <-r Js.get result "volume"; t <-r Js.get v1 "targetvolume";
  v2 <-r Js.get result "volume"; a <-r Js.get v2 "actualvolume";
  v3 <-r Js.get result "volume"; m <-r Js.get v3 "muteenabled";
  ok {| targetvolume := parseInt t;
        actualvolume := parseInt a;
        muteenabled := is_true_literal m |}.

Definition getVolume : io Volume :=
  result <- get "/volume" ;;
  lift (decodeVolume result).

(** The level as it is written into the payload. *)
Definition clampVolume (level : number) : integral :=
  Math_max (Fin 0) (Math_min (Fin 100) (Math_round level)).

Definition volumeXml (level : number) : string :=
  "<volume>" +:+ Number_toString (clampVolume level) +:+ "</volume>".

Definition setVolume (level : number) : io unit :=
  _ <- post "/volume" (volumeXml level) ;;
  Ret tt.

Definition keyXml (state : string) (key : KeyValue) : string :=
  "<key state=" +:+ dq +:+ state +:+ dq +:+ " sender=" +:+ dq +:+ "Gabbo" +:+ dq +:+ ">"
    +:+ key_text key +:+ "</key>".

Definition pressXml (key : KeyValue) : string := keyXml "press" key.
Definition releaseXml (key : KeyValue) : string := keyXml "release" key.

Definition pressKey (key : KeyValue) : io unit :=
  _ <- post "/key" (pressXml key) ;;
  _ <- post "/key" (releaseXml key) ;;
  Ret tt.

Definition mute : io unit := pressKey MUTE.

Definition setMute (muted : bool) : io unit :=
  volume <- getVolume ;;
  if negb (Bool.eqb (muteenabled volume) muted) then mute else Ret tt.

Definition decodePreset (p : value) : res Preset :=
  a <-r Js.get p "$"; v_id <-r Js.get a "id";
  ci <-r Js.get p "ContentItem";
  item <-r contentItemOf ci;
  ok {| id := parseInt v_id; contentItem := item |}.

Definition decodePresets (result : value) : res (list Preset) :=
  ps <-r Js.get result "presets";
  p <-r Js.get ps "preset";
  if negb (truthy p) then ok []
  else mapM decodePreset (as_array p).

Definition getPresets : io (list Preset) :=
  result <- get "/presets" ;;
  lift (decodePresets result).

Definition decodeSource (s : value) : res Source :=
  a1 <-r Js.get s "$"; v_source <-r Js.get a1 "source";
  a2 <-r Js.get s "$"; v_sourceAccount <-r Js.get a2 "sourceAccount";
  a3 <-r Js.get s "$"; v_status <-r Js.get a3 "status";
  a4 <-r Js.get s "$"; v_isLocal <-r Js.get a4 "isLocal";
  a5 <-r Js.get s "$"; v_multiroom <-r Js.get a5 "multiroomallowed";
  ok {| src_source := v_source;
        src_sourceAccount := v_sourceAccount;
        src_status := v_status;
        src_isLocal := is_true_literal v_isLocal;
        src_multiroomAllowed := is_true_literal v_multiroom |}.

Definition decodeSources (result : value) : res (list Source) :=
  ss <-r Js.get result "sources";
  s <-r Js.get ss "sourceItem";
  if negb (truthy s) then ok []
  else mapM decodeSource (as_array s).

Definition getSources : io (list Source) :=
  result <- get "/sources" ;;
  lift (decodeSources result).

(** The object [playContent] hands to the builder: [itemName] is set
    only for a non-empty name, and there is no [type] attribute. *)
Definition contentObj (source location sourceAccount name : string) : value :=
  Obj [("ContentItem",
        Obj (("$", Obj [("source", Str source);
                        ("location", Str location);
                        ("sourceAccount", Str sourceAccount);
                        ("isPresetable", Str "true")])
             :: (if truthy (Str name) then [("itemName", Str name)] else [])))].

(** [playContent(source, location, sourceAccount = '', name = '')]. *)
Definition playContentXml (source location : string)
    (sourceAccount name : option string) : string :=
  buildObject (contentObj source location (default "" sourceAccount) (default "" name)).

Definition playContent (source location : string)
    (sourceAccount name : option string) : io unit :=
  _ <- post "/select" (playContentXml source location sourceAccount name) ;;
  Ret tt.

(** Reading a [ContentItem] document back with the decoders' own
    expressions. *)
Definition decodeContentItemXml (xml : string) : res ContentItem :=
  result <-r parseString xml;
  ci <-r Js.get result "ContentItem";
  contentItemOf ci.

End Methods.

End Client.

(* ===================================================================== *)
(** * EventStream: src/soundtouchWebSocket.ts *)
(* ===================================================================== *)

Module EventStream.

(** ** What the stream emits *)

Record VolumeUpdate : Type := {
  targetvolume : integral;
  actualvolume : integral;
  muteenabled : bool
}.

Record NowPlayingUpdate : Type := {
  source : value;
  sourceAccount : value;
  track : value;
  artist : value;
  album : value;
  stationName : value;
  art : value;
  playStatus : value;
  shuffleSetting : value;
  repeatSetting : value
}.

Record PresetEntry : Type := {
  preset_id : integral;
  preset_name : value;
  preset_source : value
}.

Record PresetUpdate : Type := { presets : list PresetEntry }.

Record ZoneMember : Type := {
  ipaddress : value;
  macaddress : value
}.

Record ZoneUpdate : Type := {
  master : value;
  members : list ZoneMember
}.

Record BassUpdate : Type := {
  targetbass : integral;
  actualbass : integral
}.

Record ConnectionStateUpdate : Type := {
  state : value;
  up : bool
}.

(** One call of [this.emit(event, ...)]. *)
Inductive Emitted : Type :=
| volumeUpdated (data : VolumeUpdate)
| nowPlayingUpdated (data : NowPlayingUpdate)
| presetUpdated (data : PresetUpdate)
| zoneUpdated (data : ZoneUpdate)
| bassUpdated (data : BassUpdate)
| connectionStateUpdated (data : ConnectionStateUpdate)
| error (e : exn)
| connected
| disconnected.

(** ** The body of [handleMessage]: emitting, and possibly throwing

    What was emitted before a throw stays emitted: the [catch] only
    stops the rest of the body. *)
Definition emitting (A : Type) : Type := list Emitted -> res A * list Emitted.

Definition eret {A} (a : A) : emitting A := fun log => (ok a, log).

Definition ebind {A B} (m : emitting A) (f : A -> emitting B) : emitting B :=
  fun log =>
    match m log with
    | (inl e, log') => (inl e, log')
    | (inr a, log') => f a log'
    end.

Definition emit (ev : Emitted) : emitting unit := fun log => (ok tt, log ++ [ev]).

Definition elift {A} (m : res A) : emitting A := fun log => (m, log).

Notation "x <-e m ; k" := (ebind m (fun x => k))
  (at level 100, m at next level, right associativity, only parsing).
Notation "x <-v m ; k" := (ebind (elift m) (fun x => k))
  (at level 100, m at next level, right associativity, only parsing).

Definition when (b : bool) (m : emitting unit) : emitting unit :=
  if b then m else eret tt.

(** [try { body } catch { }]: the events of the body, errors dropped. *)
Definition try_catch (body : emitting unit) : list Emitted := (body []).2.

Fixpoint mapM {A B} (f : A -> res B) (l : list A) : res (list B) :=
  match l with
  | [] => ok []
  | a :: l' => b <-r f a; bs <-r mapM f l'; ok (b :: bs)
  end.

Section HandleMessage.
Context `{Xml2js}.

Definition onVolumeUpdated (updates : value) : emitting unit :=
  vu <-v get updates "volumeUpdated";
  when (truthy vu) (
    vol <-v get vu "volume";
    t <-v get vol "targetvolume";
    a <-v get vol "actualvolume";
    m <-v get vol "muteenabled";
    emit (volumeUpdated {| targetvolume := parseInt t;
                           actualvolume := parseInt a;
                           muteenabled := is_true_literal m |})).

Definition onNowPlayingUpdated (updates : value) : emitting unit :=
  nu <-v get updates "nowPlayingUpdated";
  when (truthy nu) (
    np <-v get nu "nowPlaying";
    v_art <-v get np "art";
    artUrl <-v (if truthy v_art then
                  if is_string v_art then ok v_art
                  else t <-r get v_art "_";
                       if truthy t then ok t else ok Undefined
                else ok Undefined);
    a1 <-v get np "$"; v_source <-v get a1 "source";
    a2 <-v get np "$"; v_sourceAccount <-v get a2 "sourceAccount";
    v_track <-v get np "track";
    v_artist <-v get np "artist";
    v_album <-v get np "album";
    v_stationName <-v get np "stationName";
    v_playStatus <-v get np "playStatus";
    v_shuffleSetting <-v get np "shuffleSetting";
    v_repeatSetting <-v get np "repeatSetting";
    emit (nowPlayingUpdated {| source := v_source;
                               sourceAccount := v_sourceAccount;
                               track := v_track;
                               artist := v_artist;
                               album := v_album;
                               stationName := v_stationName;
                               art := artUrl;
                               playStatus := v_playStatus;
                               shuffleSetting := v_shuffleSetting;
                               repeatSetting := v_repeatSetting |})).

(** One iteration of the loop over [presets.preset]. *)
Definition presetEntryOf (p : value) : res PresetEntry :=
  a <-r get p "$"; v_id <-r get a "id";
  c1 <-r get p "ContentItem"; v_name <-r get_opt c1 "itemName";
  c2 <-r get p "ContentItem";
  v_source <-r (match c2 with
                | Undefined | Null => ok Undefined
                | _ => a' <-r get c2 "$"; get a' "source"
                end);
  ok {| preset_id := parseInt v_id; preset_name := v_name; preset_source := v_source |}.

Definition onPresetsUpdated (updates : value) : emitting unit :=
  pu <-v get updates "presetsUpdated";
  when (truthy pu) (
    ps <-v get pu "presets";
    p <-v get ps "preset";
    presetList <-v (if truthy p then mapM presetEntryOf (as_array p) else ok []);
    emit (presetUpdated {| presets := presetList |})).

Definition zoneMemberOf (m : value) : res ZoneMember :=
  a <-r get m "$"; v_ip <-r get a "ipaddress";
  v_mac <-r get m "_";
  ok {| ipaddress := v_ip; macaddress := v_mac |}.

Definition onZoneUpdated (updates : value) : emitting unit :=
  zu <-v get updates "zoneUpdated";
  when (truthy zu) (
    zone <-v get zu "zone";
    m <-v get_opt zone "member";
    memberList <-v (if truthy m then mapM zoneMemberOf (as_array m) else ok []);
    v_master <-v (match zone with
                  | Undefined | Null => ok Undefined
                  | _ => a <-r get zone "$"; get a "master"
                  end);
    emit (zoneUpdated {| master := v_master; members := memberList |})).

Definition onBassUpdated (updates : value) : emitting unit :=
  bu <-v get updates "bassUpdated";
  when (truthy bu) (
    bass <-v get bu "bass";
    t <-v get bass "targetbass";
    a <-v get bass "actualbass";
    emit (bassUpdated {| targetbass := parseInt t; actualbass := parseInt a |})).

Definition onConnectionStateUpdated (updates : value) : emitting unit :=
  st <-v get updates "connectionStateUpdated";
  when (truthy st) (
    a1 <-v get st "$"; v_state <-v get a1 "state";
    a2 <-v get st "$"; v_up <-v get a2 "up";
    emit (connectionStateUpdated {| state := v_state; up := is_true_literal v_up |})).

Definition handleMessage_body (data : string) : emitting unit :=
  result <-v parseString data;
  updates <-v get result "updates";
  when (truthy updates) (
    _ <-e onVolumeUpdated updates;
    _ <-e onNowPlayingUpdated updates;
    _ <-e onPresetsUpdated updates;
    _ <-e onZoneUpdated updates;
    _ <-e onBassUpdated updates;
    onConnectionStateUpdated updates).

(** The events one frame makes the stream emit. *)
Definition handleMessage (data : string) : list Emitted :=
  try_catch (handleMessage_body data).

End HandleMessage.

(** ** The connection: the object, and the runtime around it *)

Inductive ReadyState : Type := CONNECTING | OPEN | CLOSING | CLOSED.

Global Instance ReadyState_eq_dec : EqDecision ReadyState.
Proof. solve_decision. Defined.

(** A socket made by [new WebSocket(url, protocol)]. *)
Record WebSocket : Type := {
  url : string;
  protocol : string;
  readyState : ReadyState
}.

(** The fields of a [SoundTouchWebSocket].  [ws] names a socket of the
    runtime by its index; timers are named by their handles. *)
Record SoundTouchWebSocket : Type := {
  ws : option nat;
  host : string;
  port : Z;
  reconnectTimer : option nat;
  pingInterval : option nat;
  isConnecting : bool;
  shouldReconnect : bool;
  reconnectDelay : Z
}.

(** The stream together with what the runtime holds for it: every
    socket it has constructed (each keeps the handlers [connect] gave
    it, whether or not [ws] still points to it), the timeouts and
    intervals that are armed, and what has been emitted and pinged. *)
Record World : Type := {
  this : SoundTouchWebSocket;
  sockets : list WebSocket;
  timeouts : list nat;
  intervals : list nat;
  next_handle : nat;
  emitted : list Emitted;
  pinged : list nat
}.

Definition new_SoundTouchWebSocket (h : string) (p : option Z) : SoundTouchWebSocket :=
  {| ws := None; host := h; port := default 8080 p;
     reconnectTimer := None; pingInterval := None;
     isConnecting := false; shouldReconnect := true; reconnectDelay := 5000 |}.

Definition init (h : string) (p : option Z) : World :=
  {| this := new_SoundTouchWebSocket h p;
     sockets := []; timeouts := []; intervals := [];
     next_handle := 0; emitted := []; pinged := [] |}.

(** Field assignments. *)
Definition set_ws (v : option nat) (w : World) : World :=
  let o := this w in
  {| this := {| ws := v; host := host o; port := port o;
                reconnectTimer := reconnectTimer o; pingInterval := pingInterval o;
                isConnecting := isConnecting o; shouldReconnect := shouldReconnect o;
                reconnectDelay := reconnectDelay o |};
     sockets := sockets w; timeouts := timeouts w; intervals := intervals w;
     next_handle := next_handle w; emitted := emitted w; pinged := pinged w |}.

Definition set_reconnectTimer (v : option nat) (w : World) : World :=
  let o := this w in
  {| this := {| ws := ws o; host := host o; port := port o;
                reconnectTimer := v; pingInterval := pingInterval o;
                isConnecting := isConnecting o; shouldReconnect := shouldReconnect o;
                reconnectDelay := reconnectDelay o |};
     sockets := sockets w; timeouts := timeouts w; intervals := intervals w;
     next_handle := next_handle w; emitted := emitted w; pinged := pinged w |}.

Definition set_pingInterval (v : option nat) (w : World) : World :=
  let o := this w in
  {| this := {| ws := ws o; host := host o; port := port o;
                reconnectTimer := reconnectTimer o; pingInterval := v;
                isConnecting := isConnecting o; shouldReconnect := shouldReconnect o;
                reconnectDelay := reconnectDelay o |};
     sockets := sockets w; timeouts := timeouts w; intervals := intervals w;
     next_handle := next_handle w; emitted := emitted w; pinged := pinged w |}.

Definition set_isConnecting (v : bool) (w : World) : World :=
  let o := this w in
  {| this := {| ws := ws o; host := host o; port := port o;
                reconnectTimer := reconnectTimer o; pingInterval := pingInterval o;
                isConnecting := v; shouldReconnect := shouldReconnect o;
                reconnectDelay := reconnectDelay o |};
     sockets := sockets w; timeouts := timeouts w; intervals := intervals w;
     next_handle := next_handle w; emitted := emitted w; pinged := pinged w |}.

Definition set_shouldReconnect (v : bool) (w : World) : World :=
  let o := this w in
  {| this := {| ws := ws o; host := host o; port := port o;
                reconnectTimer := reconnectTimer o; pingInterval := pingInterval o;
                isConnecting := isConnecting o; shouldReconnect := v;
                reconnectDelay := reconnectDelay o |};
     sockets := sockets w; timeouts := timeouts w; intervals := intervals w;
     next_handle := next_handle w; emitted := emitted w; pinged := pinged w |}.

(** What the runtime does. *)
Definition emit_event (ev : Emitted) (w : World) : World :=
  {| this := this w; sockets := sockets w; timeouts := timeouts w;
     intervals := intervals w; next_handle := next_handle w;
     emitted := emitted w ++ [ev]; pinged := pinged w |}.

Definition emit_all (evs : list Emitted) (w : World) : World :=
  {| this := this w; sockets := sockets w; timeouts := timeouts w;
     intervals := intervals w; next_handle := next_handle w;
     emitted := emitted w ++ evs; pinged := pinged w |}.

Definition set_sockets (l : list WebSocket) (w : World) : World :=
  {| this := this w; sockets := l; timeouts := timeouts w;
     intervals := intervals w; next_handle := next_handle w;
     emitted := emitted w; pinged := pinged w |}.

(** [setTimeout(cb, delay)]: a fresh handle, armed. *)
Definition setTimeout (w : World) : nat * World :=
  (next_handle w,
   {| this := this w; sockets := sockets w;
      timeouts := timeouts w ++ [next_handle w];
      intervals := intervals w; next_handle := S (next_handle w);
      emitted := emitted w; pinged := pinged w |}).

(** A timeout leaves the armed ones when it is cleared, and when it fires. *)
Definition disarm (t : nat) (w : World) : World :=
  {| this := this w; sockets := sockets w;
     timeouts := filter (fun t' => t' <> t) (timeouts w);
     intervals := intervals w; next_handle := next_handle w;
     emitted := emitted w; pinged := pinged w |}.

Definition clearTimeout (t : nat) (w : World) : World := disarm t w.

Definition setInterval (w : World) : nat * World :=
  (next_handle w,
   {| this := this w; sockets := sockets w; timeouts := timeouts w;
      intervals := intervals w ++ [next_handle w]; next_handle := S (next_handle w);
      emitted := emitted w; pinged := pinged w |}).

Definition clearInterval (j : nat) (w : World) : World :=
  {| this := this w; sockets := sockets w; timeouts := timeouts w;
     intervals := filter (fun j' => j' <> j) (intervals w);
     next_handle := next_handle w; emitted := emitted w; pinged := pinged w |}.

Definition set_readyState (r : ReadyState) (s : WebSocket) : WebSocket :=
  {| url := url s; protocol := protocol s; readyState := r |}.

Definition readyState_of (w : World) (i : nat) : option ReadyState :=
  readyState <$> sockets w !! i.

(** [socket.close()]: a connecting or open socket starts closing; its
    ['close'] event comes later, from the runtime. *)
Definition socket_close (i : nat) (w : World) : World :=
  match sockets w !! i with
  | Some s =>
      match readyState s with
      | CONNECTING | OPEN => set_sockets (<[i := set_readyState CLOSING s]> (sockets w)) w
      | CLOSING | CLOSED => w
      end
  | None => w
  end.

(** ** The methods

    Listeners are the caller's: they are taken not to throw and not to
    call back into the stream, and ['error'] is taken to have one (the
    accessory registers it before it connects). *)

Definition cleanup (w : World) : World :=
  let w :=
    match pingInterval (this w) with
    | Some j => set_pingInterval None (clearInterval j w)
    | None => w
    end in
  match reconnectTimer (this w) with
  | Some t => set_reconnectTimer None (clearTimeout t w)
  | None => w
  end.

Definition startPing (w : World) : World :=
  let '(j, w) := setInterval w in
  set_pingInterval (Some j) w.

(** The timer's callback is [reconnect] below. *)
Definition scheduleReconnect (w : World) : World :=
  if negb (shouldReconnect (this w)) || bool_decide (is_Some (reconnectTimer (this w)))
  then w
  else
    let '(t, w) := setTimeout w in
    set_reconnectTimer (Some t) w.

(** [connect()].  [ctor] is what [new WebSocket(...)] does this time:
    [None] when it returns a socket, [Some e] when it throws [e]. *)
Definition connect (ctor : option exn) (w : World) : World :=
  if bool_decide (is_Some (ws (this w))) || isConnecting (this w) then w
  else
    let w := set_isConnecting true w in
    let w := set_shouldReconnect true w in
    match ctor with
    | None =>
        let s := {| url := "ws://" +:+ host (this w) +:+ ":" +:+ pretty (port (this w));
                    protocol := "gabbo";
                    readyState := CONNECTING |} in
        set_ws (Some (length (sockets w))) (set_sockets (sockets w ++ [s]) w)
    | Some e =>
        let w := set_isConnecting false w in
        let w := emit_event (error e) w in
        scheduleReconnect w
    end.

Definition disconnect (w : World) : World :=
  let w := set_shouldReconnect false w in
  let w := cleanup w in
  match ws (this w) with
  | Some i => set_ws None (socket_close i w)
  | None => w
  end.

(** The handlers [connect] registers on the socket it makes. *)
Definition on_open (w : World) : World :=
  let w := set_isConnecting false w in
  let w := emit_event connected w in
  startPing w.

Definition on_message `{Xml2js} (data : string) (w : World) : World :=
  emit_all (handleMessage data) w.

Definition on_error (e : exn) (w : World) : World :=
  emit_event (error e) w.

Definition on_close (w : World) : World :=
  let w := set_isConnecting false w in
  let w := cleanup w in
  let w := emit_event disconnected w in
  scheduleReconnect w.

(** The callback given to [setTimeout] in [scheduleReconnect]. *)
Definition reconnect (ctor : option exn) (w : World) : World :=
  let w := set_reconnectTimer None w in
  let w := set_ws None w in
  connect ctor w.

(** The callback given to [setInterval] in [startPing]. *)
Definition ping_tick (w : World) : World :=
  match ws (this w) with
  | Some i =>
      if bool_decide (readyState_of w i = Some OPEN)
      then {| this := this w; sockets := sockets w; timeouts := timeouts w;
              intervals := intervals w; next_handle := next_handle w;
              emitted := emitted w; pinged := pinged w ++ [i] |}
      else w
  | None => w
  end.

(** [get isConnected()]. *)
Definition isConnected (w : World) : bool :=
  match ws (this w) with
  | Some i => bool_decide (readyState_of w i = Some OPEN)
  | None => false
  end.

(** ** What can happen to a stream *)

Inductive Event : Type :=
| call_connect (ctor : option exn)
| call_disconnect
| socket_open (i : nat)
| socket_message (i : nat) (data : string)
| socket_error (i : nat) (e : exn)
| socket_closed (i : nat)
| timeout_fires (t : nat) (ctor : option exn)
| interval_fires (j : nat).

(** The runtime delivers ['open'] to a connecting socket, ['message'] to
    an open one, ['error'] and ['close'] to one not yet closed, and runs
    a timer's callback only while the timer is armed. *)
Definition enabled (ev : Event) (w : World) : bool :=
  match ev with
  | call_connect _ | call_disconnect => true
  | socket_open i => bool_decide (readyState_of w i = Some CONNECTING)
  | socket_message i _ => bool_decide (readyState_of w i = Some OPEN)
  | socket_error i _ | socket_closed i =>
      bool_decide (is_Some (readyState_of w i) /\ readyState_of w i <> Some CLOSED)
  | timeout_fires t _ => bool_decide (t ∈ timeouts w)
  | interval_fires j => bool_decide (j ∈ intervals w)
  end.

Definition mark (i : nat) (r : ReadyState) (w : World) : World :=
  set_sockets (alter (set_readyState r) i (sockets w)) w.

Definition fire `{Xml2js} (ev : Event) (w : World) : World :=
  match ev with
  | call_connect ctor => connect ctor w
  | call_disconnect => disconnect w
  | socket_open i => on_open (mark i OPEN w)
  | socket_message _ data => on_message data w
  | socket_error i e => on_error e w
  | socket_closed i => on_close (mark i CLOSED w)
  | timeout_fires t ctor => reconnect ctor (disarm t w)
  | interval_fires _ => ping_tick w
  end.

(** An event that cannot happen in [w] does not happen. *)
Definition step `{Xml2js} (w : World) (ev : Event) : World :=
  if enabled ev w then fire ev w else w.

Definition run `{Xml2js} (evs : list Event) (w : World) : World :=
  foldl step w evs.

Definition reachable `{Xml2js} (h : string) (p : option Z) (w : World) : Prop :=
  exists evs, w = run evs (init h p).

(** Sockets whose handshake has not finished. *)
Definition in_flight (w : World) : nat :=
  length (filter (fun s => readyState s = CONNECTING) (sockets w)).

Definition is_call_connect (ev : Event) : bool :=
  match ev with call_connect _ => true | _ => false end.

End EventStream.

(* ===================================================================== *)
(** * Discovery: src/discovery.ts *)
(* ===================================================================== *)

Module Discovery.

(** A service as the browser reports it. *)
Module Service.
Record t : Type := {
  name : string;
  host : string;
  port : Z;
  addresses : option (list string);
  txt : option (list (string * string))
}.
End Service.

Record DiscoveredDevice : Type := {
  name : string;
  host : string;
  port : Z;
  mac : option string
}.

Global Instance DiscoveredDevice_eq_dec : EqDecision DiscoveredDevice.
Proof. solve_decision. Defined.

(** [addr.includes(':')]. *)
Fixpoint includes_colon (addr : string) : bool :=
  match addr with
  | EmptyString => false
  | String c rest => Ascii.eqb c ":" || includes_colon rest
  end.

(** [addresses.find((addr) => !addr.includes(':')) || addresses[0]],
    for a list whose first element is [first]. *)
Definition selectHost (first : string) (rest : list string) : string :=
  match find (fun addr => negb (includes_colon addr)) (first :: rest) with
  | Some addr => if String.eqb addr "" then first else addr
  | None => first
  end.

(** [service.port || 8090]. *)
Definition portOr8090 (p : Z) : Z := if (p =? 0)%Z then 8090 else p.

(** [service.txt?.['MAC']]. *)
Definition macOf (txt : option (list (string * string))) : option string :=
  match txt with
  | Some entries => assoc "MAC" entries
  | None => None
  end.

(** The device both service handlers build, once the service is known
    to advertise an address. *)
Definition deviceOf (service : Service.t) (first : string) (rest : list string)
    : DiscoveredDevice :=
  {| name := Service.name service;
     host := selectHost first rest;
     port := portOr8090 (Service.port service);
     mac := macOf (Service.txt service) |}.

Definition keyOf (h : string) (p : Z) : string := h +:+ ":" +:+ pretty p.

(** The browser's state in continuous mode, with the calls made to
    [onDeviceFound] and [onDeviceLost]. *)
Record SoundTouchDiscovery : Type := {
  devices : gmap string DiscoveredDevice;
  found : list DiscoveredDevice;
  lost : list DiscoveredDevice
}.

Definition new_SoundTouchDiscovery : SoundTouchDiscovery :=
  {| devices := ∅; found := []; lost := [] |}.

Definition handleServiceUp (service : Service.t) (d : SoundTouchDiscovery)
    : SoundTouchDiscovery :=
  match Service.addresses service with
  | None | Some [] => d
  | Some (first :: rest) =>
      let device := deviceOf service first rest in
      let key := keyOf (host device) (port device) in
      match devices d !! key with
      | Some _ => d
      | None =>
          {| devices := <[key := device]> (devices d);
             found := found d ++ [device];
             lost := lost d |}
      end
  end.

Definition handleServiceDown (service : Service.t) (d : SoundTouchDiscovery)
    : SoundTouchDiscovery :=
  foldl (fun d addr =>
           let key := keyOf addr (portOr8090 (Service.port service)) in
           match devices d !! key with
           | Some device =>
               {| devices := delete key (devices d);
                  found := found d;
                  lost := lost d ++ [device] |}
           | None => d
           end)
        d (default [] (Service.addresses service)).

(** The callback of [discoverOnce], on the list it collects. *)
Definition onService (service : Service.t) (collected : list DiscoveredDevice)
    : list DiscoveredDevice :=
  match Service.addresses service with
  | None | Some [] => collected
  | Some (first :: rest) =>
      let device := deviceOf service first rest in
      let exists_ :=
        existsb (fun d => String.eqb (host d) (host device) && (port d =? port device)%Z)
                collected in
      if exists_ then collected else collected ++ [device]
  end.

(** [discoverOnce]: what is resolved when the timeout fires, given the
    services the browser reported before. *)
Definition discoverOnce (reported : list Service.t) : list DiscoveredDevice :=
  foldl (fun collected service => onService service collected) [] reported.

End Discovery.

(** ** Continuous mode

    [start(onDeviceFound, onDeviceLost)] hands [handleServiceUp] to the
    browser as its callback and [handleServiceDown] as its ['down']
    listener; from then on the browser drives the object. *)
Module Browsing.
Import Discovery.

(** What the browser reports while it runs. *)
Inductive BrowserEvent : Type :=
| service_up (service : Service.t)
| service_down (service : Service.t).

Definition on_browser_event (d : SoundTouchDiscovery) (ev : BrowserEvent)
    : SoundTouchDiscovery :=
  match ev with
  | service_up service => handleServiceUp service d
  | service_down service => handleServiceDown service d
  end.

(** The object after [start] and the reports that followed it. *)
Definition start (reported : list BrowserEvent) : SoundTouchDiscovery :=
  foldl on_browser_event new_SoundTouchDiscovery reported.

End Browsing.

(* ===================================================================== *)
(** * What Node.js provides *)
(* ===================================================================== *)

Module Node.

(** ** [Buffer.from(s).toString('base64')]

    A string stands for its UTF-8 bytes, so the buffer of a string is
    the list of its characters' codes. *)

Definition base64_alphabet : string :=
  "ABCDEFGHIJKLMNOPQRSTUVWXYZabcdefghijklmnopqrstuvwxyz0123456789+/".

Definition base64_digit (n : N) : ascii :=
  default "="%char (String.get (N.to_nat n) base64_alphabet).

(** Three bytes give four digits; a last group of one or two bytes is
    padded with [=]. *)
Fixpoint base64_encode (bytes : list N) : string :=
  match bytes with
  | a :: b :: c :: rest =>
      String (base64_digit (a / 4))
        (String (base64_digit ((a mod 4) * 16 + b / 16))
           (String (base64_digit ((b mod 16) * 4 + c / 64))
              (String (base64_digit (c mod 64)) (base64_encode rest))))
  | [a; b] =>
      String (base64_digit (a / 4))
        (String (base64_digit ((a mod 4) * 16 + b / 16))
           (String (base64_digit ((b mod 16) * 4)) "="))
  | [a] =>
      String (base64_digit (a / 4))
        (String (base64_digit ((a mod 4) * 16)) "==")
  | [] => ""
  end%N.

Definition bytes_of (s : string) : list N := map N_of_ascii (list_ascii_of_string s).

Definition toBase64 (s : string) : string := base64_encode (bytes_of s).

(** ** [JSON.stringify] of a string: QuoteJSONString

    The two-character escapes, [\u00xx] for the other control
    characters, and every other byte as it is.  (A lone surrogate has no
    UTF-8 form, so it cannot occur in a string here.) *)

Definition hex_digit (n : N) : ascii :=
  default "0"%char (String.get (N.to_nat n) "0123456789abcdef").

Definition backslash : string := String (ascii_of_nat 92) EmptyString.

Definition quoteJSONChar (c : ascii) : string :=
  let n := N_of_ascii c in
  if (n =? 8)%N then backslash +:+ "b"
  else if (n =? 9)%N then backslash +:+ "t"
  else if (n =? 10)%N then backslash +:+ "n"
  else if (n =? 12)%N then backslash +:+ "f"
  else if (n =? 13)%N then backslash +:+ "r"
  else if (n =? 34)%N then backslash +:+ dq
  else if (n =? 92)%N then backslash +:+ backslash
  else if (n <? 32)%N then
    backslash +:+ "u00" +:+ String (hex_digit (n / 16)) (String (hex_digit (n mod 16)) "")
  else String c "".

Fixpoint quoteJSONBody (s : string) : string :=
  match s with
  | EmptyString => ""
  | String c rest => quoteJSONChar c +:+ quoteJSONBody rest
  end.

Definition quoteJSONString (s : string) : string := dq +:+ quoteJSONBody s +:+ dq.

(** [JSON.stringify] of an object whose properties are strings, in the
    order they were written. *)
Fixpoint stringifyMembers (members : list (string * string)) : string :=
  match members with
  | [] => ""
  | [(k, v)] => quoteJSONString k +:+ ":" +:+ quoteJSONString v
  | (k, v) :: rest =>
      quoteJSONString k +:+ ":" +:+ quoteJSONString v +:+ "," +:+ stringifyMembers rest
  end.

Definition JSON_stringify (members : list (string * string)) : string :=
  "{" +:+ stringifyMembers members +:+ "}".

End Node.

(* ===================================================================== *)
(** * ProtocolClient: the remaining methods of src/soundtouchClient.ts *)
(* ===================================================================== *)

Module ClientCommands.
Import Client.

Record NetworkInfo : Type := {
  net_ssid : value;
  net_macAddress : value
}.

Record DeviceInfo : Type := {
  info_deviceID : value;
  info_name : value;
  info_type : value;
  info_ipAddress : string;
  info_macAddress : value;
  info_networkInfo : option NetworkInfo
}.

Record Bass : Type := {
  targetbass : integral;
  actualbass : integral
}.

Record BassCapabilities : Type := {
  bassAvailable : bool;
  bassMin : integral;
  bassMax : integral;
  bassDefault : integral
}.

Record ZoneMember : Type := {
  ipaddress : value;
  macaddress : value;
  role : value
}.

Record Zone : Type := {
  master : value;
  members : list ZoneMember;
  senderIPAddress : value;
  senderMACAddress : value
}.

(** ['off' | 'one' | 'all']. *)
Inductive RepeatMode : Type := off | one | all.

(** [v === s] for a string literal [s]. *)
Definition is_literal (s : string) (v : value) : bool :=
  match v with
  | Str t => String.eqb t s
  | _ => false
  end.

(** [items.find(f)] where [f] may throw. *)
Fixpoint findM (f : value -> res bool) (l : list value) : res (option value) :=
  match l with
  | [] => ok None
  | x :: l' => b <-r f x; if b : bool then ok (Some x) else findM f l'
  end.

Section Methods.
Context `{Xml2js} (this : SoundTouchClient).

(** ** getInfo *)

(** [(n) => n.$.type === 'WIFI']. *)
Definition isWifi (n : value) : res bool :=
  a <-r Js.get n "$"; t <-r Js.get a "type"; ok (is_literal "WIFI" t).

Definition networkInfoOf (info : value) : res (option NetworkInfo) :=
  ni <-r Js.get info "networkInfo";
  if truthy ni then
    wifiInfo <-r (if isArray ni then findM isWifi (as_array ni) else ok (Some ni));
    match wifiInfo with
    | Some wi =>
        if truthy wi then
          v_ssid <-r Js.get wi "ssid";
          v_mac <-r Js.get wi "macAddress";
          ok (Some {| net_ssid := v_ssid; net_macAddress := v_mac |})
        else ok None
    | None => ok None
    end
  else ok None.

Definition decodeInfo (result : value) : res DeviceInfo :=
  info <-r Js.get result "info";
  networkInfo <-r networkInfoOf info;
  a1 <-r Js.get info "$"; v_deviceID <-r Js.get a1 "deviceID";
  v_name <-r Js.get info "name";
  v_type <-r Js.get info "type";
  v_mac <-r (match networkInfo with
             | Some n =>
                 if truthy (net_macAddress n) then ok (net_macAddress n)
                 else a2 <-r Js.get info "$"; Js.get a2 "deviceID"
             | None => a2 <-r Js.get info "$"; Js.get a2 "deviceID"
             end);
  ok {| info_deviceID := v_deviceID;
        info_name := v_name;
        info_type := v_type;
        info_ipAddress := host this;
        info_macAddress := v_mac;
        info_networkInfo := networkInfo |}.

Definition getInfo : io DeviceInfo :=
  result <- get this "/info" ;;
  lift (decodeInfo result).

(** ** Bass *)

Definition decodeBass (result : value) : res Bass :=
  b1 <-r Js.get result "bass"; t <-r Js.get b1 "targetbass";
  b2 <-r Js.get result "bass"; a <-r Js.get b2 "actualbass";
  ok {| targetbass := parseInt t; actualbass := parseInt a |}.

Definition getBass : io Bass :=
  result <- get this "/bass" ;;
  lift (decodeBass result).

Definition bassXml (level : number) : string :=
  "<bass>" +:+ Number_toString (Math_round level) +:+ "</bass>".

Definition setBass (level : number) : io unit :=
  _ <- post this "/bass" (bassXml level) ;;
  Ret tt.

Definition decodeBassCapabilities (result : value) : res BassCapabilities :=
  c1 <-r Js.get result "bassCapabilities"; v_available <-r Js.get c1 "bassAvailable";
  c2 <-r Js.get result "bassCapabilities"; v_min <-r Js.get c2 "bassMin";
  c3 <-r Js.get result "bassCapabilities"; v_max <-r Js.get c3 "bassMax";
  c4 <-r Js.get result "bassCapabilities"; v_default <-r Js.get c4 "bassDefault";
  ok {| bassAvailable := is_true_literal v_available;
        bassMin := parseInt v_min;
        bassMax := parseInt v_max;
        bassDefault := parseInt v_default |}.

Definition getBassCapabilities : io BassCapabilities :=
  result <- get this "/bassCapabilities" ;;
  lift (decodeBassCapabilities result).

(** ** Keys *)

Definition play : io unit := pressKey this PLAY.
Definition pause : io unit := pressKey this PAUSE.
Definition playPause : io unit := pressKey this PLAY_PAUSE.
Definition stop : io unit := pressKey this STOP.
Definition nextTrack : io unit := pressKey this NEXT_TRACK.
Definition previousTrack : io unit := pressKey this PREV_TRACK.
Definition power : io unit := pressKey this POWER.
Definition volumeUp : io unit := pressKey this VOLUME_UP.
Definition volumeDown : io unit := pressKey this VOLUME_DOWN.
Definition selectAux : io unit := pressKey this AUX_INPUT.
Definition thumbsUp : io unit := pressKey this THUMBS_UP.
Definition thumbsDown : io unit := pressKey this THUMBS_DOWN.
Definition addFavorite : io unit := pressKey this ADD_FAVORITE.
Definition removeFavorite : io unit := pressKey this REMOVE_FAVORITE.
Definition bookmark : io unit := pressKey this BOOKMARK.

Definition setShuffle (enabled : bool) : io unit :=
  pressKey this (if enabled then SHUFFLE_ON else SHUFFLE_OFF).

Definition keyMap (mode : RepeatMode) : KeyValue :=
  match mode with
  | off => REPEAT_OFF
  | one => REPEAT_ONE
  | all => REPEAT_ALL
  end.

Definition setRepeat (mode : RepeatMode) : io unit := pressKey this (keyMap mode).

(** ** Power *)

Definition powerOn : io unit :=
  nowPlaying <- getNowPlaying this ;;
  if is_literal "STANDBY" (np_source nowPlaying) then power else Ret tt.

Definition powerOff : io unit :=
  nowPlaying <- getNowPlaying this ;;
  if negb (is_literal "STANDBY" (np_source nowPlaying)) then power else Ret tt.

(** ** Presets

    [pressKey] on a string the compiler was told is a key ([as
    KeyValue]): the same two requests, with the string as it is. *)
Definition keyXmlOf (state key : string) : string :=
  "<key state=" +:+ dq +:+ state +:+ dq +:+ " sender=" +:+ dq +:+ "Gabbo" +:+ dq +:+ ">"
    +:+ key +:+ "</key>".

Definition pressKeyAs (key : string) : io unit :=
  _ <- post this "/key" (keyXmlOf "press" key) ;;
  _ <- post this "/key" (keyXmlOf "release" key) ;;
  Ret tt.

Definition selectPreset (presetId : integral) : io unit :=
  pressKeyAs ("PRESET_" +:+ Number_toString presetId).

(** The content of a preset slot as [storePreset] is given it. *)
Record StoredItem : Type := {
  item_source : string;
  item_location : string;
  item_sourceAccount : option string;
  item_name : option string
}.

(** [s || ''] and [if (s)] on an optional string. *)
Definition orEmpty (s : option string) : string := default "" s.

Definition given (s : option string) : bool := truthy (Str (orEmpty s)).

Definition presetObj (presetId : integral) (item : StoredItem) : value :=
  Obj [("preset",
        Obj [("$", Obj [("id", Str (Number_toString presetId))]);
             ("ContentItem",
              Obj (("$", Obj [("source", Str (item_source item));
                              ("location", Str (item_location item));
                              ("sourceAccount", Str (orEmpty (item_sourceAccount item)));
                              ("isPresetable", Str "true")])
                   :: (if given (item_name item)
                       then [("itemName", Str (orEmpty (item_name item)))]
                       else [])))])].

Definition storePreset (presetId : integral) (item : StoredItem) : io unit :=
  _ <- post this "/storePreset" (buildObject (presetObj presetId item)) ;;
  Ret tt.

Definition clearObj (presetId : integral) : value :=
  Obj [("preset", Obj [("$", Obj [("id", Str (Number_toString presetId))])])].

Definition clearPreset (presetId : integral) : io unit :=
  _ <- post this "/removePreset" (buildObject (clearObj presetId)) ;;
  Ret tt.

(** ** Selecting content *)

Definition sourceObj (source : string) (sourceAccount : option string) : value :=
  Obj [("ContentItem",
        Obj [("$", Obj (("source", Str source)
                        :: (if given sourceAccount
                            then [("sourceAccount", Str (orEmpty sourceAccount))]
                            else [])))])].

Definition selectSource (source : string) (sourceAccount : option string) : io unit :=
  _ <- post this "/select" (buildObject (sourceObj source sourceAccount)) ;;
  Ret tt.

Definition selectBluetooth : io unit := selectSource "BLUETOOTH" None.

(** A [ContentItem] object literal: the attributes in the order they
    are written, and the name if the literal has one. *)
Definition itemObj (attrs : list (string * string)) (itemName : option string) : value :=
  Obj [("ContentItem",
        Obj (("$", Obj (map (fun kv => (kv.1, Str kv.2)) attrs))
             :: match itemName with
                | Some n => [("itemName", Str n)]
                | None => []
                end))].

Definition select (obj : value) : io unit :=
  _ <- post this "/select" (buildObject obj) ;;
  Ret tt.

Definition stationLocation (url name : string) : string :=
  "https://content.api.bose.io/core02/svc-bmx-adapter-orion/prod/orion/station?data="
    +:+ Node.toBase64 (Node.JSON_stringify
                         [("name", name); ("imageUrl", ""); ("streamUrl", url)]).

(** [playUrl(url, name = 'Internet Radio')]. *)
Definition playUrlObj (url : string) (name : option string) : value :=
  let name := default "Internet Radio" name in
  itemObj [("source", "LOCAL_INTERNET_RADIO");
           ("type", "stationurl");
           ("location", stationLocation url name);
           ("sourceAccount", "");
           ("isPresetable", "true")]
          (Some name).

Definition playUrl (url : string) (name : option string) : io unit :=
  select (playUrlObj url name).

Definition spotifyLocation (spotifyUri : string) : string :=
  "/playback/container/" +:+ Node.toBase64 spotifyUri.

Definition playSpotifyObj (spotifyUri sourceAccount : string) : value :=
  itemObj [("source", "SPOTIFY");
           ("type", "tracklisturl");
           ("location", spotifyLocation spotifyUri);
           ("sourceAccount", sourceAccount);
           ("isPresetable", "true")]
          None.

Definition playSpotify (spotifyUri sourceAccount : string) : io unit :=
  select (playSpotifyObj spotifyUri sourceAccount).

Definition playAmazonMusicObj (contentId sourceAccount : string) : value :=
  itemObj [("source", "AMAZON");
           ("type", "tracklist");
           ("location", contentId);
           ("sourceAccount", sourceAccount);
           ("isPresetable", "true")]
          None.

Definition playAmazonMusic (contentId sourceAccount : string) : io unit :=
  select (playAmazonMusicObj contentId sourceAccount).

Definition playDeezerObj (contentId sourceAccount : string) : value :=
  itemObj [("source", "DEEZER");
           ("location", contentId);
           ("sourceAccount", sourceAccount);
           ("isPresetable", "true")]
          None.

Definition playDeezer (contentId sourceAccount : string) : io unit :=
  select (playDeezerObj contentId sourceAccount).

(** [playStoredMusic(location, sourceAccount, name = 'NAS')]. *)
Definition playStoredMusicObj (location sourceAccount : string) (name : option string)
    : value :=
  itemObj [("source", "STORED_MUSIC");
           ("location", location);
           ("sourceAccount", sourceAccount);
           ("isPresetable", "true")]
          (Some (default "NAS" name)).

Definition playStoredMusic (location sourceAccount : string) (name : option string)
    : io unit :=
  select (playStoredMusicObj location sourceAccount name).

Definition tuneInLocation (stationId : string) : string :=
  "/v1/playback/station/" +:+ stationId.

Definition playTuneInObj (stationId : string) : value :=
  itemObj [("source", "TUNEIN");
           ("location", tuneInLocation stationId);
           ("sourceAccount", "");
           ("isPresetable", "true")]
          None.

Definition playTuneIn (stationId : string) : io unit :=
  select (playTuneInObj stationId).

(** ** Zones *)

Definition zoneMemberOf (m : value) : res ZoneMember :=
  a <-r Js.get m "$"; v_ip <-r Js.get a "ipaddress";
  v_mac <-r Js.get m "_";
  ok {| ipaddress := v_ip; macaddress := v_mac; role := Undefined |}.

Definition decodeZone (result : value) : res (option Zone) :=
  z <-r Js.get result "zone";
  if negb (truthy z) then ok None
  else
    a <-r Js.get z "$";
    if negb (truthy a) then ok None
    else
      m <-r Js.get z "member";
      memberList <-r (if truthy m then mapM zoneMemberOf (as_array m) else ok []);
      a1 <-r Js.get z "$"; v_master <-r Js.get a1 "master";
      a2 <-r Js.get z "$"; v_ip <-r Js.get a2 "senderIPAddress";
      a3 <-r Js.get z "$"; v_mac <-r Js.get a3 "senderMACAddress";
      ok (Some {| master := v_master;
                  members := memberList;
                  senderIPAddress := v_ip;
                  senderMACAddress := v_mac |}).

Definition getZone : io (option Zone) :=
  result <- get this "/getZone" ;;
  lift (decodeZone result).

(** [slaves.map((s) => ({ $: { ipaddress: s.ipaddress }, _: s.macaddress }))]. *)
Definition memberObj (s : ZoneMember) : value :=
  Obj [("$", Obj [("ipaddress", ipaddress s)]); ("_", macaddress s)].

Definition zoneObj (masterMac : string) (slaves : list ZoneMember) : value :=
  Obj [("zone",
        Obj [("$", Obj [("master", Str masterMac); ("senderIPAddress", Str (host this))]);
             ("member", Arr (map memberObj slaves))])].

Definition createZone (masterMac : string) (slaves : list ZoneMember) : io unit :=
  _ <- post this "/setZone" (buildObject (zoneObj masterMac slaves)) ;;
  Ret tt.

Definition addZoneSlave (masterMac : string) (slaves : list ZoneMember) : io unit :=
  _ <- post this "/addZoneSlave" (buildObject (zoneObj masterMac slaves)) ;;
  Ret tt.

Definition removeZoneSlave (masterMac : string) (slaves : list ZoneMember) : io unit :=
  _ <- post this "/removeZoneSlave" (buildObject (zoneObj masterMac slaves)) ;;
  Ret tt.

(** ** The name *)

Definition decodeName (result : value) : res value :=
  n <-r Js.get result "name";
  if is_string n then ok n else Js.get n "_".

Definition getName : io value :=
  result <- get this "/name" ;;
  lift (decodeName result).

Definition nameXml (name : string) : string := "<name>" +:+ name +:+ "</name>".

Definition setName (name : string) : io unit :=
  _ <- post this "/name" (nameXml name) ;;
  Ret tt.

End Methods.

End ClientCommands.

(* ===================================================================== *)
(** * The platform: src/platform.ts *)
(* ===================================================================== *)

Module Platform.

(** One preset slot of the configuration. *)
Module PresetConfig.
Record t : Type := {
  slot : integral;
  name : string;
  type : string;
  url : option string;
  spotifyUri : option string;
  contentId : option string;
  sourceAccount : option string;
  nasLocation : option string;
  nasServer : option string
}.
End PresetConfig.

(** One device of the configuration.  An entry without [host] is an
    entry whose host is empty: the only reader of such an entry is the
    test [device.host && device.host.trim()], which fails for both. *)
Module DeviceConfig.
Record t : Type := {
  name : option string;
  host : string;
  room : option string;
  deviceIcon : option integral;
  presets : option (list PresetConfig.t)
}.
End DeviceConfig.

Record SoundTouchPlatformConfig : Type := {
  devices : option (list DeviceConfig.t);
  autoDiscover : option bool;
  discoveryTimeout : option Z
}.

(** What [new Accessory(displayName, uuid, category)] holds, with its
    [context.device]. *)
Record PlatformAccessory : Type := {
  displayName : string;
  UUID : string;
  category : integral;
  context_device : DeviceConfig.t
}.

(** [Categories.SPEAKER]. *)
Definition SPEAKER : integral := Fin 26.

(** ** [String.prototype.trim]

    White space and line terminators of ECMAScript, in UTF-8: the ASCII
    ones, U+00A0, U+1680, U+2000 to U+200A, U+2028, U+2029, U+202F,
    U+205F, U+3000 and U+FEFF. *)
Definition ascii_white (c : ascii) : bool :=
  let n := nat_of_ascii c in
  ((9 <=? n) && (n <=? 13))%nat || (n =? 32)%nat.

Definition white2 (c1 c2 : ascii) : bool :=
  (nat_of_ascii c1 =? 194)%nat && (nat_of_ascii c2 =? 160)%nat.

Definition white3 (c1 c2 c3 : ascii) : bool :=
  let a := nat_of_ascii c1 in
  let b := nat_of_ascii c2 in
  let c := nat_of_ascii c3 in
  ((a =? 225) && (b =? 154) && (c =? 128))%nat
  || ((a =? 226) && (b =? 128)
      && (((128 <=? c) && (c <=? 138)) || (c =? 168) || (c =? 169) || (c =? 175)))%nat
  || ((a =? 226) && (b =? 129) && (c =? 159))%nat
  || ((a =? 227) && (b =? 128) && (c =? 128))%nat
  || ((a =? 239) && (b =? 187) && (c =? 191))%nat.

(** [s.trim()] is empty: [s] is white space throughout. *)
Fixpoint blank (s : string) : bool :=
  match s with
  | EmptyString => true
  | String c1 s1 =>
      if ascii_white c1 then blank s1
      else
        match s1 with
        | String c2 s2 =>
            if white2 c1 c2 then blank s2
            else
              match s2 with
              | String c3 s3 => if white3 c1 c2 c3 then blank s3 else false
              | EmptyString => false
              end
        | EmptyString => false
        end
  end.

(** [device.host && device.host.trim()], as a condition. *)
Definition hasHost (device : DeviceConfig.t) : bool :=
  negb (String.eqb (DeviceConfig.host device) "") && negb (blank (DeviceConfig.host device)).

(** ** A [Map] keeps its keys in the order they were first set *)

Fixpoint Map_set {V} (k : string) (v : V) (m : list (string * V)) : list (string * V) :=
  match m with
  | [] => [(k, v)]
  | (k', v') :: m' =>
      if String.eqb k' k then (k, v) :: m' else (k', v') :: Map_set k v m'
  end.

Definition Map_has {V} (k : string) (m : list (string * V)) : bool :=
  bool_decide (is_Some (assoc k m)).

Definition Map_values {V} (m : list (string * V)) : list V := map snd m.

(** ** The platform object *)

(** The accessory handlers are named by the configuration they were
    constructed with; both maps are keyed by host. *)
Record SoundTouchPlatform : Type := {
  config : SoundTouchPlatformConfig;
  accessories : list string;
  soundTouchAccessories : list (string * DeviceConfig.t);
  externalAccessories : list (string * PlatformAccessory);
  published : list PlatformAccessory;
  unregistered : list string;
  discovering : bool
}.

Definition new_SoundTouchPlatform (c : SoundTouchPlatformConfig) : SoundTouchPlatform :=
  {| config := c; accessories := []; soundTouchAccessories := [];
     externalAccessories := []; published := []; unregistered := [];
     discovering := false |}.

(** [configureAccessory]: a cached accessory is remembered, to be removed. *)
Definition configureAccessory (cached : string) (p : SoundTouchPlatform)
    : SoundTouchPlatform :=
  {| config := config p; accessories := accessories p ++ [cached];
     soundTouchAccessories := soundTouchAccessories p;
     externalAccessories := externalAccessories p; published := published p;
     unregistered := unregistered p; discovering := discovering p |}.

Section Hap.
(** [api.hap.uuid.generate]. *)
Context (generate : string -> string).

(** [device.name || `SoundTouch ${device.host}`]. *)
Definition displayNameOf (device : DeviceConfig.t) : string :=
  match DeviceConfig.name device with
  | Some n => if String.eqb n "" then "SoundTouch " +:+ DeviceConfig.host device else n
  | None => "SoundTouch " +:+ DeviceConfig.host device
  end.

(** [device.deviceIcon || Categories.SPEAKER]: zero and NaN are falsy. *)
Definition categoryOf (device : DeviceConfig.t) : integral :=
  match DeviceConfig.deviceIcon device with
  | Some (Fin 0) | Some NaN | None => SPEAKER
  | Some icon => icon
  end.

Definition registerDevice (device : DeviceConfig.t) (p : SoundTouchPlatform)
    : SoundTouchPlatform :=
  let uuid := generate (DeviceConfig.host device) in
  let displayName := displayNameOf device in
  let category := categoryOf device in
  if Map_has (DeviceConfig.host device) (externalAccessories p) then p
  else
    let accessory := {| displayName := displayName; UUID := uuid;
                        category := category; context_device := device |} in
    {| config := config p; accessories := accessories p;
       soundTouchAccessories :=
         Map_set (DeviceConfig.host device) device (soundTouchAccessories p);
       externalAccessories :=
         Map_set (DeviceConfig.host device) accessory (externalAccessories p);
       published := published p ++ [accessory];
       unregistered := unregistered p; discovering := discovering p |}.

(** The configuration an auto-discovered device gets. *)
Definition discoveredConfig (device : Discovery.DiscoveredDevice) : DeviceConfig.t :=
  {| DeviceConfig.name := Some (Discovery.name device);
     DeviceConfig.host := Discovery.host device;
     DeviceConfig.room := None;
     DeviceConfig.deviceIcon := None;
     DeviceConfig.presets := None |}.

(** The first loop of [discoverDevices]. *)
Definition addConfigured (devices : option (list DeviceConfig.t))
    : list (string * DeviceConfig.t) :=
  foldl (fun m device =>
           if hasHost device then Map_set (DeviceConfig.host device) device m else m)
        [] (default [] devices).

(** The loop over what [discoverOnce] resolved to. *)
Definition addDiscovered (discovered : list Discovery.DiscoveredDevice)
    (m : list (string * DeviceConfig.t)) : list (string * DeviceConfig.t) :=
  foldl (fun m device =>
           if Map_has (Discovery.host device) m then m
           else Map_set (Discovery.host device) (discoveredConfig device) m)
        m discovered.

(** [this.config.autoDiscover !== false]. *)
Definition autoDiscovers (c : SoundTouchPlatformConfig) : bool :=
  match autoDiscover c with
  | Some false => false
  | _ => true
  end.

(** [discoverDevices], given the services the browser reports to
    [discoverOnce] before its timeout. *)
Definition discoverDevices (reported : list Discovery.Service.t) (p : SoundTouchPlatform)
    : SoundTouchPlatform :=
  let configuredDevices := addConfigured (devices (config p)) in
  let configuredDevices :=
    if autoDiscovers (config p)
    then addDiscovered (Discovery.discoverOnce reported) configuredDevices
    else configuredDevices in
  let p :=
    {| config := config p; accessories := [];
       soundTouchAccessories := soundTouchAccessories p;
       externalAccessories := externalAccessories p; published := published p;
       unregistered := unregistered p ++ accessories p;
       discovering := autoDiscovers (config p) |} in
  foldl (fun p device => registerDevice device p) p (Map_values configuredDevices).

(** The [onDeviceFound] callback given to [discovery.start]. *)
Definition onDeviceFound (device : Discovery.DiscoveredDevice) (p : SoundTouchPlatform)
    : SoundTouchPlatform :=
  if Map_has (Discovery.host device) (soundTouchAccessories p) then p
  else registerDevice (discoveredConfig device) p.

(** [getDeviceConfig]. *)
Definition getDeviceConfig (host : string) (p : SoundTouchPlatform) : option DeviceConfig.t :=
  match devices (config p) with
  | Some l => find (fun d => String.eqb (DeviceConfig.host d) host) l
  | None => None
  end.

Definition getAccessoryByHost (host : string) (p : SoundTouchPlatform)
    : option DeviceConfig.t :=
  assoc host (soundTouchAccessories p).

Definition getAllAccessories (p : SoundTouchPlatform) : list DeviceConfig.t :=
  Map_values (soundTouchAccessories p).

(** [cleanup]: discovery stops and both maps are cleared. *)
Definition cleanup (p : SoundTouchPlatform) : SoundTouchPlatform :=
  {| config := config p; accessories := accessories p;
     soundTouchAccessories := []; externalAccessories := [];
     published := published p; unregistered := unregistered p;
     discovering := false |}.

End Hap.

End Platform.

(* ===================================================================== *)
(** * The accessory: src/soundtouchAccessory.ts *)
(* ===================================================================== *)

Module Accessory.
Import Client ClientCommands Platform.

(** ** Promises *)

(** [try { await m } catch (error) { ... }]: the outcome of [m], as a
    value. *)
Fixpoint attempt {A} (m : io A) : io (res A) :=
  match m with
  | Ret a => Ret (ok a)
  | Throw e => Ret (throw e)
  | Http r k => Http r (fun o => attempt (k o))
  end.

(** [await Promise.all([a, b])]: both are started whether or not the
    other fails, and the whole fails if either does.  (Which error is
    reported when both fail depends on which answer comes first; the
    only caller drops the error.) *)
Definition all2 {A B} (a : io A) (b : io B) : io (A * B) :=
  ra <- attempt a ;;
  rb <- attempt b ;;
  match ra, rb with
  | inr x, inr y => Ret (x, y)
  | inl e, _ => Throw e
  | _, inl e => Throw e
  end.

(** ** HomeKit *)

Inductive HAPStatus : Type := SERVICE_COMMUNICATION_FAILURE.

(** How a characteristic handler ends. *)
Inductive Completion : Type :=
| Resolved
| HapStatusError (status : HAPStatus).

(** [Characteristic.RemoteKey]. *)
Inductive RemoteKey : Type :=
| REWIND | FAST_FORWARD | NEXT_TRACK | PREVIOUS_TRACK
| ARROW_UP | ARROW_DOWN | ARROW_LEFT | ARROW_RIGHT
| SELECT | BACK | EXIT | PLAY_PAUSE | INFORMATION.

(** [Characteristic.Active.ACTIVE] and [VolumeSelector.INCREMENT]. *)
Definition ACTIVE : Z := 1.
Definition INCREMENT : Z := 0.

Definition of_integral (n : integral) : number :=
  match n with
  | Fin z => Fin (inject_Z z)
  | NaN => NaN
  | PosInf => PosInf
  | NegInf => NegInf
  end.

(** ** The object *)

Record SoundTouchAccessory : Type := {
  deviceConfig : DeviceConfig.t;
  accessoryName : string;
  webSocket : EventStream.World;
  listening : bool;
  deviceInfo : option DeviceInfo;
  currentVolume : number;
  currentMute : bool;
  isPoweredOn : bool;
  currentInputIndex : Z;
  devicePresets : list Preset;
  (** the characteristics the object keeps up to date *)
  Model : value;
  SerialNumber : value;
  Active : bool;
  Volume : number;
  Mute : bool;
  ConfiguredName : list (Z * value)
}.

Definition client (a : SoundTouchAccessory) : SoundTouchClient :=
  new_SoundTouchClient (DeviceConfig.host (deviceConfig a)) None None.

(** Field assignments. *)
Definition set_webSocket (v : EventStream.World) (a : SoundTouchAccessory)
    : SoundTouchAccessory :=
  {| deviceConfig := deviceConfig a; accessoryName := accessoryName a; webSocket := v;
     listening := listening a; deviceInfo := deviceInfo a;
     currentVolume := currentVolume a; currentMute := currentMute a;
     isPoweredOn := isPoweredOn a; currentInputIndex := currentInputIndex a;
     devicePresets := devicePresets a; Model := Model a;
     SerialNumber := SerialNumber a; Active := Active a; Volume := Volume a;
     Mute := Mute a; ConfiguredName := ConfiguredName a |}.

Definition set_listening (v : bool) (a : SoundTouchAccessory)
    : SoundTouchAccessory :=
  {| deviceConfig := deviceConfig a; accessoryName := accessoryName a;
     webSocket := webSocket a; listening := v; deviceInfo := deviceInfo a;
     currentVolume := currentVolume a; currentMute := currentMute a;
     isPoweredOn := isPoweredOn a; currentInputIndex := currentInputIndex a;
     devicePresets := devicePresets a; Model := Model a;
     SerialNumber := SerialNumber a; Active := Active a; Volume := Volume a;
     Mute := Mute a; ConfiguredName := ConfiguredName a |}.

Definition set_deviceInfo (v : option DeviceInfo) (a : SoundTouchAccessory)
    : SoundTouchAccessory :=
  {| deviceConfig := deviceConfig a; accessoryName := accessoryName a;
     webSocket := webSocket a; listening := listening a; deviceInfo := v;
     currentVolume := currentVolume a; currentMute := currentMute a;
     isPoweredOn := isPoweredOn a; currentInputIndex := currentInputIndex a;
     devicePresets := devicePresets a; Model := Model a;
     SerialNumber := SerialNumber a; Active := Active a; Volume := Volume a;
     Mute := Mute a; ConfiguredName := ConfiguredName a |}.

Definition set_currentVolume (v : number) (a : SoundTouchAccessory)
    : SoundTouchAccessory :=
  {| deviceConfig := deviceConfig a; accessoryName := accessoryName a;
     webSocket := webSocket a; listening := listening a; deviceInfo := deviceInfo a;
     currentVolume := v; currentMute := currentMute a; isPoweredOn := isPoweredOn a;
     currentInputIndex := currentInputIndex a; devicePresets := devicePresets a;
     Model := Model a; SerialNumber := SerialNumber a; Active := Active a;
     Volume := Volume a; Mute := Mute a; ConfiguredName := ConfiguredName a |}.

Definition set_currentMute (v : bool) (a : SoundTouchAccessory)
    : SoundTouchAccessory :=
  {| deviceConfig := deviceConfig a; accessoryName := accessoryName a;
     webSocket := webSocket a; listening := listening a; deviceInfo := deviceInfo a;
     currentVolume := currentVolume a; currentMute := v; isPoweredOn := isPoweredOn a;
     currentInputIndex := currentInputIndex a; devicePresets := devicePresets a;
     Model := Model a; SerialNumber := SerialNumber a; Active := Active a;
     Volume := Volume a; Mute := Mute a; ConfiguredName := ConfiguredName a |}.

Definition set_isPoweredOn (v : bool) (a : SoundTouchAccessory)
    : SoundTouchAccessory :=
  {| deviceConfig := deviceConfig a; accessoryName := accessoryName a;
     webSocket := webSocket a; listening := listening a; deviceInfo := deviceInfo a;
     currentVolume := currentVolume a; currentMute := currentMute a; isPoweredOn := v;
     currentInputIndex := currentInputIndex a; devicePresets := devicePresets a;
     Model := Model a; SerialNumber := SerialNumber a; Active := Active a;
     Volume := Volume a; Mute := Mute a; ConfiguredName := ConfiguredName a |}.

Definition set_currentInputIndex (v : Z) (a : SoundTouchAccessory)
    : SoundTouchAccessory :=
  {| deviceConfig := deviceConfig a; accessoryName := accessoryName a;
     webSocket := webSocket a; listening := listening a; deviceInfo := deviceInfo a;
     currentVolume := currentVolume a; currentMute := currentMute a;
     isPoweredOn := isPoweredOn a; currentInputIndex := v;
     devicePresets := devicePresets a; Model := Model a;
     SerialNumber := SerialNumber a; Active := Active a; Volume := Volume a;
     Mute := Mute a; ConfiguredName := ConfiguredName a |}.

Definition set_devicePresets (v : list Preset) (a : SoundTouchAccessory)
    : SoundTouchAccessory :=
  {| deviceConfig := deviceConfig a; accessoryName := accessoryName a;
     webSocket := webSocket a; listening := listening a; deviceInfo := deviceInfo a;
     currentVolume := currentVolume a; currentMute := currentMute a;
     isPoweredOn := isPoweredOn a; currentInputIndex := currentInputIndex a;
     devicePresets := v; Model := Model a; SerialNumber := SerialNumber a;
     Active := Active a; Volume := Volume a; Mute := Mute a;
     ConfiguredName := ConfiguredName a |}.

Definition set_ConfiguredName (v : list (Z * value)) (a : SoundTouchAccessory)
    : SoundTouchAccessory :=
  {| deviceConfig := deviceConfig a; accessoryName := accessoryName a;
     webSocket := webSocket a; listening := listening a; deviceInfo := deviceInfo a;
     currentVolume := currentVolume a; currentMute := currentMute a;
     isPoweredOn := isPoweredOn a; currentInputIndex := currentInputIndex a;
     devicePresets := devicePresets a; Model := Model a;
     SerialNumber := SerialNumber a; Active := Active a; Volume := Volume a;
     Mute := Mute a; ConfiguredName := v |}.

(** [setCharacteristic(Model, type)] and [setCharacteristic(SerialNumber,
    serial)] on the accessory information service. *)
Definition setAccessoryInformation (model serial : value) (a : SoundTouchAccessory)
    : SoundTouchAccessory :=
  {| deviceConfig := deviceConfig a; accessoryName := accessoryName a;
     webSocket := webSocket a; listening := listening a; deviceInfo := deviceInfo a;
     currentVolume := currentVolume a; currentMute := currentMute a;
     isPoweredOn := isPoweredOn a; currentInputIndex := currentInputIndex a;
     devicePresets := devicePresets a; Model := model; SerialNumber := serial;
     Active := Active a; Volume := Volume a; Mute := Mute a;
     ConfiguredName := ConfiguredName a |}.

(** [updatePowerState] and [updateVolumeCharacteristics]. *)
Definition updatePowerState (a : SoundTouchAccessory) : SoundTouchAccessory :=
  {| deviceConfig := deviceConfig a; accessoryName := accessoryName a;
     webSocket := webSocket a; listening := listening a; deviceInfo := deviceInfo a;
     currentVolume := currentVolume a; currentMute := currentMute a;
     isPoweredOn := isPoweredOn a; currentInputIndex := currentInputIndex a;
     devicePresets := devicePresets a; Model := Model a;
     SerialNumber := SerialNumber a; Active := isPoweredOn a; Volume := Volume a;
     Mute := Mute a; ConfiguredName := ConfiguredName a |}.

Definition updateVolumeCharacteristics (a : SoundTouchAccessory) : SoundTouchAccessory :=
  {| deviceConfig := deviceConfig a; accessoryName := accessoryName a;
     webSocket := webSocket a; listening := listening a; deviceInfo := deviceInfo a;
     currentVolume := currentVolume a; currentMute := currentMute a;
     isPoweredOn := isPoweredOn a; currentInputIndex := currentInputIndex a;
     devicePresets := devicePresets a; Model := Model a;
     SerialNumber := SerialNumber a; Active := Active a; Volume := currentVolume a;
     Mute := currentMute a; ConfiguredName := ConfiguredName a |}.

(** ** Input sources *)

(** [this.deviceConfig.presets?.find(p => p.slot === i)]. *)
Definition configPresetFor (config : DeviceConfig.t) (i : Z) : option PresetConfig.t :=
  match DeviceConfig.presets config with
  | Some l =>
      find (fun p => match PresetConfig.slot p with
                     | Fin z => (z =? i)%Z
                     | _ => false
                     end) l
  | None => None
  end.

(** [`Preset ${i}`]. *)
Definition defaultName (i : Z) : string := "Preset " +:+ pretty i.

(** [configPreset?.name || `Preset ${i}`]. *)
Definition initialName (config : DeviceConfig.t) (i : Z) : string :=
  match configPresetFor config i with
  | Some p =>
      if String.eqb (PresetConfig.name p) "" then defaultName i else PresetConfig.name p
  | None => defaultName i
  end.

(** The input services [setupInputSources] adds, by identifier. *)
Definition setupInputSources (config : DeviceConfig.t) : list (Z * value) :=
  map (fun i => (i, Str (initialName config i))) [1; 2; 3; 4; 5; 6]
    ++ [(7, Str "AUX"); (8, Str "Bluetooth")].

(** [this.devicePresets.find(p => p.id === i)]. *)
Definition devicePresetFor (presets : list Preset) (i : Z) : option Preset :=
  find (fun p => match id p with
                 | Fin z => (z =? i)%Z
                 | _ => false
                 end) presets.

(** The name [updateInputSourceNames] gives slot [i]. *)
Definition presetNameFor (config : DeviceConfig.t) (presets : list Preset) (i : Z) : value :=
  match configPresetFor config i with
  | Some p => Str (PresetConfig.name p)
  | None =>
      match devicePresetFor presets i with
      | Some d => if truthy (name (contentItem d)) then name (contentItem d)
                  else Str (defaultName i)
      | None => Str (defaultName i)
      end
  end.

(** [inputService.updateCharacteristic(ConfiguredName, presetName)] on
    the first service whose identifier is [i], if there is one. *)
Fixpoint rename (i : Z) (n : value) (services : list (Z * value)) : list (Z * value) :=
  match services with
  | [] => []
  | (j, old) :: rest => if (j =? i)%Z then (j, n) :: rest else (j, old) :: rename i n rest
  end.

Definition updateInputSourceNames (a : SoundTouchAccessory) : SoundTouchAccessory :=
  set_ConfiguredName
    (foldl (fun services i =>
              rename i (presetNameFor (deviceConfig a) (devicePresets a) i) services)
           (ConfiguredName a) [1; 2; 3; 4; 5; 6])
    a.

(** ** The constructor, up to the call of [initialize]

    Of the HomeKit services the constructor builds, the values the
    object writes later are kept: the model and serial number, the three
    characteristics of power and volume, and the names of the inputs.
    The serial number starts from [accessory.context.device?.deviceID ||
    'Unknown'], and a device configuration has no [deviceID]. *)
Definition new_SoundTouchAccessory (displayName : string) (config : DeviceConfig.t)
    : SoundTouchAccessory :=
  {| deviceConfig := config;
     accessoryName := displayName;
     webSocket := EventStream.init (DeviceConfig.host config) None;
     listening := false;
     deviceInfo := None;
     currentVolume := Fin 0%Q;
     currentMute := false;
     isPoweredOn := false;
     currentInputIndex := 0;
     devicePresets := [];
     Model := Str "SoundTouch";
     SerialNumber := Str "Unknown";
     Active := false;
     Volume := Fin 0%Q;
     Mute := false;
     ConfiguredName := setupInputSources config |}.

Section Handlers.
Context `{Xml2js}.

(** ** The speaker service *)

Definition Volume_onSet (volume : number) (a : SoundTouchAccessory)
    : io SoundTouchAccessory :=
  r <- attempt (setVolume (client a) volume) ;;
  match r with
  | inr _ => Ret (set_currentVolume volume a)
  | inl _ => Ret a
  end.

Definition Mute_onSet (mute : bool) (a : SoundTouchAccessory) : io SoundTouchAccessory :=
  r <- attempt (setMute (client a) mute) ;;
  match r with
  | inr _ => Ret (set_currentMute mute a)
  | inl _ => Ret a
  end.

Definition VolumeSelector_onSet (value : Z) (a : SoundTouchAccessory)
    : io SoundTouchAccessory :=
  _ <- attempt (if (value =? INCREMENT)%Z then volumeUp (client a)
                else volumeDown (client a)) ;;
  Ret a.

(** ** Configured presets *)

Definition playConfiguredPreset (config : PresetConfig.t) (a : SoundTouchAccessory)
    : io unit :=
  let type := PresetConfig.type config in
  let slot := PresetConfig.slot config in
  let name := PresetConfig.name config in
  if String.eqb type "radio" then
    if given (PresetConfig.url config)
    then playUrl (client a) (orEmpty (PresetConfig.url config)) (Some name)
    else Ret tt
  else if String.eqb type "spotify" then
    if given (PresetConfig.spotifyUri config) && given (PresetConfig.sourceAccount config)
    then
      _ <- playSpotify (client a) (orEmpty (PresetConfig.spotifyUri config))
                       (orEmpty (PresetConfig.sourceAccount config)) ;;
      storePreset (client a) slot
        {| item_source := "SPOTIFY";
           item_location := orEmpty (PresetConfig.spotifyUri config);
           item_sourceAccount := PresetConfig.sourceAccount config;
           item_name := Some name |}
    else Ret tt
  else if String.eqb type "amazon" then
    if given (PresetConfig.contentId config) && given (PresetConfig.sourceAccount config)
    then
      _ <- playAmazonMusic (client a) (orEmpty (PresetConfig.contentId config))
                           (orEmpty (PresetConfig.sourceAccount config)) ;;
      storePreset (client a) slot
        {| item_source := "AMAZON";
           item_location := orEmpty (PresetConfig.contentId config);
           item_sourceAccount := PresetConfig.sourceAccount config;
           item_name := Some name |}
    else Ret tt
  else if String.eqb type "deezer" then
    if given (PresetConfig.contentId config) && given (PresetConfig.sourceAccount config)
    then
      _ <- playDeezer (client a) (orEmpty (PresetConfig.contentId config))
                      (orEmpty (PresetConfig.sourceAccount config)) ;;
      storePreset (client a) slot
        {| item_source := "DEEZER";
           item_location := orEmpty (PresetConfig.contentId config);
           item_sourceAccount := PresetConfig.sourceAccount config;
           item_name := Some name |}
    else Ret tt
  else if String.eqb type "tunein" then
    if given (PresetConfig.contentId config)
    then
      _ <- playTuneIn (client a) (orEmpty (PresetConfig.contentId config)) ;;
      storePreset (client a) slot
        {| item_source := "TUNEIN";
           item_location := "/v1/playback/station/"
                              +:+ orEmpty (PresetConfig.contentId config);
           item_sourceAccount := None;
           item_name := Some name |}
    else Ret tt
  else if String.eqb type "nas" then
    if given (PresetConfig.nasLocation config) && given (PresetConfig.nasServer config)
    then
      _ <- playStoredMusic (client a) (orEmpty (PresetConfig.nasLocation config))
                           (orEmpty (PresetConfig.nasServer config)) (Some name) ;;
      storePreset (client a) slot
        {| item_source := "STORED_MUSIC";
           item_location := orEmpty (PresetConfig.nasLocation config);
           item_sourceAccount := PresetConfig.nasServer config;
           item_name := Some name |}
    else Ret tt
  else Ret tt.

(** ** The television service *)

(** The body of the [try] in [setActiveInput]. *)
Definition selectInput (index : Z) (a : SoundTouchAccessory) : io unit :=
  if (1 <=? index)%Z && (index <=? 6)%Z then
    match configPresetFor (deviceConfig a) index with
    | Some configPreset => playConfiguredPreset configPreset a
    | None => selectPreset (client a) (Fin index)
    end
  else if (index =? 7)%Z then selectAux (client a)
  else if (index =? 8)%Z then selectBluetooth (client a)
  else Ret tt.

Definition setActiveInput (index : Z) (a : SoundTouchAccessory)
    : io (SoundTouchAccessory * Completion) :=
  let a := set_currentInputIndex index a in
  r <- attempt (selectInput index a) ;;
  match r with
  | inr _ =>
      Ret (if negb (isPoweredOn a) then updatePowerState (set_isPoweredOn true a) else a,
           Resolved)
  | inl _ => Ret (a, HapStatusError SERVICE_COMMUNICATION_FAILURE)
  end.

Definition remoteKeyAction (key : RemoteKey) (a : SoundTouchAccessory) : io unit :=
  match key with
  | PLAY_PAUSE => playPause (client a)
  | ARROW_UP => volumeUp (client a)
  | ARROW_DOWN => volumeDown (client a)
  | ARROW_LEFT => previousTrack (client a)
  | ARROW_RIGHT => nextTrack (client a)
  | SELECT => playPause (client a)
  | BACK => power (client a)
  | INFORMATION => mute (client a)
  | REWIND | FAST_FORWARD | NEXT_TRACK | PREVIOUS_TRACK | EXIT => Ret tt
  end.

Definition handleRemoteKey (key : RemoteKey) (a : SoundTouchAccessory)
    : io SoundTouchAccessory :=
  _ <- attempt (remoteKeyAction key a) ;;
  Ret a.

Definition getPowerState (a : SoundTouchAccessory) : Z :=
  if isPoweredOn a then ACTIVE else 0.

Definition setPowerState (value : Z) (a : SoundTouchAccessory)
    : io (SoundTouchAccessory * Completion) :=
  let shouldBeOn := (value =? ACTIVE)%Z in
  if shouldBeOn && negb (isPoweredOn a) then
    r <- attempt (powerOn (client a)) ;;
    match r with
    | inr _ => Ret (set_isPoweredOn true a, Resolved)
    | inl _ => Ret (a, HapStatusError SERVICE_COMMUNICATION_FAILURE)
    end
  else if negb shouldBeOn && isPoweredOn a then
    r <- attempt (powerOff (client a)) ;;
    match r with
    | inr _ => Ret (set_isPoweredOn false a, Resolved)
    | inl _ => Ret (a, HapStatusError SERVICE_COMMUNICATION_FAILURE)
    end
  else Ret (a, Resolved).

(** ** State from the speaker *)

Definition refreshState (a : SoundTouchAccessory) : io SoundTouchAccessory :=
  r <- attempt (all2 (getVolume (client a)) (getNowPlaying (client a))) ;;
  match r with
  | inr (volume, nowPlaying) =>
      let a := set_currentVolume (of_integral (actualvolume volume)) a in
      let a := set_currentMute (muteenabled volume) a in
      let a := set_isPoweredOn (negb (is_literal "STANDBY" (np_source nowPlaying))) a in
      let a := updatePowerState a in
      Ret (updateVolumeCharacteristics a)
  | inl _ => Ret a
  end.

(** The listeners [setupWebSocket] registers. *)
Definition on_emitted (ev : EventStream.Emitted) (a : SoundTouchAccessory)
    : SoundTouchAccessory :=
  match ev with
  | EventStream.volumeUpdated data =>
      let a := set_currentVolume (of_integral (EventStream.actualvolume data)) a in
      let a := set_currentMute (EventStream.muteenabled data) a in
      updateVolumeCharacteristics a
  | EventStream.nowPlayingUpdated data =>
      let a := set_isPoweredOn (negb (is_literal "STANDBY" (EventStream.source data))) a in
      updatePowerState a
  | _ => a
  end.

(** [setupWebSocket]: the listeners, then [connect()]. *)
Definition setupWebSocket (ctor : option exn) (a : SoundTouchAccessory)
    : SoundTouchAccessory :=
  let a := set_listening true a in
  set_webSocket (EventStream.connect ctor (webSocket a)) a.

(** What the runtime delivers to the stream reaches the listeners. *)
Definition deliver (ev : EventStream.Event) (a : SoundTouchAccessory)
    : SoundTouchAccessory :=
  let w := EventStream.step (webSocket a) ev in
  let news := drop (length (EventStream.emitted (webSocket a))) (EventStream.emitted w) in
  let a := set_webSocket w a in
  if listening a then foldl (fun a ev => on_emitted ev a) a news else a.

(** [initialize], with what the socket constructor does if it comes
    to be called.  Any failure outside [refreshState] ends it. *)
Definition initialize (ctor : option exn) (a : SoundTouchAccessory)
    : io SoundTouchAccessory :=
  r <- attempt (getInfo (client a)) ;;
  match r with
  | inl _ => Ret a
  | inr info =>
      let a := set_deviceInfo (Some info) a in
      let a := setAccessoryInformation (info_type info) (info_deviceID info) a in
      a <- refreshState a ;;
      r <- attempt (getPresets (client a)) ;;
      match r with
      | inl _ => Ret a
      | inr presets =>
          let a := set_devicePresets presets a in
          let a := updateInputSourceNames a in
          Ret (setupWebSocket ctor a)
      end
  end.

Definition destroy (a : SoundTouchAccessory) : SoundTouchAccessory :=
  set_webSocket (EventStream.disconnect (webSocket a)) a.

End Handlers.

End Accessory.

(* ===================================================================== *)
(** * The settings page's server: homebridge-ui/server.js *)
(* ===================================================================== *)

Module UiServer.
Import Client.

(** What [/discover] lists for one speaker. *)
Record UiDevice : Type := {
  host : string;
  name : value;
  deviceID : value;
  type : value
}.

(** What [getDeviceInfo] resolves to. *)
Record UiInfo : Type := {
  info_name : value;
  info_deviceID : value;
  info_type : value
}.

(** [addr.includes('.')]. *)
Fixpoint includes_dot (addr : string) : bool :=
  match addr with
  | EmptyString => false
  | String c rest => Ascii.eqb c "." || includes_dot rest
  end.

(** [v || d]. *)
Definition orElse (v d : value) : value := if truthy v then v else d.

(** [service.addresses?.find(addr => addr.includes('.')) || service.host]. *)
Definition hostFor (service : Discovery.Service.t) : string :=
  match Discovery.Service.addresses service with
  | Some addresses =>
      match find includes_dot addresses with
      | Some addr => addr
      | None => Discovery.Service.host service
      end
  | None => Discovery.Service.host service
  end.

(** [service.name || 'SoundTouch']. *)
Definition nameFor (service : Discovery.Service.t) : string :=
  if String.eqb (Discovery.Service.name service) "" then "SoundTouch"
  else Discovery.Service.name service.

Section Requests.
Context `{Xml2js}.

Definition decodeDeviceInfo (result : value) : res UiInfo :=
  info <-r Js.get result "info";
  v_name <-r Js.get info "name";
  a <-r Js.get info "$"; v_deviceID <-r Js.get a "deviceID";
  v_type <-r Js.get info "type";
  ok {| info_name := orElse v_name (Str "SoundTouch");
        info_deviceID := orElse v_deviceID (Str "");
        info_type := orElse v_type (Str "SoundTouch") |}.

(** How [getDeviceInfo] settles, by how its request ends.  The status
    of the answer is not looked at. *)
Definition getDeviceInfo (o : Outcome) : res UiInfo :=
  match o with
  | Responded _ data => result <-r parseString data; decodeDeviceInfo result
  | Failed e => throw e
  | TimedOut => throw (Error "Timeout")
  end.

(** The ['up'] handler of [discoverDevices]: the entry it pushes, given
    how the request to the speaker ends. *)
Definition onUp (service : Discovery.Service.t) (o : Outcome) : UiDevice :=
  let host := hostFor service in
  let name := nameFor service in
  match getDeviceInfo o with
  | inr info =>
      {| host := host;
         name := orElse (info_name info) (Str name);
         deviceID := orElse (info_deviceID info) (Str "");
         type := orElse (info_type info) (Str "SoundTouch") |}
  | inl _ =>
      {| host := host; name := Str name; deviceID := Str ""; type := Str "SoundTouch" |}
  end.

(** [discoverDevices]: what is resolved after the ten seconds, given
    the services that came up and how the request to each ended, in the
    order the handlers finished. *)
Definition discoverDevices (ups : list (Discovery.Service.t * Outcome)) : list UiDevice :=
  map (fun up => onUp up.1 up.2) ups.

End Requests.

End UiServer.

(* ===================================================================== *)
(** * A reference XML codec *)
(* ===================================================================== *)

(** An executable instance of [Xml2js] for plain documents: elements,
    attributes, text and the five named entities.  It follows the
    conventions the program relies on (attributes under [$], text under
    [_], a lone child as a value and repeated children as an array, white
    space between elements ignored, an empty element read as the empty
    string).  The general statements below hold for every instance; this
    one runs the program on concrete documents. *)
Module RefXml2js.

Inductive node : Type :=
| Text (s : string)
| Element (tag : string) (attrs : list (string * string)) (children : list node).

(** ** Writing *)

(** The characters that cannot stand for themselves; the quote only
    inside an attribute value. *)
Definition escape_char (quot : bool) (c : ascii) : string :=
  let n := nat_of_ascii c in
  if (n =? 38)%nat then "&amp;"
  else if (n =? 60)%nat then "&lt;"
  else if (n =? 62)%nat then "&gt;"
  else if (n =? 34)%nat && quot then "&quot;"
  else String c EmptyString.

Fixpoint escape (quot : bool) (s : string) : string :=
  match s with
  | EmptyString => EmptyString
  | String c rest => escape_char quot c +:+ escape quot rest
  end.

Definition print_attr (a : string * string) : string :=
  " " +:+ a.1 +:+ "=" +:+ dq +:+ escape true a.2 +:+ dq.

Fixpoint print (n : node) : string :=
  match n with
  | Text s => escape false s
  | Element tag attrs children =>
      let inner := String.concat "" (map print children) in
      "<" +:+ tag +:+ String.concat "" (map print_attr attrs) +:+
      (if String.eqb inner "" then "/>"
       else ">" +:+ inner +:+ "</" +:+ tag +:+ ">")
  end.

Definition attr_text (v : value) : string :=
  match v with Str s => s | _ => ToString v end.

(** The builder's walk over an object: [$] gives the attributes, [_]
    text, an array one element per item, anything else a child. *)
Fixpoint render (tag : string) (v : value) : node :=
  match v with
  | Obj fields =>
      Element tag
        (flat_map (fun kv => match kv with
                             | (k, Obj attrs) =>
                                 if String.eqb k "$"
                                 then map (fun a => (a.1, attr_text a.2)) attrs
                                 else []
                             | _ => []
                             end) fields)
        (flat_map (fun kv => match kv with
                             | (k, c) =>
                                 if String.eqb k "$" then []
                                 else if String.eqb k "_" then [Text (attr_text c)]
                                 else match c with
                                      | Arr items => map (render k) items
                                      | _ => [render k c]
                                      end
                             end) fields)
  | Str s => Element tag [] (if String.eqb s "" then [] else [Text s])
  | _ => Element tag [] []
  end.

Definition build (root : value) : string :=
  match root with
  | Obj [(tag, v)] => print (render tag v)
  | _ => print (render "root" root)
  end.

(** ** Reading *)

Definition is_name_char (c : ascii) : bool :=
  let n := nat_of_ascii c in
  ((48 <=? n) && (n <=? 58) || (65 <=? n) && (n <=? 90) || (97 <=? n) && (n <=? 122)
   || (n =? 95) || (n =? 45) || (n =? 46))%nat.

Fixpoint strip_prefix (p s : string) : option string :=
  match p, s with
  | EmptyString, _ => Some s
  | String a p', String b s' => if Ascii.eqb a b then strip_prefix p' s' else None
  | String _ _, EmptyString => None
  end.

Fixpoint read_name (s : string) : string * string :=
  match s with
  | String c rest =>
      if is_name_char c
      then let '(n, r) := read_name rest in (String c n, r)
      else (EmptyString, s)
  | EmptyString => (EmptyString, EmptyString)
  end.

(** The text before the first [stop], and what follows it. *)
Fixpoint read_until (stop : ascii) (s : string) : option (string * string) :=
  match s with
  | String c rest =>
      if Ascii.eqb c stop then Some (EmptyString, rest)
      else match read_until stop rest with
           | Some (t, r) => Some (String c t, r)
           | None => None
           end
  | EmptyString => None
  end.

(** The text before the next tag, and the rest from its [<] on. *)
Fixpoint read_text (s : string) : string * string :=
  match s with
  | String c rest =>
      if (nat_of_ascii c =? 60)%nat then (EmptyString, s)
      else let '(t, r) := read_text rest in (String c t, r)
  | EmptyString => (EmptyString, EmptyString)
  end.

Fixpoint skip_to_pi_end (s : string) : option string :=
  match s with
  | String c rest =>
      match strip_prefix "?>" s with
      | Some r => Some r
      | None => skip_to_pi_end rest
      end
  | EmptyString => None
  end.

(** The character an entity stands for, and the length of its name
    with the closing semicolon, read just after the ampersand. *)
Definition entity (s : string) : option (ascii * nat) :=
  if bool_decide (is_Some (strip_prefix "amp;" s)) then Some ("&"%char, 4%nat)
  else if bool_decide (is_Some (strip_prefix "lt;" s)) then Some ("<"%char, 3%nat)
  else if bool_decide (is_Some (strip_prefix "gt;" s)) then Some (">"%char, 3%nat)
  else if bool_decide (is_Some (strip_prefix "quot;" s)) then Some (ascii_of_nat 34, 5%nat)
  else if bool_decide (is_Some (strip_prefix "apos;" s)) then Some ("'"%char, 5%nat)
  else None.

(** Entities replaced; [skip] characters of an entity are still to pass. *)
Fixpoint unescape_from (skip : nat) (s : string) : option string :=
  match s with
  | EmptyString => match skip with O => Some EmptyString | S _ => None end
  | String c rest =>
      match skip with
      | S k => unescape_from k rest
      | O =>
          if (nat_of_ascii c =? 38)%nat then
            match entity rest with
            | Some (ch, len) => String ch <$> unescape_from len rest
            | None => None
            end
          else String c <$> unescape_from 0 rest
      end
  end.

Definition unescape (s : string) : option string := unescape_from 0 s.

Fixpoint all_space (s : string) : bool :=
  match s with
  | EmptyString => true
  | String c rest => is_space c && all_space rest
  end.

(** The attributes of a start tag, up to its [>] or [/>]; the flag says
    the tag closed itself. *)
Fixpoint read_attrs (fuel : nat) (s : string)
    : option (list (string * string) * bool * string) :=
  match fuel with
  | O => None
  | S fuel =>
      let s := skip_spaces s in
      match strip_prefix "/>" s, strip_prefix ">" s with
      | Some rest, _ => Some ([], true, rest)
      | None, Some rest => Some ([], false, rest)
      | None, None =>
          let '(k, s1) := read_name s in
          if String.eqb k "" then None
          else
            match strip_prefix "=" (skip_spaces s1) with
            | Some s2 =>
                match skip_spaces s2 with
                | String q s3 =>
                    if (nat_of_ascii q =? 34)%nat || (nat_of_ascii q =? 39)%nat then
                      match read_until q s3 with
                      | Some (raw, s4) =>
                          match unescape raw, read_attrs fuel s4 with
                          | Some v, Some (more, closed, rest) =>
                              Some ((k, v) :: more, closed, rest)
                          | _, _ => None
                          end
                      | None => None
                      end
                    else None
                | EmptyString => None
                end
            | None => None
            end
      end
  end.

(** An element being read: its tag, attributes, and the children seen
    so far, latest first. *)
Definition frame : Type := string * list (string * string) * list node.

(** Hand a finished node to the element around it, or make it the root. *)
Definition attach (n : node) (stack : list frame) (root : option node)
    : option (list frame * option node) :=
  match stack with
  | (tag, attrs, kids) :: below => Some ((tag, attrs, n :: kids) :: below, root)
  | [] =>
      match root with
      | None => Some ([], Some n)
      | Some _ => None
      end
  end.

Fixpoint read_document (fuel : nat) (stack : list frame) (root : option node)
    (s : string) : option node :=
  match fuel with
  | O => None
  | S fuel =>
      match s with
      | EmptyString =>
          match stack with
          | [] => root
          | _ :: _ => None
          end
      | String _ _ =>
          match strip_prefix "<?" s with
          | Some s1 =>
              match skip_to_pi_end s1 with
              | Some s2 => read_document fuel stack root s2
              | None => None
              end
          | None =>
          match strip_prefix "</" s with
          | Some s1 =>
              let '(k, s2) := read_name s1 in
              match strip_prefix ">" (skip_spaces s2), stack with
              | Some s3, (tag, attrs, kids) :: below =>
                  if String.eqb k tag then
                    match attach (Element tag attrs (rev kids)) below root with
                    | Some (stack', root') => read_document fuel stack' root' s3
                    | None => None
                    end
                  else None
              | _, _ => None
              end
          | None =>
          match strip_prefix "<" s with
          | Some s1 =>
              let '(k, s2) := read_name s1 in
              if String.eqb k "" then None
              else
                match read_attrs (S (String.length s2)) s2 with
                | Some (attrs, true, s3) =>
                    match attach (Element k attrs []) stack root with
                    | Some (stack', root') => read_document fuel stack' root' s3
                    | None => None
                    end
                | Some (attrs, false, s3) =>
                    match stack, root with
                    | [], Some _ => None
                    | _, _ => read_document fuel ((k, attrs, []) :: stack) root s3
                    end
                | None => None
                end
          | None =>
              let '(raw, s1) := read_text s in
              match stack with
              | [] => if all_space raw then read_document fuel stack root s1 else None
              | _ :: _ =>
                  match unescape raw with
                  | Some t =>
                      match attach (Text t) stack root with
                      | Some (stack', root') => read_document fuel stack' root' s1
                      | None => None
                      end
                  | None => None
                  end
              end
          end end end
      end
  end.

Definition tag_of (n : node) : option string :=
  match n with Element tag _ _ => Some tag | Text _ => None end.

Definition text_of (n : node) : string :=
  match n with Text s => s | Element _ _ _ => EmptyString end.

(** A child joins the fields: the first of its name as a value, a
    second one turns the value into an array, later ones are pushed. *)
Fixpoint add_child (k : string) (v : value) (fields : list (string * value))
    : list (string * value) :=
  match fields with
  | [] => [(k, v)]
  | (k', v') :: rest =>
      if String.eqb k k'
      then (k', match v' with Arr items => Arr (items ++ [v]) | _ => Arr [v'; v] end) :: rest
      else (k', v') :: add_child k v rest
  end.

(** The value an element is read as. *)
Fixpoint value_of (n : node) : value :=
  match n with
  | Text s => Str s
  | Element _ attrs children =>
      let text := String.concat "" (map text_of children) in
      let kids :=
        foldl (fun fields c =>
                 match c with
                 | (Some k, v) => add_child k v fields
                 | (None, _) => fields
                 end)
              [] (map (fun c => (tag_of c, value_of c)) children) in
      let fields :=
        (if bool_decide (attrs = []) then []
         else [("$", Obj (map (fun a => (a.1, Str a.2)) attrs))])
        ++ (if all_space text then [] else [("_", Str text)])
        ++ kids in
      match fields with
      | [] => Str EmptyString
      | [(k, Str t)] => if String.eqb k "_" then Str t else Obj fields
      | _ => Obj fields
      end
  end.

Definition parse (s : string) : res value :=
  if all_space s then ok Null
  else
    match read_document (S (String.length s)) [] None s with
    | Some (Element tag attrs children) =>
        ok (Obj [(tag, value_of (Element tag attrs children))])
    | _ => throw (XmlError "document is not well-formed")
    end.

Definition codec : Xml2js :=
  {| parseString := parse; buildObject := build |}.

End RefXml2js.

(* ===================================================================== *)
(** * The reference codec on [playContent] documents *)
(* ===================================================================== *)

Module RefXml2jsFacts.
Import RefXml2js.

(** ** Strings *)

Lemma app_cons (x : ascii) (a b : string) : String x a +:+ b = String x (a +:+ b).
Proof. reflexivity. Qed.

Lemma app_nil_l (b : string) : "" +:+ b = b.
Proof. reflexivity. Qed.

Lemma append_assoc (a b c : string) : (a +:+ b) +:+ c = a +:+ (b +:+ c).
Proof.
  induction a as [| x a IH]; [reflexivity |].
  rewrite !app_cons, IH. reflexivity.
Qed.

Lemma append_nil_r (a : string) : a +:+ "" = a.
Proof.
  induction a as [| x a IH]; [reflexivity |]. rewrite app_cons, IH. reflexivity.
Qed.

(** ** Escaping *)

Definition quote : ascii := ascii_of_nat 34.

(** The five shapes an escaped character takes. *)
Lemma escape_char_cases (quot : bool) (c : ascii) :
  (escape_char quot c = "&amp;" /\ c = "&"%char)
  \/ (escape_char quot c = "&lt;" /\ c = "<"%char)
  \/ (escape_char quot c = "&gt;" /\ c = ">"%char)
  \/ (escape_char quot c = "&quot;" /\ c = quote /\ quot = true)
  \/ (escape_char quot c = String c "" /\ nat_of_ascii c <> 38%nat
      /\ nat_of_ascii c <> 60%nat /\ (quot = true -> nat_of_ascii c <> 34%nat)).
Proof.
  unfold escape_char.
  destruct (Nat.eqb_spec (nat_of_ascii c) 38) as [E | N1].
  { left. split; [reflexivity |]. rewrite <- (ascii_nat_embedding c), E. reflexivity. }
  destruct (Nat.eqb_spec (nat_of_ascii c) 60) as [E | N2].
  { right; left. split; [reflexivity |]. rewrite <- (ascii_nat_embedding c), E. reflexivity. }
  destruct (Nat.eqb_spec (nat_of_ascii c) 62) as [E | N3].
  { right; right; left. split; [reflexivity |].
    rewrite <- (ascii_nat_embedding c), E. reflexivity. }
  destruct (Nat.eqb_spec (nat_of_ascii c) 34) as [E | N4]; simpl.
  - destruct quot.
    + right; right; right; left. split; [reflexivity |]. split; [| reflexivity].
      rewrite <- (ascii_nat_embedding c), E. reflexivity.
    + right; right; right; right. repeat split; try assumption. discriminate.
  - right; right; right; right. repeat split; try assumption. intros _. exact N4.
Qed.

Lemma read_until_escape_char (c : ascii) (s : string) :
  read_until quote (escape_char true c +:+ s)
  = (fun p => (escape_char true c +:+ p.1, p.2)) <$> read_until quote s.
Proof.
  destruct (escape_char_cases true c) as
    [[-> _] | [[-> _] | [[-> _] | [[-> _] | (-> & _ & _ & Hq)]]]];
    try (rewrite !app_cons, app_nil_l; simpl; destruct (read_until quote s) as [[t r] |]; reflexivity).
  rewrite !app_cons, app_nil_l.
  simpl. destruct (Ascii.eqb_spec c quote) as [-> | _].
  - exfalso. apply (Hq eq_refl). reflexivity.
  - destruct (read_until quote s) as [[t r] |]; reflexivity.
Qed.

Lemma read_until_escape (v rest : string) :
  read_until quote (escape true v +:+ String quote rest) = Some (escape true v, rest).
Proof.
  induction v as [| c v IH].
  - reflexivity.
  - cbn [escape]. rewrite append_assoc, read_until_escape_char, IH. reflexivity.
Qed.

Lemma unescape_escape_char (quot : bool) (c : ascii) (s : string) :
  unescape_from 0 (escape_char quot c +:+ s) = String c <$> unescape_from 0 s.
Proof.
  destruct (escape_char_cases quot c) as
    [[-> ->] | [[-> ->] | [[-> ->] | [(-> & -> & _) | (-> & N & _)]]]];
    rewrite !app_cons, app_nil_l; try reflexivity.
  simpl. destruct (Nat.eqb_spec (nat_of_ascii c) 38); [contradiction | reflexivity].
Qed.

Lemma unescape_escape (quot : bool) (v : string) : unescape (escape quot v) = Some v.
Proof.
  unfold unescape. induction v as [| c v IH]; [reflexivity |].
  cbn [escape]. rewrite unescape_escape_char, IH. reflexivity.
Qed.

Lemma read_text_escape_char (quot : bool) (c : ascii) (s : string) :
  read_text (escape_char quot c +:+ s)
  = (escape_char quot c +:+ (read_text s).1, (read_text s).2).
Proof.
  destruct (escape_char_cases quot c) as
    [[-> _] | [[-> _] | [[-> _] | [(-> & _) | (-> & _ & N & _)]]]];
    rewrite !app_cons, app_nil_l; try (simpl; destruct (read_text s); reflexivity).
  simpl. destruct (Nat.eqb_spec (nat_of_ascii c) 60); [contradiction |].
  destruct (read_text s); reflexivity.
Qed.

Lemma read_text_escape (quot : bool) (v rest : string) :
  read_text (escape quot v +:+ String "<" rest) = (escape quot v, String "<" rest).
Proof.
  induction v as [| c v IH]; [reflexivity |].
  cbn [escape]. rewrite append_assoc, read_text_escape_char, IH. reflexivity.
Qed.

(** ** Attributes *)

(** A name the reader takes whole and does not mistake for the end of a tag. *)
Definition plain_name (k : string) : Prop :=
  (forall r, read_name (k +:+ String "=" r) = (k, String "=" r))
  /\ (forall r, skip_spaces (k +:+ r) = k +:+ r)
  /\ (forall r, strip_prefix "/>" (k +:+ r) = None)
  /\ (forall r, strip_prefix ">" (k +:+ r) = None)
  /\ String.eqb k "" = false.

Lemma read_attrs_eq (fuel : nat) (s : string) :
  read_attrs (S fuel) s =
    let s := skip_spaces s in
    match strip_prefix "/>" s, strip_prefix ">" s with
    | Some rest, _ => Some ([], true, rest)
    | None, Some rest => Some ([], false, rest)
    | None, None =>
        let '(k, s1) := read_name s in
        if String.eqb k "" then None
        else
          match strip_prefix "=" (skip_spaces s1) with
          | Some s2 =>
              match skip_spaces s2 with
              | String q s3 =>
                  if (nat_of_ascii q =? 34)%nat || (nat_of_ascii q =? 39)%nat then
                    match read_until q s3 with
                    | Some (raw, s4) =>
                        match unescape raw, read_attrs fuel s4 with
                        | Some v, Some (more, closed, rest) =>
                            Some ((k, v) :: more, closed, rest)
                        | _, _ => None
                        end
                    | None => None
                    end
                  else None
              | EmptyString => None
              end
          | None => None
          end
    end.
Proof. reflexivity. Qed.

Lemma read_attrs_attr (fuel : nat) (k v rest : string) :
  plain_name k ->
  read_attrs (S fuel) (print_attr (k, v) +:+ rest)
  = match read_attrs fuel rest with
    | Some (more, closed, r) => Some ((k, v) :: more, closed, r)
    | None => None
    end.
Proof.
  intros (Hname & Hskip & Hc1 & Hc2 & Hne).
  unfold print_attr. cbn [fst snd].
  rewrite !append_assoc, app_cons, app_nil_l.
  rewrite read_attrs_eq. cbn zeta.
  change (skip_spaces (String " " ?x)) with (skip_spaces x).
  rewrite !Hskip.
  rewrite Hc1, Hc2.
  change ("=" +:+ dq +:+ escape true v +:+ dq +:+ rest)
    with (String "=" (String quote (escape true v +:+ String quote rest))).
  rewrite Hname, Hne.
  change (skip_spaces (String "=" ?x)) with (String "=" x).
  cbn [strip_prefix Ascii.eqb Bool.eqb]. 
  change (skip_spaces (String quote ?x)) with (String quote x).
  change ((nat_of_ascii quote =? 34)%nat || (nat_of_ascii quote =? 39)%nat) with true.
  cbv iota. rewrite read_until_escape, unescape_escape. reflexivity.
Qed.

Lemma read_attrs_open (fuel : nat) (rest : string) :
  read_attrs (S fuel) (String ">" rest) = Some ([], false, rest).
Proof. reflexivity. Qed.

Lemma read_attrs_closed (fuel : nat) (rest : string) :
  read_attrs (S fuel) (String "/" (String ">" rest)) = Some ([], true, rest).
Proof. reflexivity. Qed.

(** ** Documents *)

(** A tag name: taken whole before a space, a [>] or a [/], and not the
    start of a processing instruction or of an end tag. *)
Definition tag_name (k : string) : Prop :=
  (forall c r, is_name_char c = false -> read_name (k +:+ String c r) = (k, String c r))
  /\ (forall r, strip_prefix "?" (k +:+ r) = None)
  /\ (forall r, strip_prefix "/" (k +:+ r) = None)
  /\ String.eqb k "" = false.

Lemma read_document_eq (fuel : nat) (stack : list frame) (root : option node)
    (c0 : ascii) (s0 : string) :
  read_document (S fuel) stack root (String c0 s0) =
    let s := String c0 s0 in
    match strip_prefix "<?" s with
    | Some s1 =>
        match skip_to_pi_end s1 with
        | Some s2 => read_document fuel stack root s2
        | None => None
        end
    | None =>
    match strip_prefix "</" s with
    | Some s1 =>
        let '(k, s2) := read_name s1 in
        match strip_prefix ">" (skip_spaces s2), stack with
        | Some s3, (tag, attrs, kids) :: below =>
            if String.eqb k tag then
              match attach (Element tag attrs (rev kids)) below root with
              | Some (stack', root') => read_document fuel stack' root' s3
              | None => None
              end
            else None
        | _, _ => None
        end
    | None =>
    match strip_prefix "<" s with
    | Some s1 =>
        let '(k, s2) := read_name s1 in
        if String.eqb k "" then None
        else
          match read_attrs (S (String.length s2)) s2 with
          | Some (attrs, true, s3) =>
              match attach (Element k attrs []) stack root with
              | Some (stack', root') => read_document fuel stack' root' s3
              | None => None
              end
          | Some (attrs, false, s3) =>
              match stack, root with
              | [], Some _ => None
              | _, _ => read_document fuel ((k, attrs, []) :: stack) root s3
              end
          | None => None
          end
    | None =>
        let '(raw, s1) := read_text s in
        match stack with
        | [] => if all_space raw then read_document fuel stack root s1 else None
        | _ :: _ =>
            match unescape raw with
            | Some t =>
                match attach (Text t) stack root with
                | Some (stack', root') => read_document fuel stack' root' s1
                | None => None
                end
            | None => None
            end
        end
    end end end.
Proof. reflexivity. Qed.

Lemma strip_lt (p x : string) :
  strip_prefix (String "<" p) (String "<" x) = strip_prefix p x.
Proof. reflexivity. Qed.

Lemma strip_nil (x : string) : strip_prefix "" x = Some x.
Proof. destruct x; reflexivity. Qed.

(** Reading a start tag. *)
Lemma read_document_start (fuel : nat) (stack : list frame) (root : option node)
    (k : string) (c : ascii) (s2 s3 : string) (attrs : list (string * string)) :
  tag_name k ->
  is_name_char c = false ->
  read_attrs (S (String.length (String c s2))) (String c s2) = Some (attrs, false, s3) ->
  (stack = [] -> root = None) ->
  read_document (S fuel) stack root (String "<" (k +:+ String c s2))
  = read_document fuel ((k, attrs, []) :: stack) root s3.
Proof.
  intros (Hname & Hpi & Hend & Hne) Hc Hattrs Hroot.
  rewrite read_document_eq. cbv zeta.
  rewrite !strip_lt, Hpi, Hend, strip_nil.
  rewrite (Hname c s2 Hc), Hne, Hattrs.
  destruct stack as [| f below]; [rewrite (Hroot eq_refl) |]; reflexivity.
Qed.

(** Reading the start tag of an element that closes itself. *)
Lemma read_document_empty (fuel : nat) (stack : list frame) (root : option node)
    (k : string) (c : ascii) (s2 s3 : string) (attrs : list (string * string)) :
  tag_name k ->
  is_name_char c = false ->
  read_attrs (S (String.length (String c s2))) (String c s2) = Some (attrs, true, s3) ->
  read_document (S fuel) stack root (String "<" (k +:+ String c s2))
  = match attach (Element k attrs []) stack root with
    | Some (stack', root') => read_document fuel stack' root' s3
    | None => None
    end.
Proof.
  intros (Hname & Hpi & Hend & Hne) Hc Hattrs.
  rewrite read_document_eq. cbv zeta.
  rewrite !strip_lt, Hpi, Hend, strip_nil.
  rewrite (Hname c s2 Hc), Hne, Hattrs. reflexivity.
Qed.

(** Reading an end tag. *)
Lemma read_document_end (fuel : nat) (below : list frame) (root : option node)
    (tag : string) (attrs : list (string * string)) (kids : list node) (s3 : string) :
  tag_name tag ->
  read_document (S fuel) ((tag, attrs, kids) :: below) root
    (String "<" (String "/" (tag +:+ String ">" s3)))
  = match attach (Element tag attrs (rev kids)) below root with
    | Some (stack', root') => read_document fuel stack' root' s3
    | None => None
    end.
Proof.
  intros (Hname & _ & _ & _).
  rewrite read_document_eq. cbv zeta.
  change (strip_prefix "<?" (String "<" (String "/" ?x))) with (@None string).
  change (strip_prefix "</" (String "<" (String "/" ?x))) with (Some x).
  cbv iota. rewrite (Hname ">"%char s3 eq_refl).
  change (skip_spaces (String ">" s3)) with (String ">" s3).
  change (strip_prefix ">" (String ">" s3)) with (strip_prefix "" s3).
  rewrite strip_nil, String.eqb_refl. reflexivity.
Qed.

(** Reading text inside an element. *)
Lemma read_document_text (fuel : nat) (f : frame) (below : list frame)
    (root : option node) (v rest : string) :
  v <> "" ->
  read_document (S fuel) (f :: below) root (escape false v +:+ String "<" rest)
  = match attach (Text v) (f :: below) root with
    | Some (stack', root') => read_document fuel stack' root' (String "<" rest)
    | None => None
    end.
Proof.
  intros Hv.
  assert (Hfirst : exists c0 s0,
             escape false v +:+ String "<" rest = String c0 s0
             /\ nat_of_ascii c0 <> 60%nat).
  { destruct v as [| c v]; [contradiction |]. cbn [escape]. rewrite append_assoc.
    destruct (escape_char_cases false c) as
      [[-> _] | [[-> _] | [[-> _] | [(_ & _ & Hq) | (-> & _ & N & _)]]]];
      try discriminate; rewrite ?app_cons; eexists _, _; (split; [reflexivity |]);
      try exact N; intros E; vm_compute in E; discriminate E. }
  destruct Hfirst as (c0 & s0 & Heq & Hc0).
  pose proof (read_text_escape false v rest) as Htext.
  rewrite Heq in *. rewrite read_document_eq. cbv zeta.
  assert (Hno : forall p, strip_prefix (String "<" p) (String c0 s0) = None).
  { intros p. cbn [strip_prefix].
    destruct (Ascii.eqb_spec "<" c0) as [<- | _]; [| reflexivity].
    exfalso. apply Hc0. reflexivity. }
  rewrite !Hno, Htext, unescape_escape. reflexivity.
Qed.

(** The end of the document. *)
Lemma read_document_done (fuel : nat) (root : option node) :
  read_document (S fuel) [] root "" = root.
Proof. reflexivity. Qed.

Lemma escape_not_empty (quot : bool) (v : string) : v <> "" -> escape quot v <> "".
Proof.
  destruct v as [| c v]; [contradiction |]. intros _. cbn [escape].
  destruct (escape_char_cases quot c) as
    [[-> _] | [[-> _] | [[-> _] | [(-> & _) | (-> & _)]]]]; discriminate.
Qed.

Lemma tag_name_ContentItem : tag_name "ContentItem".
Proof.
  repeat split; try reflexivity.
  intros c r Hc. rewrite !app_cons, app_nil_l. cbn. rewrite Hc. reflexivity.
Qed.

Lemma tag_name_itemName : tag_name "itemName".
Proof.
  repeat split; try reflexivity.
  intros c r Hc. rewrite !app_cons, app_nil_l. cbn. rewrite Hc. reflexivity.
Qed.

Ltac plain := repeat split; intros; reflexivity.

Lemma plain_source : plain_name "source". Proof. plain. Qed.
Lemma plain_location : plain_name "location". Proof. plain. Qed.
Lemma plain_sourceAccount : plain_name "sourceAccount". Proof. plain. Qed.
Lemma plain_isPresetable : plain_name "isPresetable". Proof. plain. Qed.


Lemma length_append (a b : string) :
  String.length (a +:+ b) = (String.length a + String.length b)%nat.
Proof.
  induction a as [| x a IH]; [reflexivity |].
  rewrite app_cons. cbn [String.length]. rewrite IH. reflexivity.
Qed.

Lemma print_attr_long (k v rest : string) :
  exists s2, print_attr (k, v) +:+ rest = String " " s2
             /\ (4 <= String.length (String " " s2))%nat.
Proof.
  unfold print_attr. cbn [fst snd].
  rewrite !append_assoc, !app_cons, !app_nil_l.
  eexists. split; [reflexivity |].
  unfold dq. repeat progress (cbn [String.length]; rewrite ?length_append). lia.
Qed.

(** The document [playContent] sends for a named item. *)
Definition named_children (nm : string) : string :=
  String "<" ("itemName" +:+ String ">"
    (escape false nm +:+
     String "<" (String "/" ("itemName" +:+ String ">"
       (String "<" (String "/" ("ContentItem" +:+ String ">" ""))))))).

Definition named_document (src loc account nm : string) : string :=
  "<" +:+ "ContentItem" +:+
  (print_attr ("source", src) +:+ print_attr ("location", loc) +:+
   print_attr ("sourceAccount", account) +:+ print_attr ("isPresetable", "true") +:+
   String ">" (named_children nm)).

Lemma build_named (src loc account nm : string) :
  nm <> "" -> build (Client.contentObj src loc account nm) = named_document src loc account nm.
Proof.
  intros Hnm. unfold build, Client.contentObj, named_document, named_children.
  assert (Ht : String.eqb nm "" = false) by (destruct nm; [contradiction | reflexivity]).
  cbn [truthy]. rewrite Ht.
  cbn [negb render flat_map map app String.eqb Ascii.eqb Bool.eqb fst snd attr_text].
  cbn [print map String.concat].
  assert (He : String.eqb (escape false nm) "" = false).
  { apply String.eqb_neq, escape_not_empty, Hnm. }
  rewrite ?Ht. cbn [print map String.concat].
  rewrite He. rewrite !app_nil_l.
  change (String.eqb ("<" +:+ ?x) "") with false. cbv iota.
  rewrite !append_assoc, !app_cons, !app_nil_l. 
  reflexivity.
Qed.

Lemma read_attrs_four (fuel : nat) (k1 v1 k2 v2 k3 v3 k4 v4 tail : string) :
  plain_name k1 -> plain_name k2 -> plain_name k3 -> plain_name k4 ->
  (4 <= fuel)%nat ->
  (forall n, read_attrs (S n) tail = read_attrs 1 tail) ->
  read_attrs (S fuel)
    (print_attr (k1, v1) +:+ print_attr (k2, v2) +:+ print_attr (k3, v3) +:+
     print_attr (k4, v4) +:+ tail)
  = match read_attrs 1 tail with
    | Some (more, closed, r) =>
        Some ((k1, v1) :: (k2, v2) :: (k3, v3) :: (k4, v4) :: more, closed, r)
    | None => None
    end.
Proof.
  intros H1 H2 H3 H4 Hfuel Htail.
  do 4 (destruct fuel as [| fuel]; [lia |]).
  rewrite (read_attrs_attr _ k1 v1 _ H1), (read_attrs_attr _ k2 v2 _ H2),
    (read_attrs_attr _ k3 v3 _ H3), (read_attrs_attr _ k4 v4 _ H4), Htail.
  destruct (read_attrs 1 tail) as [[[more closed] r] |]; reflexivity.
Qed.

Definition contentAttrs (src loc account : string) : list (string * string) :=
  [("source", src); ("location", loc); ("sourceAccount", account); ("isPresetable", "true")].

Lemma read_named (src loc account nm : string) (n : nat) :
  nm <> "" ->
  read_document (6 + n) [] None (named_document src loc account nm)
  = Some (Element "ContentItem" (contentAttrs src loc account)
            [Element "itemName" [] [Text nm]]).
Proof.
  intros Hnm. unfold named_document. rewrite app_cons, app_nil_l.
  destruct (print_attr_long "source" src
              (print_attr ("location", loc) +:+ print_attr ("sourceAccount", account) +:+
               print_attr ("isPresetable", "true") +:+ String ">" (named_children nm)))
    as (s2 & Hs2 & Hlen).
  rewrite Hs2.
  change (6 + n)%nat with (S (5 + n)).
  rewrite (read_document_start _ [] None "ContentItem" " " s2 (named_children nm)
             (contentAttrs src loc account) tag_name_ContentItem eq_refl).
  2: { rewrite <- Hs2.
       rewrite (read_attrs_four _ "source" src "location" loc
                  "sourceAccount" account "isPresetable" "true" _
                  plain_source plain_location plain_sourceAccount plain_isPresetable).
       - reflexivity.
       - rewrite Hs2. lia.
       - intros m. reflexivity. }
  2: { reflexivity. }
  unfold named_children.
  change (5 + n)%nat with (S (4 + n)).
  rewrite (read_document_start _ _ None "itemName" ">" _ _ [] tag_name_itemName eq_refl
             (read_attrs_open _ _)).
  2: { discriminate. }
  change (4 + n)%nat with (S (3 + n)).
  rewrite (read_document_text _ _ _ _ nm _ Hnm). cbn [attach].
  change (3 + n)%nat with (S (2 + n)).
  rewrite (read_document_end _ _ _ "itemName" _ _ _ tag_name_itemName). cbn [attach rev app].
  change (2 + n)%nat with (S (1 + n)).
  rewrite (read_document_end _ _ _ "ContentItem" _ _ _ tag_name_ContentItem).
  cbn [attach rev app].
  reflexivity.
Qed.

Lemma all_space_not_empty (nm : string) : all_space nm = false -> nm <> "".
Proof. intros Hs ->. discriminate. Qed.

Lemma parse_named (src loc account nm : string) :
  all_space nm = false ->
  parse (named_document src loc account nm)
  = ok (Obj [("ContentItem",
              Obj [("$", Obj [("source", Str src); ("location", Str loc);
                              ("sourceAccount", Str account);
                              ("isPresetable", Str "true")]);
                   ("itemName", Str nm)])]).
Proof.
  intros Hspace. pose proof (all_space_not_empty nm Hspace) as Hnm.
  unfold parse.
  assert (Hdoc : all_space (named_document src loc account nm) = false) by reflexivity.
  rewrite Hdoc.
  assert (Hlen : exists n, S (String.length (named_document src loc account nm))
                           = (6 + n)%nat).
  { unfold named_document. rewrite !length_append. cbn [String.length].
    eexists. reflexivity. }
  destruct Hlen as [n ->]. rewrite (read_named src loc account nm n Hnm).
  cbn [value_of contentAttrs map text_of tag_of String.concat foldl add_child
       bool_decide decide_rel fst snd app].
  change (all_space "") with true. cbv iota.
  rewrite Hspace. cbn [app]. reflexivity.
Qed.

(** The document [playContent] sends for an item without a name. *)
Definition unnamed_document (src loc account : string) : string :=
  "<" +:+ "ContentItem" +:+
  (print_attr ("source", src) +:+ print_attr ("location", loc) +:+
   print_attr ("sourceAccount", account) +:+ print_attr ("isPresetable", "true") +:+
   String "/" (String ">" "")).

Lemma build_unnamed (src loc account : string) :
  build (Client.contentObj src loc account "") = unnamed_document src loc account.
Proof.
  unfold build, Client.contentObj, unnamed_document.
  cbn [truthy negb render flat_map map app String.eqb Ascii.eqb Bool.eqb fst snd attr_text].
  cbn [print map String.concat].
  rewrite !app_nil_l, !append_assoc. reflexivity.
Qed.

Lemma parse_unnamed (src loc account : string) :
  parse (unnamed_document src loc account)
  = ok (Obj [("ContentItem",
              Obj [("$", Obj [("source", Str src); ("location", Str loc);
                              ("sourceAccount", Str account);
                              ("isPresetable", Str "true")])])]).
Proof.
  unfold parse.
  assert (Hdoc : all_space (unnamed_document src loc account) = false) by reflexivity.
  rewrite Hdoc.
  assert (Hlen : exists n, S (String.length (unnamed_document src loc account))
                           = (2 + n)%nat).
  { unfold unnamed_document. rewrite !length_append. cbn [String.length].
    eexists. reflexivity. }
  destruct Hlen as [n ->].
  unfold unnamed_document. rewrite app_cons, app_nil_l.
  destruct (print_attr_long "source" src
              (print_attr ("location", loc) +:+ print_attr ("sourceAccount", account) +:+
               print_attr ("isPresetable", "true") +:+ String "/" (String ">" "")))
    as (s2 & Hs2 & Hlen).
  rewrite Hs2.
  change (2 + n)%nat with (S (1 + n)).
  rewrite (read_document_empty _ [] None "ContentItem" " " s2 ""
             (contentAttrs src loc account) tag_name_ContentItem eq_refl).
  2: { rewrite <- Hs2.
       rewrite (read_attrs_four _ "source" src "location" loc
                  "sourceAccount" account "isPresetable" "true" _
                  plain_source plain_location plain_sourceAccount plain_isPresetable).
       - reflexivity.
       - rewrite Hs2. lia.
       - intros m. reflexivity. }
  reflexivity.
Qed.

(** The reference codec hands back the object [playContent] builds, for
    every source, location and account, and every name that is empty or
    not all white space. *)
Theorem codec_returns_contentObj (src loc account nm : string) :
  nm = "" \/ all_space nm = false ->
  parse (build (Client.contentObj src loc account nm))
  = ok (Client.contentObj src loc account nm).
Proof.
  intros [-> | Hspace].
  - rewrite build_unnamed, parse_unnamed. reflexivity.
  - pose proof (all_space_not_empty nm Hspace) as Hnm.
    rewrite (build_named src loc account nm Hnm), (parse_named src loc account nm Hspace).
    unfold Client.contentObj. cbn [truthy].
    destruct (String.eqb_spec nm ""); [contradiction | reflexivity].
Qed.

End RefXml2jsFacts.

(* ===================================================================== *)
(** * Properties of the JavaScript primitives *)
(* ===================================================================== *)

Module JsFacts.

(** ** Printing an integer and reading it back *)

(** [Number.isSafeInteger]: the integers that are doubles with no
    other integer rounding to them.  These are printed with all their
    digits, which is what [Number_toString] does. *)
Definition safe_integer (z : Z) : Prop := - 2 ^ 53 < z < 2 ^ 53.

Lemma digit_of_pretty_N_char (d : N) :
  (d < 10)%N -> digit_of (pretty_N_char d) = Some (Z.of_N d).
Proof.
  intros Hd.
  assert (d = 0 \/ d = 1 \/ d = 2 \/ d = 3 \/ d = 4 \/ d = 5 \/ d = 6 \/ d = 7
          \/ d = 8 \/ d = 9)%N as Hcases by lia.
  repeat (destruct Hcases as [-> | Hcases]; [reflexivity |]). subst d. reflexivity.
Qed.

Lemma read_digits_pretty_N_go (x : N) (s : string) (acc : option Z) :
  default 0 acc = 0 -> (0 < x)%N ->
  read_digits acc (pretty_N_go x s) = read_digits (Some (Z.of_N x)) s.
Proof.
  intros Hacc. revert s. induction (N.lt_wf_0 x) as [x _ IH]. intros s Hx.
  rewrite pretty_N_go_step by exact Hx.
  assert (Hmod : (x `mod` 10 < 10)%N) by (apply N.mod_lt; lia).
  assert (Hsplit : Z.of_N x = 10 * Z.of_N (x `div` 10) + Z.of_N (x `mod` 10)).
  { rewrite (N.div_mod x 10) at 1 by lia. lia. }
  destruct (N.eq_dec (x `div` 10)%N 0%N) as [Hzero | Hpos].
  - rewrite Hzero, pretty_N_go_0. cbn [read_digits].
    rewrite (digit_of_pretty_N_char _ Hmod), Hacc, Hsplit, Hzero. reflexivity.
  - rewrite IH; [| apply N.div_lt; lia | lia]. cbn [read_digits].
    rewrite (digit_of_pretty_N_char _ Hmod), Hsplit. reflexivity.
Qed.

(** A positive number is printed with a digit in front. *)
Lemma pretty_N_go_head (x : N) (s : string) :
  (0 < x)%N ->
  exists (d : N) (rest : string),
    (d < 10)%N /\ pretty_N_go x s = String (pretty_N_char d) rest.
Proof.
  revert s. induction (N.lt_wf_0 x) as [x _ IH]. intros s Hx.
  rewrite pretty_N_go_step by exact Hx.
  destruct (N.eq_dec (x `div` 10)%N 0%N) as [Hzero | Hpos].
  - rewrite Hzero, pretty_N_go_0. exists (x `mod` 10)%N, s.
    split; [apply N.mod_lt; lia | reflexivity].
  - apply IH; [apply N.div_lt; lia | apply N.neq_0_lt_0; exact Hpos].
Qed.

Lemma pretty_N_char_plain (d : N) :
  (d < 10)%N ->
  is_space (pretty_N_char d) = false
  /\ pretty_N_char d <> "-"%char /\ pretty_N_char d <> "+"%char
  /\ pretty_N_char d <> ":"%char.
Proof.
  intros Hd.
  assert (d = 0 \/ d = 1 \/ d = 2 \/ d = 3 \/ d = 4 \/ d = 5 \/ d = 6 \/ d = 7
          \/ d = 8 \/ d = 9)%N as Hcases by lia.
  repeat (destruct Hcases as [-> | Hcases]; [repeat split; discriminate |]).
  subst d. repeat split; discriminate.
Qed.

Lemma parseInt_pretty_positive (p : positive) :
  read_digits None (pretty (Z.pos p)) = Some (Z.pos p)
  /\ exists (d : N) (rest : string),
       (d < 10)%N /\ pretty (Z.pos p) = String (pretty_N_char d) rest.
Proof.
  change (pretty (Z.pos p)) with (pretty_N_go (N.pos p) "").
  split.
  - rewrite read_digits_pretty_N_go; [reflexivity | reflexivity | lia].
  - apply pretty_N_go_head. lia.
Qed.

(** [parseInt(String(n), 10) === n] for every integer. *)
Lemma parseInt_Number_toString (z : Z) : parseInt (Str (Number_toString (Fin z))) = Fin z.
Proof.
  cbn [Number_toString]. destruct z as [| p | p].
  - reflexivity.
  - destruct (parseInt_pretty_positive p) as (Hread & d & rest & Hd & Hhead).
    unfold parseInt. cbn [ToString].
    destruct (pretty_N_char_plain d Hd) as (Hspace & Hminus & Hplus & _).
    assert (Hskip : skip_spaces (pretty (Z.pos p)) = pretty (Z.pos p)).
    { rewrite Hhead. cbn [skip_spaces]. rewrite Hspace. reflexivity. }
    rewrite Hskip.
    assert (Hsign : (match pretty (Z.pos p) with
                     | String "-" s' => (true, s')
                     | String "+" s' => (false, s')
                     | _ => (false, pretty (Z.pos p))
                     end) = (false, pretty (Z.pos p))).
    { rewrite Hhead. destruct (pretty_N_char d) as [[] [] [] [] [] [] [] []];
        try reflexivity; congruence. }
    rewrite Hsign, Hread. reflexivity.
  - destruct (parseInt_pretty_positive p) as (Hread & _).
    unfold parseInt. cbn [ToString].
    change (pretty (Z.neg p)) with ("-" +:+ pretty (Z.pos p)).
    change ("-" +:+ pretty (Z.pos p)) with (String "-" (pretty (Z.pos p))).
    cbn [skip_spaces]. change (is_space "-") with false. cbv iota.
    rewrite Hread. reflexivity.
Qed.

End JsFacts.

(* ===================================================================== *)
(** * Properties of the client *)
(* ===================================================================== *)

Module ClientFacts.
Import Client.

(** ** Running requests *)

Section Running.
Context `{Xml2js} (this : SoundTouchClient).
Context {S : Type} (device : S -> Request -> Outcome * S).

Lemma exec_bind {A B} (m : io A) (f : A -> io B) (s : S) :
  exec device (bind m f) s =
    match exec device m s with
    | (inl e, tr, s1) => (inl e, tr, s1)
    | (inr a, tr, s1) =>
        let '(b, tr2, s2) := exec device (f a) s1 in (b, tr ++ tr2, s2)
    end.
Proof.
  revert s. induction m as [a | e | r k IH]; intros s; simpl.
  - destruct (exec device (f a) s) as [[b tr2] s2]. reflexivity.
  - reflexivity.
  - destruct (device s r) as [o s1]. rewrite IH.
    destruct (exec device (k o) s1) as [[[e | a] tr] s2]; [reflexivity |].
    destruct (exec device (f a) s2) as [[b tr2] s3]. reflexivity.
Qed.

(** A request resolves on a 2xx answer and rejects otherwise. *)
Definition resolves (o : Outcome) : res string :=
  match o with
  | Responded statusCode data =>
      if status_ok statusCode then ok data
      else throw (Error ("HTTP " +:+ pretty statusCode +:+ ": " +:+ data))
  | Failed e => throw e
  | TimedOut => throw (Error "Request timeout")
  end.

Lemma exec_request method path body s :
  exec device (request this method path body) s =
    (resolves (device s (options this method path body)).1,
     [options this method path body],
     (device s (options this method path body)).2).
Proof.
  unfold request. simpl.
  destruct (device s (options this method path body)) as [o s1]. simpl.
  destruct o as [c d | e |]; simpl; [destruct (status_ok c) |..]; reflexivity.
Qed.

(** What [get] and [post] make of the outcome of their one request. *)
Definition parsed (o : Outcome) : res value :=
  xml <-r resolves o; parseString xml.

Lemma parsed_2xx (statusCode : Z) (data : string) :
  200 <= statusCode < 300 -> parsed (Responded statusCode data) = parseString data.
Proof.
  intros Hstatus. unfold parsed, resolves, status_ok.
  replace (statusCode =? 0) with false by (symmetry; apply Z.eqb_neq; lia).
  replace (200 <=? statusCode) with true by (symmetry; apply Z.leb_le; lia).
  replace (statusCode <? 300) with true by (symmetry; apply Z.ltb_lt; lia).
  reflexivity.
Qed.

Lemma exec_post path body s :
  exec device (post this path body) s =
    (parsed (device s (options this POST path (Some body))).1,
     [options this POST path (Some body)],
     (device s (options this POST path (Some body))).2).
Proof.
  unfold post. rewrite exec_bind, exec_request. unfold parsed.
  destruct (resolves _) as [e | xml]; simpl; [reflexivity |].
  destruct (parseString xml); reflexivity.
Qed.

Lemma exec_get path s :
  exec device (get this path) s =
    (parsed (device s (options this GET path None)).1,
     [options this GET path None],
     (device s (options this GET path None)).2).
Proof.
  unfold get. rewrite exec_bind, exec_request. unfold parsed.
  destruct (resolves _) as [e | xml]; simpl; [reflexivity |].
  destruct (parseString xml); reflexivity.
Qed.

Lemma exec_lift {A} (m : res A) s : exec device (lift m) s = (m, [], s).
Proof. destruct m; reflexivity. Qed.

End Running.

(** ** setVolume *)

Lemma round_ge (q : Q) (z : Z) :
  (inject_Z z <= q + (1 # 2))%Q -> z <= Qfloor (q + (1 # 2)).
Proof.
  intros Hq. rewrite <- (Qfloor_Z z). apply Qfloor_resp_le. exact Hq.
Qed.

Lemma round_lt (q : Q) (z : Z) :
  (q + (1 # 2) < inject_Z z)%Q -> Qfloor (q + (1 # 2)) < z.
Proof.
  intros Hq. rewrite Zlt_Qlt. eapply Qle_lt_trans; [apply Qfloor_le | exact Hq].
Qed.

(** [Math.round] of a finite number is within a half of it, the upper
    tie included. *)
Lemma round_nearest (q : Q) :
  (inject_Z (Qfloor (q + (1 # 2))) - (1 # 2) <= q
   /\ q < inject_Z (Qfloor (q + (1 # 2))) + (1 # 2))%Q.
Proof.
  pose proof (Qfloor_le (q + (1 # 2))) as Hle.
  pose proof (Qlt_floor (q + (1 # 2))) as Hlt.
  rewrite inject_Z_plus in Hlt. change (inject_Z 1) with (1 # 1)%Q in Hlt.
  split; lra.
Qed.

Definition above_100 (level : number) : Prop :=
  match level with
  | Fin q => (100 < q)%Q
  | PosInf => True
  | NaN | NegInf => False
  end.

Definition below_0 (level : number) : Prop :=
  match level with
  | Fin q => (q < 0)%Q
  | NegInf => True
  | NaN | PosInf => False
  end.

Lemma clampVolume_range (level : number) :
  level <> NaN -> exists n : Z, clampVolume level = Fin n /\ 0 <= n <= 100.
Proof.
  intros Hnan. destruct level as [q | | |]; [| congruence | |].
  - exists (Z.max 0 (Z.min 100 (Qfloor (q + (1 # 2))))). split; [reflexivity | lia].
  - exists 100. split; [reflexivity | lia].
  - exists 0. split; [reflexivity | lia].
Qed.

Lemma clampVolume_above (level : number) :
  above_100 level -> clampVolume level = Fin 100.
Proof.
  destruct level as [q | | |]; simpl; try tauto.
  intros Hq. unfold clampVolume. cbn [Math_max Math_min Math_round]. f_equal.
  assert (100 <= Qfloor (q + (1 # 2))); [| lia].
  apply round_ge. change (inject_Z 100) with (100 # 1)%Q. lra.
Qed.

Lemma clampVolume_below (level : number) :
  below_0 level -> clampVolume level = Fin 0.
Proof.
  destruct level as [q | | |]; simpl; try tauto.
  intros Hq. unfold clampVolume. cbn [Math_max Math_min Math_round]. f_equal.
  assert (Qfloor (q + (1 # 2)) < 1); [| lia].
  apply round_lt. change (inject_Z 1) with (1 # 1)%Q. lra.
Qed.

Lemma clampVolume_inside (q : Q) :
  (0 <= q)%Q -> (q <= 100)%Q -> clampVolume (Fin q) = Fin (Qfloor (q + (1 # 2))).
Proof.
  intros H0 H100. unfold clampVolume. cbn [Math_max Math_min Math_round]. f_equal.
  assert (0 <= Qfloor (q + (1 # 2))).
  { apply round_ge. change (inject_Z 0) with (0 # 1)%Q. lra. }
  assert (Qfloor (q + (1 # 2)) < 101); [| lia].
  apply round_lt. change (inject_Z 101) with (101 # 1)%Q. lra.
Qed.

(** [setVolume] issues one request: a POST to [/volume] carrying the
    payload. *)
Lemma setVolume_trace `{Xml2js} (this : SoundTouchClient) (level : number)
    {S : Type} (device : S -> Request -> Outcome * S) (s : S) :
  trace_of device (setVolume this level) s =
    [options this POST "/volume" (Some (volumeXml level))].
Proof.
  unfold trace_of, setVolume. rewrite exec_bind, exec_post.
  destruct (parsed _) as [e | v]; reflexivity.
Qed.

Lemma volumeXml_sent `{Xml2js} (this : SoundTouchClient) (level : number) :
  req_body (options this POST "/volume" (Some (volumeXml level))) = Some (volumeXml level).
Proof. reflexivity. Qed.

(** C1, as the code has it: for every level other than NaN, [setVolume]
    POSTs to [/volume] the decimal digits of [Math.round(level)] clamped
    into [0,100]: 100 for a level above 100 (and for +Infinity), 0 for a
    level below 0 (and for -Infinity), and for a level in range the
    nearest integer, the upper one at a tie. *)
Theorem setVolume_encodes_clamped_level `{Xml2js}
    (this : SoundTouchClient) (level : number) :
  level <> NaN ->
  exists n : Z,
    0 <= n <= 100
    /\ volumeXml level = "<volume>" +:+ pretty n +:+ "</volume>"
    /\ (forall (S : Type) (device : S -> Request -> Outcome * S) (s : S),
          exists r : Request,
            trace_of device (setVolume this level) s = [r]
            /\ req_method r = POST
            /\ req_path r = "/volume"
            /\ req_body r = Some ("<volume>" +:+ pretty n +:+ "</volume>"))
    /\ (above_100 level -> n = 100)
    /\ (below_0 level -> n = 0)
    /\ (forall q : Q, level = Fin q -> (0 <= q)%Q -> (q <= 100)%Q ->
          n = Qfloor (q + (1 # 2))
          /\ (inject_Z n - (1 # 2) <= q /\ q < inject_Z n + (1 # 2))%Q).
Proof.
  intros Hnan. destruct (clampVolume_range level Hnan) as (n & Hn & Hrange).
  assert (Hxml : volumeXml level = "<volume>" +:+ pretty n +:+ "</volume>").
  { unfold volumeXml. rewrite Hn. reflexivity. }
  exists n. split; [exact Hrange |]. split; [exact Hxml |].
  split; [| split; [| split]].
  - intros S device s. eexists. split; [apply setVolume_trace |].
    repeat split. rewrite <- Hxml. reflexivity.
  - intros Habove. apply clampVolume_above in Habove. congruence.
  - intros Hbelow. apply clampVolume_below in Hbelow. congruence.
  - intros q -> H0 H100. rewrite (clampVolume_inside q H0 H100) in Hn.
    injection Hn as <-. split; [reflexivity | apply round_nearest].
Qed.

Lemma setVolume_encodes_clamped_level_witness :
  exists n : Z,
    0 <= n <= 100
    /\ volumeXml (Fin (373 # 10)%Q) = "<volume>" +:+ pretty n +:+ "</volume>"
    /\ (forall (S : Type) (device : S -> Request -> Outcome * S) (s : S),
          exists r : Request,
            trace_of device
              (@setVolume RefXml2js.codec (new_SoundTouchClient "192.168.1.20" None None)
                 (Fin (373 # 10)%Q)) s = [r]
            /\ req_method r = POST
            /\ req_path r = "/volume"
            /\ req_body r = Some ("<volume>" +:+ pretty n +:+ "</volume>"))
    /\ (above_100 (Fin (373 # 10)%Q) -> n = 100)
    /\ (below_0 (Fin (373 # 10)%Q) -> n = 0)
    /\ (forall q : Q, Fin (373 # 10)%Q = Fin q -> (0 <= q)%Q -> (q <= 100)%Q ->
          n = Qfloor (q + (1 # 2))
          /\ (inject_Z n - (1 # 2) <= q /\ q < inject_Z n + (1 # 2))%Q).
Proof.
  apply (@setVolume_encodes_clamped_level RefXml2js.codec
           (new_SoundTouchClient "192.168.1.20" None None) (Fin (373 # 10)%Q)).
  discriminate.
Defined.

Example setVolume_150 : volumeXml (Fin (150 # 1)%Q) = "<volume>100</volume>".
Proof. reflexivity. Qed.

Example setVolume_minus_5 : volumeXml (Fin (-5 # 1)%Q) = "<volume>0</volume>".
Proof. reflexivity. Qed.

Example setVolume_37_5 : volumeXml (Fin (75 # 2)%Q) = "<volume>38</volume>".
Proof. reflexivity. Qed.

Example setVolume_infinity : volumeXml PosInf = "<volume>100</volume>".
Proof. reflexivity. Qed.

(** No level in range prints as the letters of NaN. *)
Lemma volume_digits_not_NaN (n : Z) :
  0 <= n <= 100 -> "<volume>" +:+ pretty n +:+ "</volume>" <> "<volume>NaN</volume>".
Proof.
  intros Hn.
  assert (Hall : Forall (fun z : Z =>
                   "<volume>" +:+ pretty z +:+ "</volume>" <> "<volume>NaN</volume>")
                 (seqZ 0 101)).
  { apply (bool_decide_unpack _). vm_compute. exact I. }
  rewrite Forall_forall in Hall. apply Hall. apply elem_of_seqZ. lia.
Qed.

(** C1 as stated fails at NaN, which is a number: rounding and clamping
    leave it NaN, and the payload carries the letters. *)
Lemma setVolume_NaN_counterexample :
  volumeXml NaN = "<volume>NaN</volume>"
  /\ ~ (exists n : Z, 0 <= n <= 100
                      /\ volumeXml NaN = "<volume>" +:+ pretty n +:+ "</volume>").
Proof.
  split; [reflexivity |].
  intros (n & Hn & Hxml). symmetry in Hxml. revert Hxml.
  change (volumeXml NaN) with "<volume>NaN</volume>".
  apply volume_digits_not_NaN. exact Hn.
Qed.

(** ** pressKey *)

Section PressKey.
Context `{Xml2js} (this : SoundTouchClient).
Context {S : Type} (device : S -> Request -> Outcome * S).

(** The two requests of a key press. *)
Definition press (key : KeyValue) : Request :=
  options this POST "/key" (Some (pressXml key)).

Definition release (key : KeyValue) : Request :=
  options this POST "/key" (Some (releaseXml key)).

Lemma keyXml_not_empty (state : string) (key : KeyValue) :
  body_given (Some (keyXml state key)) = Some (keyXml state key).
Proof. reflexivity. Qed.

Lemma exec_pressKey (key : KeyValue) (s : S) :
  exec device (pressKey this key) s =
    match parsed (device s (press key)).1 with
    | inl e => (inl e, [press key], (device s (press key)).2)
    | inr _ =>
        (match parsed (device (device s (press key)).2 (release key)).1 with
         | inl e => inl e
         | inr _ => ok tt
         end,
         [press key; release key],
         (device (device s (press key)).2 (release key)).2)
    end.
Proof.
  unfold pressKey. rewrite exec_bind, exec_post. fold (press key).
  destruct (parsed (device s (press key)).1) as [e | v]; [reflexivity |].
  rewrite exec_bind, exec_post. fold (release key).
  destruct (parsed _) as [e | v']; reflexivity.
Qed.

Lemma key_text_inj (key other : KeyValue) : key_text other = key_text key -> other = key.
Proof. destruct other, key; intros Heq; try reflexivity; discriminate Heq. Qed.

(** C2: a key press is a POST to [/key] with the press event and then a
    POST to [/key] with the release event for the same key: the two
    bodies are the key element with state [press] and with state
    [release], each around the text of this key, which is the text of
    no other key.  The release is issued to the device as the press
    left it, that is after the press was answered; when the press fails
    (no 2xx answer, a transport error, a timeout, or an answer that does
    not parse) the press is the only request and the call fails. *)
Theorem pressKey_press_then_release (key : KeyValue) (s : S) :
  let event (state : string) : string :=
    "<key state=" +:+ dq +:+ state +:+ dq +:+ " sender=" +:+ dq +:+ "Gabbo" +:+ dq +:+ ">"
      +:+ key_text key +:+ "</key>" in
  let after_press := (device s (press key)).2 in
  (req_method (press key) = POST
   /\ req_path (press key) = "/key"
   /\ req_body (press key) = Some (event "press"))
  /\ (req_method (release key) = POST
      /\ req_path (release key) = "/key"
      /\ req_body (release key) = Some (event "release"))
  /\ (forall other : KeyValue, key_text other = key_text key -> other = key)
  /\ (if is_ok (result_of device (post this "/key" (pressXml key)) s)
      then trace_of device (pressKey this key) s = [press key; release key]
           /\ final_of device (pressKey this key) s =
                (device after_press (release key)).2
      else trace_of device (pressKey this key) s = [press key]
           /\ is_ok (result_of device (pressKey this key) s) = false
           /\ final_of device (pressKey this key) s = after_press).
Proof.
  intros event after_press. subst event after_press.
  split; [repeat split |]. split; [repeat split |].
  split; [intros other; apply key_text_inj |].
  unfold result_of, trace_of, final_of.
  rewrite exec_pressKey, exec_post. fold (press key). simpl.
  destruct (parsed (device s (press key)).1) as [e | v]; simpl; repeat split.
Qed.

End PressKey.

(** A speaker that answers every request with a status document, and
    counts the requests it has answered. *)
Definition obliging (n : nat) (r : Request) : Outcome * nat :=
  (Responded 200 "<status>ok</status>", Datatypes.S n).

(** A speaker that cannot be reached. *)
Definition unreachable (n : nat) (r : Request) : Outcome * nat :=
  (Failed (Error "connect ECONNREFUSED"), Datatypes.S n).

Definition speaker : SoundTouchClient := new_SoundTouchClient "192.168.1.20" None None.

Example pressKey_PLAY_answered :
  map req_body (trace_of obliging (@pressKey RefXml2js.codec speaker PLAY) 0%nat)
  = [Some ("<key state=" +:+ dq +:+ "press" +:+ dq +:+ " sender=" +:+ dq +:+ "Gabbo"
             +:+ dq +:+ ">PLAY</key>");
     Some ("<key state=" +:+ dq +:+ "release" +:+ dq +:+ " sender=" +:+ dq +:+ "Gabbo"
             +:+ dq +:+ ">PLAY</key>")].
Proof. reflexivity. Qed.

Example pressKey_PLAY_refused :
  map req_body (trace_of unreachable (@pressKey RefXml2js.codec speaker PLAY) 0%nat)
  = [Some ("<key state=" +:+ dq +:+ "press" +:+ dq +:+ " sender=" +:+ dq +:+ "Gabbo"
             +:+ dq +:+ ">PLAY</key>")].
Proof. reflexivity. Qed.

(** ** setMute *)

Section SetMute.
Context `{Xml2js} (this : SoundTouchClient).
Context {S : Type} (device : S -> Request -> Outcome * S).

Definition volume_query : Request := options this GET "/volume" None.

(** The request that starts a MUTE toggle. *)
Definition is_mute_press (r : Request) : bool :=
  bool_decide (r = press this MUTE).

Definition mute_presses (tr : list Request) : nat :=
  length (filter (fun r => is_mute_press r = true) tr).

Lemma exec_getVolume (s : S) :
  exec device (getVolume this) s =
    (result <-r parsed (device s volume_query).1; decodeVolume result,
     [volume_query],
     (device s volume_query).2).
Proof.
  unfold getVolume. rewrite exec_bind, exec_get. fold volume_query.
  destruct (parsed _) as [e | result]; [reflexivity |].
  rewrite exec_lift. reflexivity.
Qed.

Lemma exec_setMute (muted : bool) (s : S) :
  exec device (setMute this muted) s =
    match exec device (getVolume this) s with
    | (inl e, tr, s1) => (inl e, tr, s1)
    | (inr volume, tr, s1) =>
        if negb (Bool.eqb (muteenabled volume) muted)
        then let '(r, tr2, s2) := exec device (pressKey this MUTE) s1 in
             (r, tr ++ tr2, s2)
        else (ok tt, tr, s1)
    end.
Proof.
  unfold setMute. rewrite exec_bind.
  destruct (exec device (getVolume this) s) as [[[e | volume] tr] s1]; [reflexivity |].
  destruct (negb _); [reflexivity |]. simpl. rewrite app_nil_r. reflexivity.
Qed.

Lemma release_is_not_press (key : KeyValue) : release this key <> press this key.
Proof.
  unfold release, press, options. intros Heq.
  assert (Hbody : body_given (Some (releaseXml key)) = body_given (Some (pressXml key)))
    by congruence.
  destruct key; vm_compute in Hbody; discriminate.
Qed.

Lemma query_is_not_press : volume_query <> press this MUTE.
Proof. unfold volume_query, press, options. intros Heq. discriminate. Qed.

(** A key press of MUTE holds exactly one toggle request. *)
Lemma mute_presses_pressKey (s : S) :
  mute_presses (trace_of device (pressKey this MUTE) s) = 1%nat.
Proof.
  unfold trace_of. rewrite exec_pressKey.
  pose proof (release_is_not_press MUTE) as Hne.
  destruct (parsed _) as [e | v]; unfold mute_presses, is_mute_press; simpl.
  - rewrite filter_cons_True, filter_nil; [reflexivity |].
    apply bool_decide_eq_true. reflexivity.
  - rewrite filter_cons_True, filter_cons_False, filter_nil; [reflexivity | |].
    + rewrite bool_decide_eq_true. exact Hne.
    + apply bool_decide_eq_true. reflexivity.
Qed.

(** What [setMute] does with the mute flag that [getVolume] returns. *)
Lemma setMute_by_decoded_flag (muted : bool) (s : S) (volume : Volume) :
  result_of device (getVolume this) s = ok volume ->
  let s1 := (device s volume_query).2 in
  (exists rest, trace_of device (setMute this muted) s = volume_query :: rest)
  /\ (muteenabled volume = muted ->
        trace_of device (setMute this muted) s = [volume_query]
        /\ mute_presses (trace_of device (setMute this muted) s) = 0%nat
        /\ result_of device (setMute this muted) s = ok tt)
  /\ (muteenabled volume <> muted ->
        trace_of device (setMute this muted) s =
          volume_query :: trace_of device (pressKey this MUTE) s1
        /\ mute_presses (trace_of device (setMute this muted) s) = 1%nat
        /\ result_of device (setMute this muted) s =
             result_of device (pressKey this MUTE) s1).
Proof.
  intros Hvol s1. subst s1.
  unfold result_of, trace_of in *. rewrite exec_setMute.
  rewrite exec_getVolume in *. cbn [fst snd] in *. rewrite Hvol.
  pose proof (mute_presses_pressKey (device s volume_query).2) as Hone.
  unfold trace_of in Hone.
  destruct (exec device (pressKey this MUTE) (device s volume_query).2)
    as [[r tr2] s2].
  cbn [fst snd] in Hone.
  assert (Hq : is_mute_press volume_query = false).
  { unfold is_mute_press. apply bool_decide_eq_false. exact query_is_not_press. }
  unfold ok.
  destruct (Bool.eqb (muteenabled volume) muted) eqn:Heqb; cbn [negb fst snd app].
  - apply Bool.eqb_prop in Heqb.
    split; [eexists; reflexivity |]. split; [| intros Hne; contradiction].
    intros _. repeat split.
    unfold mute_presses. rewrite filter_cons_False, filter_nil; [reflexivity |].
    rewrite Hq. discriminate.
  - apply Bool.eqb_false_iff in Heqb.
    split; [eexists; reflexivity |]. split; [intros Heq; contradiction |].
    intros _. repeat split.
    unfold mute_presses in *. rewrite filter_cons_False; [exact Hone |].
    rewrite Hq. discriminate.
Qed.

(** What [getVolume] reads in a 2xx answer to [/volume]: the numbers in
    the [targetvolume] and [actualvolume] children of the [volume]
    element, and whether the text of its [muteenabled] child is
    [true]. *)
Lemma getVolume_reads_answer (s : S) (statusCode : Z) (data : string)
    (result vol m : value) :
  (device s volume_query).1 = Responded statusCode data ->
  200 <= statusCode < 300 ->
  parseString data = ok result ->
  Js.get result "volume" = ok vol ->
  Js.get vol "muteenabled" = ok m ->
  exists t a,
    Js.get vol "targetvolume" = ok t
    /\ Js.get vol "actualvolume" = ok a
    /\ result_of device (getVolume this) s
       = ok {| targetvolume := parseInt t;
               actualvolume := parseInt a;
               muteenabled := match m with
                              | Str text => String.eqb text "true"
                              | _ => false
                              end |}.
Proof.
  intros Hanswer Hstatus Hparse Hvol Hm.
  assert (Hparsed : parsed (device s volume_query).1 = ok result).
  { rewrite Hanswer, parsed_2xx by exact Hstatus. exact Hparse. }
  assert (Hgets : exists t a, Js.get vol "targetvolume" = ok t
                              /\ Js.get vol "actualvolume" = ok a).
  { destruct vol as [| | text | fields | items]; try discriminate Hm; cbn; eauto. }
  destruct Hgets as (t & a & Ht & Ha). exists t, a.
  split; [exact Ht |]. split; [exact Ha |].
  unfold result_of. rewrite exec_getVolume. cbn [fst]. rewrite Hparsed.
  unfold decodeVolume. cbn [rbind ok]. rewrite Hvol. cbn [rbind ok].
  rewrite Ht, Ha, Hm. reflexivity.
Qed.

(** C4: [setMute(muted)] first asks for the volume, with a GET of
    [/volume].  When the speaker answers with a 2xx status and a
    document whose [volume] element has a [muteenabled] child, the
    speaker is muted exactly if the text of that child is [true].  When
    that flag equals [muted], nothing more is sent; when it differs, the
    requests of one MUTE key press follow, and among all requests exactly
    one starts a toggle (a POST to [/key] with the press event of
    MUTE). *)
Theorem setMute_toggles_only_on_difference
    (muted : bool) (s : S) (statusCode : Z) (data : string) (result vol m : value) :
  (device s volume_query).1 = Responded statusCode data ->
  200 <= statusCode < 300 ->
  parseString data = ok result ->
  Js.get result "volume" = ok vol ->
  Js.get vol "muteenabled" = ok m ->
  let speaker_muted :=
    match m with Str text => String.eqb text "true" | _ => false end in
  let s1 := (device s volume_query).2 in
  (req_method volume_query = GET
   /\ req_path volume_query = "/volume"
   /\ req_body volume_query = None)
  /\ (req_method (press this MUTE) = POST
      /\ req_path (press this MUTE) = "/key"
      /\ req_body (press this MUTE)
         = Some ("<key state=" +:+ dq +:+ "press" +:+ dq +:+ " sender=" +:+ dq +:+ "Gabbo"
                   +:+ dq +:+ ">MUTE</key>"))
  /\ (exists rest, trace_of device (setMute this muted) s = volume_query :: rest)
  /\ (speaker_muted = muted ->
        trace_of device (setMute this muted) s = [volume_query]
        /\ mute_presses (trace_of device (setMute this muted) s) = 0%nat
        /\ result_of device (setMute this muted) s = ok tt)
  /\ (speaker_muted <> muted ->
        trace_of device (setMute this muted) s =
          volume_query :: trace_of device (pressKey this MUTE) s1
        /\ mute_presses (trace_of device (setMute this muted) s) = 1%nat
        /\ result_of device (setMute this muted) s =
             result_of device (pressKey this MUTE) s1).
Proof.
  intros Hanswer Hstatus Hparse Hvol Hm speaker_muted s1.
  destruct (getVolume_reads_answer s statusCode data result vol m
              Hanswer Hstatus Hparse Hvol Hm) as (t & a & _ & _ & Hread).
  split; [repeat split |]. split; [repeat split |].
  exact (setMute_by_decoded_flag muted s _ Hread).
Qed.

(** When the volume cannot be read, nothing is toggled. *)
Lemma setMute_without_volume (muted : bool) (s : S) (e : exn) :
  result_of device (getVolume this) s = throw e ->
  trace_of device (setMute this muted) s = [volume_query]
  /\ result_of device (setMute this muted) s = throw e.
Proof.
  intros Hvol. unfold result_of, trace_of in *. rewrite exec_setMute.
  rewrite exec_getVolume in *. simpl in Hvol. rewrite Hvol. split; reflexivity.
Qed.

End SetMute.

(** A speaker that is not muted, and takes key presses. *)
Definition unmuted (n : nat) (r : Request) : Outcome * nat :=
  (Responded 200
     (match req_method r with
      | GET => "<volume><targetvolume>20</targetvolume><actualvolume>20</actualvolume>"
                 +:+ "<muteenabled>false</muteenabled></volume>"
      | POST => "<status>/key</status>"
      end),
   Datatypes.S n).

(** What the reference codec reads in the answer of [unmuted]. *)
Definition unmuted_answer : value :=
  Obj [("volume", Obj [("targetvolume", Str "20"); ("actualvolume", Str "20");
                        ("muteenabled", Str "false")])].

Lemma setMute_toggles_only_on_difference_witness :
  (req_method (volume_query speaker) = GET
   /\ req_path (volume_query speaker) = "/volume"
   /\ req_body (volume_query speaker) = None)
  /\ (req_method (press speaker MUTE) = POST
      /\ req_path (press speaker MUTE) = "/key"
      /\ req_body (press speaker MUTE)
         = Some ("<key state=" +:+ dq +:+ "press" +:+ dq +:+ " sender=" +:+ dq +:+ "Gabbo"
                   +:+ dq +:+ ">MUTE</key>"))
  /\ (exists rest,
        trace_of unmuted (@setMute RefXml2js.codec speaker true) 0%nat
        = volume_query speaker :: rest)
  /\ (String.eqb "false" "true" = true ->
        trace_of unmuted (@setMute RefXml2js.codec speaker true) 0%nat
        = [volume_query speaker]
        /\ mute_presses speaker
             (trace_of unmuted (@setMute RefXml2js.codec speaker true) 0%nat) = 0%nat
        /\ result_of unmuted (@setMute RefXml2js.codec speaker true) 0%nat = ok tt)
  /\ (String.eqb "false" "true" <> true ->
        trace_of unmuted (@setMute RefXml2js.codec speaker true) 0%nat
        = volume_query speaker
            :: trace_of unmuted (@pressKey RefXml2js.codec speaker MUTE)
                 (unmuted 0%nat (volume_query speaker)).2
        /\ mute_presses speaker
             (trace_of unmuted (@setMute RefXml2js.codec speaker true) 0%nat) = 1%nat
        /\ result_of unmuted (@setMute RefXml2js.codec speaker true) 0%nat
           = result_of unmuted (@pressKey RefXml2js.codec speaker MUTE)
               (unmuted 0%nat (volume_query speaker)).2).
Proof.
  apply (@setMute_toggles_only_on_difference RefXml2js.codec speaker nat unmuted
           true 0%nat 200
           ("<volume><targetvolume>20</targetvolume><actualvolume>20</actualvolume>"
              +:+ "<muteenabled>false</muteenabled></volume>")
           unmuted_answer
           (Obj [("targetvolume", Str "20"); ("actualvolume", Str "20");
                 ("muteenabled", Str "false")])
           (Str "false")).
  - reflexivity.
  - lia.
  - vm_compute. reflexivity.
  - reflexivity.
  - reflexivity.
Defined.

Example setMute_true_when_unmuted :
  map (fun r => (req_path r, req_body r))
      (trace_of unmuted (@setMute RefXml2js.codec speaker true) 0%nat)
  = [("/volume", None);
     ("/key", Some (pressXml MUTE));
     ("/key", Some (releaseXml MUTE))].
Proof. vm_compute. reflexivity. Qed.

Example setMute_false_when_unmuted :
  map (fun r => (req_path r, req_body r))
      (trace_of unmuted (@setMute RefXml2js.codec speaker false) 0%nat)
  = [("/volume", None)].
Proof. vm_compute. reflexivity. Qed.

(** ** getPresets and getSources on an element without children *)

(** An element as xml2js reads it (a string, or an object of its
    attributes, text and children) that has no child named [k]. *)
Definition lacks (k : string) (v : value) : Prop :=
  match v with
  | Str _ => True
  | Obj fields => assoc k fields = None
  | Undefined | Null | Arr _ => False
  end.

Lemma lacks_get (k : string) (v : value) : lacks k v -> Js.get v k = ok Undefined.
Proof.
  destruct v as [| | t | fields | items]; simpl; try tauto.
  intros ->. reflexivity.
Qed.

Section EmptyLists.
Context `{Xml2js} (this : SoundTouchClient).
Context {S : Type} (device : S -> Request -> Outcome * S).

Lemma exec_getPresets (s : S) :
  result_of device (getPresets this) s =
    (result <-r parsed (device s (options this GET "/presets" None)).1;
     decodePresets result).
Proof.
  unfold result_of, getPresets. rewrite exec_bind, exec_get.
  destruct (parsed _) as [e | result]; [reflexivity |].
  rewrite exec_lift. reflexivity.
Qed.

Lemma exec_getSources (s : S) :
  result_of device (getSources this) s =
    (result <-r parsed (device s (options this GET "/sources" None)).1;
     decodeSources result).
Proof.
  unfold result_of, getSources. rewrite exec_bind, exec_get.
  destruct (parsed _) as [e | result]; [reflexivity |].
  rewrite exec_lift. reflexivity.
Qed.

(** C10: when the answer to [/presets] is a document whose [presets]
    element has no [preset] child, [getPresets] returns the empty list;
    and likewise [getSources] for a [sources] element with no
    [sourceItem] child. *)
Theorem no_children_give_empty_lists (s : S) :
  (forall result ps : value,
      parsed (device s (options this GET "/presets" None)).1 = ok result ->
      Js.get result "presets" = ok ps ->
      lacks "preset" ps ->
      result_of device (getPresets this) s = ok [])
  /\ (forall result ss : value,
        parsed (device s (options this GET "/sources" None)).1 = ok result ->
        Js.get result "sources" = ok ss ->
        lacks "sourceItem" ss ->
        result_of device (getSources this) s = ok []).
Proof.
  split.
  - intros result ps Hres Hps Hlacks.
    rewrite exec_getPresets, Hres. simpl. unfold decodePresets.
    rewrite Hps. simpl. rewrite (lacks_get _ _ Hlacks). reflexivity.
  - intros result ss Hres Hss Hlacks.
    rewrite exec_getSources, Hres. simpl. unfold decodeSources.
    rewrite Hss. simpl. rewrite (lacks_get _ _ Hlacks). reflexivity.
Qed.

End EmptyLists.

(** A speaker with no presets and no sources. *)
Definition blank (n : nat) (r : Request) : Outcome * nat :=
  (Responded 200
     (if String.eqb (req_path r) "/presets" then "<presets />"
      else "<sources deviceID='A0F6FD5D1C2B'></sources>"),
   Datatypes.S n).

Lemma no_children_give_empty_lists_witness :
  result_of blank (@getPresets RefXml2js.codec speaker) 0%nat = ok []
  /\ result_of blank (@getSources RefXml2js.codec speaker) 0%nat = ok [].
Proof.
  destruct (@no_children_give_empty_lists RefXml2js.codec speaker nat blank 0%nat)
    as [Hpresets Hsources].
  split.
  - apply (Hpresets (Obj [("presets", Str "")]) (Str "")); vm_compute; auto.
  - apply (Hsources (Obj [("sources", Obj [("$", Obj [("deviceID", Str "A0F6FD5D1C2B")])])])
                    (Obj [("$", Obj [("deviceID", Str "A0F6FD5D1C2B")])]));
      vm_compute; auto.
Defined.

(** ** Content items through [playContent] and back *)

Section RoundTrip.
Context `{Xml2js}.

(** What the decoders read in the object [playContent] builds. *)
Lemma contentItemOf_contentObj (src loc account nm : string) :
  (ci <-r Js.get (contentObj src loc account nm) "ContentItem"; contentItemOf ci)
  = ok {| source := Str src;
          type := Undefined;
          location := Str loc;
          sourceAccount := Str account;
          isPresetable := true;
          name := if String.eqb nm "" then Undefined else Str nm |}.
Proof.
  unfold contentObj. simpl. destruct (String.eqb nm "") eqn:Hnm; simpl.
  - reflexivity.
  - destruct (String.eqb "itemName" "$") eqn:E; [discriminate |]. reflexivity.
Qed.

(** [playContent] writes the source, the location, the source account
    and (when it is not empty) the name, always marks the item
    presetable, and writes no type.  So, through any codec that hands
    the built object back unchanged, the decoders return those fields,
    an absent type and [isPresetable = true]. *)
Lemma playContent_round_trip_any_codec (src loc account nm : string) :
  parseString (buildObject (contentObj src loc account nm))
    = ok (contentObj src loc account nm) ->
  decodeContentItemXml (playContentXml src loc (Some account) (Some nm))
    = ok {| source := Str src;
            type := Undefined;
            location := Str loc;
            sourceAccount := Str account;
            isPresetable := true;
            name := if String.eqb nm "" then Undefined else Str nm |}.
Proof.
  intros Hcodec. unfold decodeContentItemXml, playContentXml.
  change (default "" (Some account)) with account.
  change (default "" (Some nm)) with nm.
  rewrite Hcodec. apply contentItemOf_contentObj.
Qed.

(** The decoders of [getNowPlaying] and [getPresets] read a content item
    with [contentItemOf], applied to the [ContentItem] element. *)
Lemma decodeNowPlaying_contentItem (result np ci : value) (playing : NowPlaying) :
  Js.get result "nowPlaying" = ok np ->
  Js.get np "ContentItem" = ok ci ->
  truthy ci = true ->
  decodeNowPlaying result = ok playing ->
  exists c : ContentItem,
    contentItemOf ci = ok c /\ np_contentItem playing = Some c.
Proof.
  intros Hnp Hci Htruthy Hdec. unfold decodeNowPlaying in Hdec.
  rewrite Hnp in Hdec. cbn [rbind ok] in Hdec. rewrite Hci in Hdec.
  cbn [rbind ok] in Hdec. rewrite Htruthy in Hdec.
  destruct (contentItemOf ci) as [e | c]; [discriminate |].
  cbn [rbind ok] in Hdec.
  repeat match type of Hdec with
         | context [rbind ?m _] =>
             destruct m; cbn [rbind ok throw] in Hdec; [discriminate |]
         end.
  injection Hdec as <-. exists c. split; reflexivity.
Qed.

Lemma decodePreset_contentItem (p ci : value) (preset : Preset) :
  Js.get p "ContentItem" = ok ci ->
  decodePreset p = ok preset ->
  contentItemOf ci = ok (contentItem preset).
Proof.
  intros Hci Hdec. unfold decodePreset in Hdec.
  destruct (Js.get p "$") as [e | a]; [discriminate |]. cbn [rbind ok] in Hdec.
  destruct (Js.get a "id") as [e | v]; [discriminate |]. cbn [rbind ok] in Hdec.
  rewrite Hci in Hdec. cbn [rbind ok] in Hdec.
  destruct (contentItemOf ci) as [e | c]; [discriminate |].
  injection Hdec as <-. reflexivity.
Qed.

(** Whatever the codec, as long as it hands the object back: an item
    that has a type never comes back equal. *)
Lemma playContent_loses_type (src ty loc account nm : string) (presetable : bool) :
  parseString (buildObject (contentObj src loc account nm))
    = ok (contentObj src loc account nm) ->
  decodeContentItemXml (playContentXml src loc (Some account) (Some nm))
    <> ok {| source := Str src;
             type := Str ty;
             location := Str loc;
             sourceAccount := Str account;
             isPresetable := presetable;
             name := Str nm |}.
Proof.
  intros Hcodec. unfold decodeContentItemXml, playContentXml.
  change (default "" (Some account)) with account.
  change (default "" (Some nm)) with nm.
  rewrite Hcodec.
  change (rbind (ok (contentObj src loc account nm))
            (fun result => ci <-r Js.get result "ContentItem"; contentItemOf ci))
    with (ci <-r Js.get (contentObj src loc account nm) "ContentItem"; contentItemOf ci).
  rewrite contentItemOf_contentObj.
  intros Heq. injection Heq as Hty. discriminate.
Qed.

End RoundTrip.

(** White space in the sense of [String.prototype.trim] and of the
    regular expression class [\s] covers what the reference codec
    takes for white space. *)
Lemma all_space_blank (s : string) :
  RefXml2js.all_space s = true -> Platform.blank s = true.
Proof.
  induction s as [| c rest IH]; [reflexivity |].
  cbn [RefXml2js.all_space Platform.blank]. intros Hspace.
  apply andb_true_iff in Hspace as [Hc Hrest].
  change (Platform.ascii_white c) with (is_space c). rewrite Hc. apply IH, Hrest.
Qed.

(** C6, as the code has it.  The payload [playContent] sends for a
    source, a location, a source account and a name, written and read
    back as XML by the reference codec and decoded as [getNowPlaying]
    and [getPresets] decode a content item, gives the same source,
    location and account for all strings, and the same name when the
    name has a character that is not white space; an empty name comes
    back absent.  The type is always absent and [isPresetable] always
    true.  Nothing is assumed of the codec here: every character of the
    four strings survives the escaping and the parsing.  (A name of
    white space only is not covered: it is the XML reader that decides
    what an element holding only white space is read as.) *)
Theorem playContent_round_trip (src loc account nm : string) :
  nm = "" \/ Platform.blank nm = false ->
  @decodeContentItemXml RefXml2js.codec
    (@playContentXml RefXml2js.codec src loc (Some account) (Some nm))
  = ok {| source := Str src;
          type := Undefined;
          location := Str loc;
          sourceAccount := Str account;
          isPresetable := true;
          name := if String.eqb nm "" then Undefined else Str nm |}.
Proof.
  intros Hnm.
  assert (Hname : nm = "" \/ RefXml2js.all_space nm = false).
  { destruct Hnm as [-> | Hblank]; [left; reflexivity | right].
    destruct (RefXml2js.all_space nm) eqn:Hspace; [| reflexivity].
    rewrite (all_space_blank nm Hspace) in Hblank. discriminate. }
  unfold decodeContentItemXml, playContentXml.
  change (default "" (Some account)) with account.
  change (default "" (Some nm)) with nm.
  change (@parseString RefXml2js.codec) with RefXml2js.parse.
  change (@buildObject RefXml2js.codec) with RefXml2js.build.
  rewrite (RefXml2jsFacts.codec_returns_contentObj src loc account nm Hname).
  apply contentItemOf_contentObj.
Qed.

Lemma playContent_round_trip_witness :
  @decodeContentItemXml RefXml2js.codec
    (@playContentXml RefXml2js.codec "TUNEIN" "/v1/playback/station/s25111"
       (Some "") (Some "Radio Swiss Jazz"))
  = ok {| source := Str "TUNEIN";
          type := Undefined;
          location := Str "/v1/playback/station/s25111";
          sourceAccount := Str "";
          isPresetable := true;
          name := if String.eqb "Radio Swiss Jazz" "" then Undefined
                  else Str "Radio Swiss Jazz" |}.
Proof.
  apply (playContent_round_trip "TUNEIN" "/v1/playback/station/s25111" ""
           "Radio Swiss Jazz").
  right. reflexivity.
Defined.

(** C6 as stated fails: an item with all five fields present comes back
    without its type. *)
Lemma playContent_round_trip_counterexample :
  let item := {| source := Str "TUNEIN";
                 type := Str "stationurl";
                 location := Str "/v1/playback/station/s25111";
                 sourceAccount := Str "";
                 isPresetable := true;
                 name := Str "Radio Swiss Jazz" |} in
  @decodeContentItemXml RefXml2js.codec
    (@playContentXml RefXml2js.codec "TUNEIN" "/v1/playback/station/s25111"
       (Some "") (Some "Radio Swiss Jazz"))
  = ok {| source := Str "TUNEIN";
          type := Undefined;
          location := Str "/v1/playback/station/s25111";
          sourceAccount := Str "";
          isPresetable := true;
          name := Str "Radio Swiss Jazz" |}
  /\ @decodeContentItemXml RefXml2js.codec
       (@playContentXml RefXml2js.codec "TUNEIN" "/v1/playback/station/s25111"
          (Some "") (Some "Radio Swiss Jazz"))
     <> ok item.
Proof.
  split; [vm_compute; reflexivity | vm_compute; discriminate].
Qed.

End ClientFacts.

(* ===================================================================== *)
(** * Properties of the event stream *)
(* ===================================================================== *)

Module EventStreamFacts.
Import EventStream.

(** ** Frames *)

Section Frames.
Context `{Xml2js}.

Lemma emit_all_nil (w : World) : emit_all [] w = w.
Proof. destruct w. unfold emit_all. simpl. rewrite app_nil_r. reflexivity. Qed.

(** C3: a frame the parser rejects makes the stream emit nothing, and
    delivering it changes nothing: not the fields of the stream, not
    its sockets, not its timers. *)
Theorem malformed_frame_is_dropped (data : string) (e : exn) :
  parseString data = throw e ->
  handleMessage data = []
  /\ (forall (w : World) (i : nat), step w (socket_message i data) = w).
Proof.
  intros Hparse.
  assert (Hnone : handleMessage data = []).
  { unfold handleMessage, try_catch, handleMessage_body, ebind, elift.
    rewrite Hparse. reflexivity. }
  split; [exact Hnone |].
  intros w i. unfold step. destruct (enabled _ w); [| reflexivity].
  simpl. unfold on_message. rewrite Hnone. apply emit_all_nil.
Qed.

(** The same holds of an empty frame, which parses to [null], and of a
    document with another root. *)
Lemma frame_without_updates (data : string) (result : value) :
  parseString data = ok result ->
  match result with
  | Null | Undefined => True
  | _ => get result "updates" = ok Undefined
  end ->
  handleMessage data = [].
Proof.
  intros Hparse Hroot.
  unfold handleMessage, try_catch, handleMessage_body, ebind, elift.
  rewrite Hparse.
  destruct result; simpl in *; try reflexivity; rewrite ?Hroot; try reflexivity.
  injection Hroot as ->. reflexivity.
Qed.

End Frames.

Definition idle : World := init "192.168.1.20" None.

Lemma malformed_frame_is_dropped_witness :
  @handleMessage RefXml2js.codec "<updates deviceID='A0F6FD5D1C2B'><volumeUpdated><volume>" = []
  /\ (forall (w : World) (i : nat),
        @step RefXml2js.codec w
          (socket_message i "<updates deviceID='A0F6FD5D1C2B'><volumeUpdated><volume>") = w).
Proof.
  apply (@malformed_frame_is_dropped RefXml2js.codec
           "<updates deviceID='A0F6FD5D1C2B'><volumeUpdated><volume>"
           (XmlError "document is not well-formed")).
  vm_compute. reflexivity.
Defined.

(** A frame that parses is decoded part by part, in the order of the
    body; a part that lacks its structure stops the decoding there. *)
Example frame_with_volume :
  @handleMessage RefXml2js.codec
    ("<updates deviceID='A0F6FD5D1C2B'><volumeUpdated><volume>"
       +:+ "<targetvolume>31</targetvolume><actualvolume>30</actualvolume>"
       +:+ "<muteenabled>false</muteenabled></volume></volumeUpdated></updates>")
  = [volumeUpdated {| targetvolume := Fin 31; actualvolume := Fin 30; muteenabled := false |}].
Proof. vm_compute. reflexivity. Qed.

(** ** The reconnect timer *)

(** The armed timeouts are exactly the one [reconnectTimer] holds. *)
Definition timer_tracked (w : World) : Prop :=
  timeouts w = match reconnectTimer (this w) with
               | Some t => [t]
               | None => []
               end.

Ltac open_world w :=
  destruct w as [[ws0 host0 port0 reconnectTimer0 pingInterval0
                    isConnecting0 shouldReconnect0 reconnectDelay0]
                   sockets0 timeouts0 intervals0 next0 emitted0 pinged0].

Lemma filter_ne_singleton (t : nat) : filter (fun t' : nat => t' <> t) [t] = [].
Proof. rewrite filter_cons_False, filter_nil; [reflexivity | intros Hne; congruence]. Qed.

Lemma cleanup_tracked (w : World) :
  timer_tracked w ->
  timeouts (cleanup w) = [] /\ reconnectTimer (this (cleanup w)) = None.
Proof.
  open_world w. unfold timer_tracked, cleanup. simpl. intros ->.
  destruct pingInterval0, reconnectTimer0; simpl; rewrite ?filter_ne_singleton; auto.
Qed.

Lemma cleanup_fields (w : World) :
  sockets (cleanup w) = sockets w
  /\ ws (this (cleanup w)) = ws (this w)
  /\ isConnecting (this (cleanup w)) = isConnecting (this w)
  /\ shouldReconnect (this (cleanup w)) = shouldReconnect (this w).
Proof.
  open_world w. unfold cleanup. simpl.
  destruct pingInterval0, reconnectTimer0; simpl; auto.
Qed.

Lemma scheduleReconnect_tracked (w : World) :
  timer_tracked w -> timer_tracked (scheduleReconnect w).
Proof.
  open_world w. unfold timer_tracked, scheduleReconnect. simpl. intros ->.
  destruct shouldReconnect0, reconnectTimer0; simpl; reflexivity.
Qed.

Lemma connect_tracked (ctor : option exn) (w : World) :
  timer_tracked w -> timer_tracked (connect ctor w).
Proof.
  open_world w. unfold timer_tracked, connect. simpl. intros ->.
  destruct ws0, isConnecting0, ctor, reconnectTimer0; simpl; reflexivity.
Qed.

Lemma socket_close_timers (i : nat) (w : World) :
  timeouts (socket_close i w) = timeouts w /\ this (socket_close i w) = this w.
Proof.
  unfold socket_close. destruct (sockets w !! i) as [s |]; [| auto].
  destruct (readyState s); auto.
Qed.

Lemma disconnect_tracked (w : World) :
  timer_tracked w ->
  timeouts (disconnect w) = [] /\ reconnectTimer (this (disconnect w)) = None.
Proof.
  intros Hw. unfold disconnect.
  assert (Hs : timer_tracked (set_shouldReconnect false w)) by exact Hw.
  destruct (cleanup_tracked _ Hs) as [Ht Hr].
  destruct (ws (this (cleanup (set_shouldReconnect false w)))) as [i |]; [| auto].
  destruct (socket_close_timers i (cleanup (set_shouldReconnect false w))) as [Hc Hthis].
  simpl. rewrite Hc, Hthis. auto.
Qed.

Lemma on_close_tracked (w : World) : timer_tracked w -> timer_tracked (on_close w).
Proof.
  intros Hw. unfold on_close. apply scheduleReconnect_tracked.
  assert (Hs : timer_tracked (set_isConnecting false w)) by exact Hw.
  destruct (cleanup_tracked _ Hs) as [Ht Hr].
  unfold timer_tracked. simpl. rewrite Ht, Hr. reflexivity.
Qed.

Lemma reconnect_tracked (t : nat) (ctor : option exn) (w : World) :
  timer_tracked w -> t ∈ timeouts w -> timer_tracked (reconnect ctor (disarm t w)).
Proof.
  intros Hw Ht. unfold reconnect. apply connect_tracked.
  unfold timer_tracked in *. simpl. rewrite Hw in *.
  destruct (reconnectTimer (this w)) as [t' |].
  - apply list_elem_of_singleton in Ht. subst t'. apply filter_ne_singleton.
  - reflexivity.
Qed.

Section Timers.
Context `{Xml2js}.

Lemma step_tracked (w : World) (ev : Event) :
  timer_tracked w -> timer_tracked (step w ev).
Proof.
  intros Hw. unfold step. destruct (enabled ev w) eqn:Hen; [| exact Hw].
  destruct ev as [ctor | | i | i data | i e | i | t ctor | j]; simpl.
  - apply connect_tracked, Hw.
  - destruct (disconnect_tracked w Hw) as [Ht Hr].
    unfold timer_tracked. rewrite Ht, Hr. reflexivity.
  - exact Hw.
  - exact Hw.
  - exact Hw.
  - apply on_close_tracked. exact Hw.
  - apply reconnect_tracked; [exact Hw |].
    simpl in Hen. apply bool_decide_eq_true in Hen. exact Hen.
  - unfold ping_tick. destruct (ws (this w)); [| exact Hw].
    destruct (bool_decide _); exact Hw.
Qed.

Lemma run_snoc (evs : list Event) (ev : Event) (w : World) :
  run (evs ++ [ev]) w = step (run evs w) ev.
Proof. unfold run. rewrite foldl_app. reflexivity. Qed.

Lemma reachable_tracked (h : string) (p : option Z) (w : World) :
  reachable h p w -> timer_tracked w.
Proof.
  intros [evs ->]. induction evs as [| ev evs IH] using rev_ind.
  - reflexivity.
  - rewrite run_snoc. apply step_tracked, IH.
Qed.

(** X1 (the timer part of C7): in every reachable state at most one
    reconnect timer is armed, whatever calls and events a fresh stream
    has seen. *)
Theorem at_most_one_reconnect_timer (h : string) (p : option Z) (evs : list Event) :
  (length (timeouts (run evs (init h p))) <= 1)%nat.
Proof.
  assert (Hw : timer_tracked (run evs (init h p))).
  { apply (reachable_tracked h p). exists evs. reflexivity. }
  rewrite Hw. destruct (reconnectTimer (this (run evs (init h p)))); simpl; lia.
Qed.

(** X2 (the no-op part of C7): [connect()] while connecting or
    connected changes nothing: no socket is made, no field is written. *)
Theorem connect_is_noop_when_busy (ctor : option exn) (w : World) :
  isConnecting (this w) = true \/ isConnected w = true ->
  step w (call_connect ctor) = w.
Proof.
  intros Hbusy. unfold step. simpl. unfold connect.
  destruct Hbusy as [-> | Hc].
  - rewrite orb_true_r. reflexivity.
  - unfold isConnected in Hc. destruct (ws (this w)); [reflexivity | discriminate].
Qed.

End Timers.

Lemma connect_is_noop_when_busy_witness :
  @step RefXml2js.codec (@run RefXml2js.codec [call_connect None] idle) (call_connect None)
  = @run RefXml2js.codec [call_connect None] idle.
Proof.
  apply (@connect_is_noop_when_busy RefXml2js.codec None
           (@run RefXml2js.codec [call_connect None] idle)).
  left. reflexivity.
Defined.

(** C7 on the code: the stream is connected, the caller disconnects and
    connects again, and only then the first socket's ['close'] arrives.
    Its handler arms the reconnect timer although the second socket is
    still connecting; when the timer fires, [ws] is dropped without being
    closed and a third socket is made.  Two handshakes are in flight. *)
Theorem stale_close_starts_second_attempt :
  let w := @run RefXml2js.codec
             [call_connect None; socket_open 0; call_disconnect;
              call_connect None; socket_closed 0; timeout_fires 1 None] idle in
  in_flight w = 2%nat
  /\ readyState_of w 1 = Some CONNECTING
  /\ readyState_of w 2 = Some CONNECTING
  /\ ws (this w) = Some 2%nat
  /\ length (timeouts w) = 0%nat.
Proof. vm_compute. repeat split. Qed.

(** ** After [disconnect()] *)

(** Reconnection is off and no timer is armed. *)
Definition quiet (w : World) : Prop :=
  shouldReconnect (this w) = false
  /\ reconnectTimer (this w) = None
  /\ timeouts w = [].

Lemma cleanup_quiet (w : World) : quiet w -> quiet (cleanup w).
Proof.
  open_world w. unfold quiet, cleanup. simpl. intros (-> & -> & ->).
  destruct pingInterval0; simpl; auto.
Qed.

Lemma socket_close_sockets (i : nat) (w : World) :
  length (sockets (socket_close i w)) = length (sockets w).
Proof.
  unfold socket_close. destruct (sockets w !! i) as [s |]; [| reflexivity].
  destruct (readyState s); simpl; rewrite ?length_insert; reflexivity.
Qed.

Lemma disconnect_quiet (w : World) : timer_tracked w -> quiet (disconnect w).
Proof.
  intros Hw. destruct (disconnect_tracked w Hw) as [Ht Hr].
  split; [| split; assumption].
  unfold disconnect.
  destruct (cleanup_fields (set_shouldReconnect false w)) as (_ & _ & _ & Hflag).
  destruct (ws (this (cleanup (set_shouldReconnect false w)))) as [i |].
  - destruct (socket_close_timers i (cleanup (set_shouldReconnect false w))) as [_ Hthis].
    simpl. rewrite Hthis, Hflag. reflexivity.
  - rewrite Hflag. reflexivity.
Qed.

Lemma disconnect_sockets (w : World) :
  length (sockets (disconnect w)) = length (sockets w).
Proof.
  unfold disconnect.
  destruct (cleanup_fields (set_shouldReconnect false w)) as (Hs & _).
  destruct (ws (this (cleanup (set_shouldReconnect false w)))) as [i |].
  - simpl. rewrite socket_close_sockets, Hs. reflexivity.
  - rewrite Hs. reflexivity.
Qed.

Lemma scheduleReconnect_quiet (w : World) : quiet w -> scheduleReconnect w = w.
Proof. intros (Hflag & _). unfold scheduleReconnect. rewrite Hflag. reflexivity. Qed.

Section AfterDisconnect.
Context `{Xml2js}.

(** Nothing but an explicit [connect()] ends the quiet, and nothing but
    [connect()] makes a socket. *)
Lemma step_quiet (w : World) (ev : Event) :
  is_call_connect ev = false -> quiet w ->
  quiet (step w ev) /\ length (sockets (step w ev)) = length (sockets w).
Proof.
  intros Hev Hq. unfold step. destruct (enabled ev w) eqn:Hen; [| auto].
  destruct ev as [ctor | | i | i data | i e | i | t ctor | j]; simpl.
  - discriminate.
  - split; [| apply disconnect_sockets].
    unfold disconnect.
    assert (Hq' : quiet (cleanup (set_shouldReconnect false w))).
    { apply cleanup_quiet. destruct Hq as (? & ? & ?). repeat split; assumption. }
    destruct (ws (this (cleanup (set_shouldReconnect false w)))) as [k |];
      [| exact Hq'].
    destruct (socket_close_timers k (cleanup (set_shouldReconnect false w)))
      as [Ht Hthis].
    unfold quiet. simpl. rewrite Hthis, Ht. exact Hq'.
  - split; [exact Hq |]. simpl. apply length_alter.
  - split; [exact Hq | reflexivity].
  - split; [exact Hq | reflexivity].
  - unfold on_close.
    assert (Hq' : quiet (emit_event disconnected
                           (cleanup (set_isConnecting false (mark i CLOSED w))))).
    { assert (Hm : quiet (set_isConnecting false (mark i CLOSED w))) by exact Hq.
      apply cleanup_quiet in Hm. exact Hm. }
    rewrite (scheduleReconnect_quiet _ Hq'). split; [exact Hq' |].
    simpl.
    destruct (cleanup_fields (set_isConnecting false (mark i CLOSED w))) as (Hs & _).
    rewrite Hs. simpl. apply length_alter.
  - simpl in Hen. apply bool_decide_eq_true in Hen.
    destruct Hq as (_ & _ & Hnone). rewrite Hnone in Hen.
    apply not_elem_of_nil in Hen. contradiction.
  - unfold ping_tick. destruct (ws (this w)); [| auto].
    destruct (bool_decide _); auto.
Qed.

Lemma run_quiet (evs : list Event) (w : World) :
  Forall (fun ev => is_call_connect ev = false) evs -> quiet w ->
  quiet (run evs w) /\ length (sockets (run evs w)) = length (sockets w).
Proof.
  intros Hevs. revert w. induction Hevs as [| ev evs Hev _ IH]; intros w Hq.
  - auto.
  - destruct (step_quiet w ev Hev Hq) as [Hq1 Hlen1].
    destruct (IH _ Hq1) as [Hq2 Hlen2].
    change (run (ev :: evs) w) with (run evs (step w ev)).
    split; [exact Hq2 | congruence].
Qed.

(** C8: [disconnect()] cancels the pending reconnect timer, and from
    then on, whatever the sockets and timers deliver and however often
    [disconnect()] is called again, as long as [connect()] is not
    called: reconnection stays off, no timer is armed, and no socket
    is made. *)
Theorem no_reconnect_after_disconnect
    (h : string) (p : option Z) (w : World) (evs : list Event) :
  reachable h p w ->
  Forall (fun ev => is_call_connect ev = false) evs ->
  let w1 := step w call_disconnect in
  let w2 := run evs w1 in
  (timeouts w1 = [] /\ reconnectTimer (this w1) = None)
  /\ (timeouts w2 = [] /\ reconnectTimer (this w2) = None)
  /\ shouldReconnect (this w2) = false
  /\ length (sockets w2) = length (sockets w).
Proof.
  intros Hw Hevs w1 w2. subst w1 w2.
  apply reachable_tracked in Hw.
  change (step w call_disconnect) with (disconnect w).
  pose proof (disconnect_quiet w Hw) as Hq.
  destruct (run_quiet evs (disconnect w) Hevs Hq) as [(Hf & Hr & Ht) Hlen].
  destruct Hq as (_ & Hr1 & Ht1).
  rewrite Hlen, disconnect_sockets. auto.
Qed.

End AfterDisconnect.

(** A stream waiting to reconnect: its socket was refused and closed. *)
Definition waiting : World :=
  @run RefXml2js.codec
    [call_connect None; socket_error 0 (Error "connect ECONNREFUSED"); socket_closed 0]
    idle.

Example waiting_has_timer : timeouts waiting = [0%nat].
Proof. vm_compute. reflexivity. Qed.

Definition later : list Event :=
  [socket_closed 0; socket_error 0 (Error "late"); timeout_fires 0 None;
   interval_fires 0; call_disconnect; socket_open 0].

Lemma no_reconnect_after_disconnect_witness :
  (timeouts (@step RefXml2js.codec waiting call_disconnect) = []
   /\ reconnectTimer (this (@step RefXml2js.codec waiting call_disconnect)) = None)
  /\ (timeouts (@run RefXml2js.codec later
                  (@step RefXml2js.codec waiting call_disconnect)) = []
      /\ reconnectTimer
           (this (@run RefXml2js.codec later
                    (@step RefXml2js.codec waiting call_disconnect))) = None)
  /\ shouldReconnect
       (this (@run RefXml2js.codec later
                (@step RefXml2js.codec waiting call_disconnect))) = false
  /\ length (sockets (@run RefXml2js.codec later
                        (@step RefXml2js.codec waiting call_disconnect)))
     = length (sockets waiting).
Proof.
  apply (@no_reconnect_after_disconnect RefXml2js.codec "192.168.1.20" None waiting later).
  - exists [call_connect None; socket_error 0 (Error "connect ECONNREFUSED");
            socket_closed 0]. reflexivity.
  - repeat constructor.
Defined.

(** ** [connect()] and the reconnect flag *)

(** While the stream holds a socket, reconnection is allowed. *)
Definition held_allows (w : World) : Prop :=
  is_Some (ws (this w)) -> shouldReconnect (this w) = true.

Lemma connect_held_allows (ctor : option exn) (w : World) :
  held_allows w -> held_allows (connect ctor w).
Proof.
  open_world w. unfold held_allows, connect. simpl. intros Hw.
  destruct ws0 as [i |]; simpl; [exact Hw |].
  destruct isConnecting0; simpl; [exact Hw |].
  destruct ctor as [e |]; simpl; [| reflexivity].
  unfold scheduleReconnect. simpl.
  destruct reconnectTimer0; simpl; intros [k Hk]; discriminate.
Qed.

Lemma disconnect_drops_socket (w : World) : ws (this (disconnect w)) = None.
Proof.
  unfold disconnect.
  destruct (ws (this (cleanup (set_shouldReconnect false w)))) eqn:Hws;
    [reflexivity | exact Hws].
Qed.

Lemma disconnect_keeps_isConnecting (w : World) :
  isConnecting (this (disconnect w)) = isConnecting (this w).
Proof.
  unfold disconnect.
  destruct (cleanup_fields (set_shouldReconnect false w)) as (_ & _ & Hic & _).
  destruct (ws (this (cleanup (set_shouldReconnect false w)))) as [i |].
  - destruct (socket_close_timers i (cleanup (set_shouldReconnect false w)))
      as [_ Hthis].
    simpl. rewrite Hthis, Hic. reflexivity.
  - rewrite Hic. reflexivity.
Qed.

Lemma on_close_held_allows (w : World) : held_allows w -> held_allows (on_close w).
Proof.
  open_world w. unfold held_allows, on_close, cleanup, scheduleReconnect.
  destruct pingInterval0, reconnectTimer0, shouldReconnect0; simpl; tauto.
Qed.

(** A call of [connect()] that passes the guard sets the flag, whatever
    the socket constructor then does. *)
Lemma connect_past_guard (ctor : option exn) (w : World) :
  ws (this w) = None -> isConnecting (this w) = false ->
  shouldReconnect (this (connect ctor w)) = true.
Proof.
  intros Hws Hc. open_world w. simpl in *. subst.
  unfold connect. simpl. destruct ctor; [| reflexivity].
  unfold scheduleReconnect. simpl. destruct reconnectTimer0; reflexivity.
Qed.

Section Flag.
Context `{Xml2js}.

Lemma step_held_allows (w : World) (ev : Event) :
  held_allows w -> held_allows (step w ev).
Proof.
  intros Hw. unfold step. destruct (enabled ev w); [| exact Hw].
  destruct ev as [ctor | | i | i data | i e | i | t ctor | j]; simpl.
  - apply connect_held_allows, Hw.
  - unfold held_allows. rewrite disconnect_drops_socket. intros [k Hk]. discriminate.
  - exact Hw.
  - exact Hw.
  - exact Hw.
  - apply on_close_held_allows. exact Hw.
  - unfold reconnect. apply connect_held_allows.
    unfold held_allows. simpl. intros [k Hk]. discriminate.
  - unfold ping_tick. destruct (ws (this w)); [| exact Hw].
    destruct (bool_decide _); exact Hw.
Qed.

Lemma reachable_held_allows (h : string) (p : option Z) (w : World) :
  reachable h p w -> held_allows w.
Proof.
  intros [evs ->]. induction evs as [| ev evs IH] using rev_ind.
  - intros [k Hk]. discriminate.
  - rewrite run_snoc. apply step_held_allows, IH.
Qed.

(** X22 (the part of C9 that holds): in a reachable state, a call of
    [connect()] made while no socket is held and no attempt is marked in
    progress sets the reconnect flag, whatever the socket constructor
    then does; a call made while a socket is held changes nothing, and
    the flag is set then already.  In particular [connect()] after
    [disconnect()] sets the flag again once [isConnecting] is clear. *)
Theorem connect_allows_reconnect
    (h : string) (p : option Z) (w : World) (ctor : option exn) :
  reachable h p w ->
  (ws (this w) = None -> isConnecting (this w) = false ->
   shouldReconnect (this (step w (call_connect ctor))) = true)
  /\ (is_Some (ws (this w)) ->
      step w (call_connect ctor) = w /\ shouldReconnect (this w) = true)
  /\ (isConnecting (this w) = false ->
      shouldReconnect (this (step w call_disconnect)) = false
      /\ shouldReconnect
           (this (step (step w call_disconnect) (call_connect ctor))) = true).
Proof.
  intros Hw. apply reachable_held_allows in Hw.
  change (step w (call_connect ctor)) with (connect ctor w).
  change (step w call_disconnect) with (disconnect w).
  change (step (disconnect w) (call_connect ctor)) with (connect ctor (disconnect w)).
  split; [| split].
  - apply connect_past_guard.
  - intros Hheld. split; [| exact (Hw Hheld)].
    unfold connect. rewrite (bool_decide_eq_true_2 _ Hheld). reflexivity.
  - intros Hc. split.
    + unfold disconnect.
      destruct (cleanup_fields (set_shouldReconnect false w)) as (_ & _ & _ & Hflag).
      destruct (ws (this (cleanup (set_shouldReconnect false w)))) as [i |].
      * destruct (socket_close_timers i (cleanup (set_shouldReconnect false w)))
          as [_ Hthis].
        simpl. rewrite Hthis, Hflag. reflexivity.
      * rewrite Hflag. reflexivity.
    + apply connect_past_guard; [apply disconnect_drops_socket |].
      rewrite disconnect_keeps_isConnecting. exact Hc.
Qed.

End Flag.

(** A stream that has connected. *)
Definition streaming : World :=
  @run RefXml2js.codec [call_connect None; socket_open 0] idle.

Lemma connect_allows_reconnect_witness :
  (ws (this streaming) = None -> isConnecting (this streaming) = false ->
   shouldReconnect (this (@step RefXml2js.codec streaming (call_connect None))) = true)
  /\ (is_Some (ws (this streaming)) ->
      @step RefXml2js.codec streaming (call_connect None) = streaming
      /\ shouldReconnect (this streaming) = true)
  /\ (isConnecting (this streaming) = false ->
      shouldReconnect (this (@step RefXml2js.codec streaming call_disconnect)) = false
      /\ shouldReconnect
           (this (@step RefXml2js.codec
                    (@step RefXml2js.codec streaming call_disconnect)
                    (call_connect None))) = true).
Proof.
  apply (@connect_allows_reconnect RefXml2js.codec "192.168.1.20" None streaming None).
  exists [call_connect None; socket_open 0]. reflexivity.
Defined.

Example reconnect_after_disconnect_when_connected :
  shouldReconnect
    (this (@run RefXml2js.codec
             [call_connect None; socket_open 0; call_disconnect; call_connect None] idle))
  = true.
Proof. reflexivity. Qed.

(** C9: [connect()] after [disconnect()] does not always allow
    reconnection again.  On a fresh stream, [connect()] starts the
    handshake of socket 0 and [disconnect()] is called before it opens.
    [disconnect()] clears [ws], which is what lets a later [connect()]
    pass the first half of its guard, but unlike the open handler, the
    close handler and the catch path it leaves [isConnecting] set.  The
    next [connect()] therefore returns at the guard: the flag stays
    false and no socket is made.  When the close of socket 0 then
    arrives, nothing is scheduled: the stream stays down although
    [connect()] was the last call made.  Only a [connect()] made after
    that close is taken up. *)
Theorem connect_after_disconnect_is_ignored :
  let w := @run RefXml2js.codec [call_connect None; call_disconnect] idle in
  let w1 := @step RefXml2js.codec w (call_connect None) in
  let w2 := @step RefXml2js.codec w1 (socket_closed 0) in
  let w3 := @step RefXml2js.codec w2 (call_connect None) in
  reachable (H := RefXml2js.codec) "192.168.1.20" None w
  /\ (ws (this w) = None
      /\ isConnecting (this w) = true
      /\ shouldReconnect (this w) = false)
  /\ (w1 = w
      /\ shouldReconnect (this w1) = false
      /\ map readyState (sockets w1) = [CLOSING])
  /\ (ws (this w2) = None
      /\ isConnecting (this w2) = false
      /\ shouldReconnect (this w2) = false
      /\ timeouts w2 = []
      /\ map readyState (sockets w2) = [CLOSED])
  /\ (shouldReconnect (this w3) = true
      /\ map readyState (sockets w3) = [CLOSED; CONNECTING]).
Proof.
  split; [| vm_compute; repeat split].
  exists [call_connect None; call_disconnect]. reflexivity.
Qed.

(** A frame that parses, with a second part that lacks its structure:
    the first part has been emitted when the decoding stops. *)
Example frame_broken_after_volume :
  @handleMessage RefXml2js.codec
    ("<updates deviceID='A0F6FD5D1C2B'><volumeUpdated><volume>"
       +:+ "<targetvolume>31</targetvolume><actualvolume>30</actualvolume>"
       +:+ "<muteenabled>false</muteenabled></volume></volumeUpdated>"
       +:+ "<nowPlayingUpdated><unexpected/></nowPlayingUpdated>"
       +:+ "<bassUpdated><bass><targetbass>0</targetbass><actualbass>0</actualbass>"
       +:+ "</bass></bassUpdated></updates>")
  = [volumeUpdated {| targetvolume := Fin 31; actualvolume := Fin 30; muteenabled := false |}].
Proof. vm_compute. reflexivity. Qed.

(** ** A lost connection

    What [connect] and the reconnect timer do once an open socket
    closes. *)

Section Cycle.
Context `{Xml2js}.

(** The socket [connect] makes for this stream. *)
Definition fresh_socket (w : World) : WebSocket :=
  {| url := "ws://" +:+ host (this w) +:+ ":" +:+ pretty (port (this w));
     protocol := "gabbo";
     readyState := CONNECTING |}.

Lemma closed_arms_timer (w : World) (i : nat) :
  timer_tracked w ->
  shouldReconnect (this w) = true ->
  let w1 := on_close (mark i CLOSED w) in
  timeouts w1 = [next_handle w]
  /\ reconnectTimer (this w1) = Some (next_handle w)
  /\ pingInterval (this w1) = None
  /\ isConnecting (this w1) = false
  /\ shouldReconnect (this w1) = true
  /\ ws (this w1) = ws (this w)
  /\ host (this w1) = host (this w)
  /\ port (this w1) = port (this w)
  /\ sockets w1 = alter (set_readyState CLOSED) i (sockets w)
  /\ emitted w1 = emitted w ++ [disconnected]
  /\ pinged w1 = pinged w
  /\ next_handle w1 = S (next_handle w).
Proof.
  open_world w. unfold timer_tracked. simpl. intros -> ->.
  unfold on_close, cleanup, scheduleReconnect.
  destruct pingInterval0, reconnectTimer0; simpl; rewrite ?filter_ne_singleton;
    repeat split; reflexivity.
Qed.

(** X7: a lost connection is taken up again, every time.  In a
    reachable state whose socket is open, when that socket closes the
    stream emits [disconnected], is no longer connected and arms exactly
    one timer.  When the timer fires a new socket is made for the same
    address and nothing is emitted; once that socket opens the stream is
    connected again, [connected] has been emitted, reconnection is still
    allowed and there is one socket more than before, so the same holds
    for the next loss.  If instead the socket constructor throws when
    the timer fires, the error is emitted, no socket is made and the
    next timer is armed: there is no last attempt. *)
Theorem close_leads_to_reconnect
    (h : string) (p : option Z) (w : World) (i : nat) (e : exn) :
  reachable h p w ->
  ws (this w) = Some i ->
  readyState_of w i = Some OPEN ->
  let t := next_handle w in
  let j := length (sockets w) in
  let w1 := step w (socket_closed i) in
  let w2 := step w1 (timeout_fires t None) in
  let w3 := step w2 (socket_open j) in
  let w2' := step w1 (timeout_fires t (Some e)) in
  (isConnected w1 = false
   /\ timeouts w1 = [t]
   /\ emitted w1 = emitted w ++ [disconnected])
  /\ (sockets w2 = sockets w1 ++ [fresh_socket w]
      /\ ws (this w2) = Some j
      /\ timeouts w2 = []
      /\ emitted w2 = emitted w1)
  /\ (isConnected w3 = true
      /\ shouldReconnect (this w3) = true
      /\ emitted w3 = emitted w ++ [disconnected; connected]
      /\ length (sockets w3) = S (length (sockets w)))
  /\ (sockets w2' = sockets w1
      /\ timeouts w2' = [S t]
      /\ emitted w2' = emitted w1 ++ [error e]).
Proof.
  intros Hreach Hws Hopen t j w1 w2 w3 w2'.
  pose proof (reachable_tracked h p w Hreach) as Htracked.
  pose proof (reachable_held_allows h p w Hreach) as Hheld.
  assert (Hflag : shouldReconnect (this w) = true) by (apply Hheld; rewrite Hws; eauto).
  assert (Hw1 : w1 = on_close (mark i CLOSED w)).
  { subst w1. unfold step. cbn [enabled]. rewrite Hopen.
    rewrite bool_decide_eq_true_2; [reflexivity |]. split; [eauto | discriminate]. }
  destruct (closed_arms_timer w i Htracked Hflag)
    as (Ht1 & Hr1 & Hp1 & Hc1 & Hf1 & Hws1 & Hh1 & Hpo1 & Hs1 & He1 & Hpi1 & Hn1).
  rewrite <- Hw1 in Ht1, Hr1, Hp1, Hc1, Hf1, Hws1, Hh1, Hpo1, Hs1, He1, Hpi1, Hn1.
  assert (Hlen1 : length (sockets w1) = j) by (rewrite Hs1; apply length_alter).
  assert (Hi : (i < j)%nat).
  { unfold readyState_of in Hopen. destruct (sockets w !! i) as [s |] eqn:Hs; [| discriminate].
    apply lookup_lt_Some in Hs. exact Hs. }
  split.
  { split; [| split; assumption].
    unfold isConnected. rewrite Hws1, Hws. apply bool_decide_eq_false_2.
    unfold readyState_of. rewrite Hs1, list_lookup_alter_eq.
    unfold readyState_of in Hopen.
    destruct (sockets w !! i) as [s |]; [discriminate | discriminate]. }
  assert (Hen : enabled (timeout_fires t None) w1 = true
                /\ enabled (timeout_fires t (Some e)) w1 = true).
  { cbn [enabled]. rewrite Ht1. split; apply bool_decide_eq_true_2; left. }
  destruct Hen as [Hen Hen'].
  assert (Hw2 : w2 = set_ws (Some j)
                       (set_sockets (sockets w1 ++ [fresh_socket w])
                          (set_shouldReconnect true (set_isConnecting true
                             (set_ws None (set_reconnectTimer None (disarm t w1))))))).
  { subst w2. unfold step. rewrite Hen. cbn [fire]. unfold reconnect, connect.
    cbn [set_ws set_reconnectTimer disarm this ws isConnecting].
    rewrite Hc1. cbn [bool_decide decide_rel orb].
    rewrite bool_decide_eq_false_2 by (intros [x Hx]; discriminate).
    cbn [orb]. unfold fresh_socket. cbn. rewrite Hh1, Hpo1, Hlen1. reflexivity. }
  split.
  { rewrite Hw2. cbn. rewrite Ht1, filter_ne_singleton. auto. }
  assert (Hready : readyState_of w2 j = Some CONNECTING).
  { rewrite Hw2. unfold readyState_of. cbn.
    rewrite lookup_app_r by lia. rewrite Hlen1, Nat.sub_diag. reflexivity. }
  assert (Hw3 : w3 = on_open (mark j OPEN w2)).
  { subst w3. unfold step. cbn [enabled]. rewrite Hready.
    rewrite bool_decide_eq_true_2 by reflexivity. reflexivity. }
  split.
  { rewrite Hw3, Hw2. unfold isConnected, readyState_of, on_open, startPing. cbn.
    rewrite list_lookup_alter_eq, lookup_app_r by lia. rewrite Hlen1, Nat.sub_diag. cbn.
    rewrite length_alter, length_app, Hlen1, He1, <- app_assoc. cbn.
    split; [apply bool_decide_eq_true_2; reflexivity |].
    split; [reflexivity |]. split; [reflexivity | lia]. }
  subst w2'. unfold step. rewrite Hen'. cbn [fire]. unfold reconnect, connect.
  cbn [set_ws set_reconnectTimer disarm this ws isConnecting].
  rewrite Hc1. rewrite bool_decide_eq_false_2 by (intros [x Hx]; discriminate).
  cbn [orb]. unfold scheduleReconnect. cbn. rewrite Ht1, filter_ne_singleton, Hn1.
  auto.
Qed.

End Cycle.

Lemma close_leads_to_reconnect_witness :
  (isConnected (@step RefXml2js.codec streaming (socket_closed 0)) = false
   /\ timeouts (@step RefXml2js.codec streaming (socket_closed 0)) = [1%nat]
   /\ emitted (@step RefXml2js.codec streaming (socket_closed 0))
      = emitted streaming ++ [disconnected])
  /\ (sockets (@run RefXml2js.codec [socket_closed 0; timeout_fires 1 None] streaming)
      = sockets (@step RefXml2js.codec streaming (socket_closed 0))
          ++ [fresh_socket streaming]
      /\ ws (this (@run RefXml2js.codec [socket_closed 0; timeout_fires 1 None] streaming))
         = Some 1%nat
      /\ timeouts (@run RefXml2js.codec [socket_closed 0; timeout_fires 1 None] streaming)
         = []
      /\ emitted (@run RefXml2js.codec [socket_closed 0; timeout_fires 1 None] streaming)
         = emitted (@step RefXml2js.codec streaming (socket_closed 0)))
  /\ (isConnected
        (@run RefXml2js.codec [socket_closed 0; timeout_fires 1 None; socket_open 1]
           streaming) = true
      /\ shouldReconnect
           (this (@run RefXml2js.codec
                    [socket_closed 0; timeout_fires 1 None; socket_open 1] streaming))
         = true
      /\ emitted
           (@run RefXml2js.codec [socket_closed 0; timeout_fires 1 None; socket_open 1]
              streaming)
         = emitted streaming ++ [disconnected; connected]
      /\ length
           (sockets
              (@run RefXml2js.codec [socket_closed 0; timeout_fires 1 None; socket_open 1]
                 streaming))
         = Datatypes.S (length (sockets streaming)))
  /\ (sockets
        (@run RefXml2js.codec
           [socket_closed 0; timeout_fires 1 (Some (Error "connect EHOSTUNREACH"))]
           streaming)
      = sockets (@step RefXml2js.codec streaming (socket_closed 0))
      /\ timeouts
           (@run RefXml2js.codec
              [socket_closed 0; timeout_fires 1 (Some (Error "connect EHOSTUNREACH"))]
              streaming)
         = [2%nat]
      /\ emitted
           (@run RefXml2js.codec
              [socket_closed 0; timeout_fires 1 (Some (Error "connect EHOSTUNREACH"))]
              streaming)
         = emitted (@step RefXml2js.codec streaming (socket_closed 0))
             ++ [error (Error "connect EHOSTUNREACH")]).
Proof.
  apply (@close_leads_to_reconnect RefXml2js.codec "192.168.1.20" None streaming 0%nat
           (Error "connect EHOSTUNREACH")).
  - exists [call_connect None; socket_open 0]. reflexivity.
  - reflexivity.
  - reflexivity.
Defined.

(** Three losses in a row: three more attempts, each after its own
    timer, and never two timers at once. *)
Example three_losses :
  let w := @run RefXml2js.codec
             [socket_closed 0; timeout_fires 1 None; socket_open 1;
              socket_closed 1; timeout_fires 3 None; socket_open 2;
              socket_closed 2; timeout_fires 5 None; socket_open 3] streaming in
  length (sockets w) = 4%nat /\ isConnected w = true /\ timeouts w = [].
Proof. vm_compute. repeat split. Qed.

(** ** What a frame makes the stream emit *)

(** The place of an update event in the body of [handleMessage]; the
    connection events have none. *)
Definition update_rank (ev : Emitted) : option nat :=
  match ev with
  | volumeUpdated _ => Some 0%nat
  | nowPlayingUpdated _ => Some 1%nat
  | presetUpdated _ => Some 2%nat
  | zoneUpdated _ => Some 3%nat
  | bassUpdated _ => Some 4%nat
  | connectionStateUpdated _ => Some 5%nat
  | error _ | connected | disconnected => None
  end.

(** [m] appends to the log, and what it appends are update events whose
    ranks form a subsequence of [ranks]. *)
Definition emits (ranks : list nat) {A} (m : emitting A) : Prop :=
  forall log, exists evs rs,
    (m log).2 = log ++ evs
    /\ map update_rank evs = map Some rs
    /\ sublist rs ranks.

Lemma emits_eret {A} (a : A) : emits [] (eret a).
Proof.
  intros log. exists [], []. rewrite app_nil_r. repeat split. apply sublist_nil_l.
Qed.

Lemma emits_elift {A} (m : res A) : emits [] (elift m).
Proof.
  intros log. exists [], []. rewrite app_nil_r. repeat split. apply sublist_nil_l.
Qed.

Lemma emits_emit (ev : Emitted) (r : nat) :
  update_rank ev = Some r -> emits [r] (emit ev).
Proof.
  intros Hr log. exists [ev], [r]. cbn. rewrite Hr. repeat split. reflexivity.
Qed.

Lemma emits_ebind {A B} (r1 r2 : list nat) (m : emitting A) (f : A -> emitting B) :
  emits r1 m -> (forall a, emits r2 (f a)) -> emits (r1 ++ r2) (ebind m f).
Proof.
  intros Hm Hf log. unfold ebind.
  destruct (Hm log) as (evs1 & rs1 & Hlog1 & Hmap1 & Hsub1).
  destruct (m log) as [[e | a] log1]; cbn [snd] in Hlog1; subst log1.
  - exists evs1, rs1. cbn [snd]. split; [reflexivity |]. split; [exact Hmap1 |].
    apply sublist_inserts_r, Hsub1.
  - destruct (Hf a (log ++ evs1)) as (evs2 & rs2 & Hlog2 & Hmap2 & Hsub2).
    exists (evs1 ++ evs2), (rs1 ++ rs2). rewrite Hlog2, app_assoc, !map_app, Hmap1, Hmap2.
    split; [reflexivity |]. split; [reflexivity |]. apply sublist_app; assumption.
Qed.

Lemma emits_lifted {A B} (rs : list nat) (m : res A) (f : A -> emitting B) :
  (forall a, emits rs (f a)) -> emits rs (ebind (elift m) f).
Proof. intros Hf. apply (emits_ebind [] rs); [apply emits_elift | exact Hf]. Qed.

Lemma emits_when (rs : list nat) (b : bool) (m : emitting unit) :
  emits rs m -> emits rs (when b m).
Proof.
  intros Hm. destruct b; [exact Hm |]. intros log. exists [], []. rewrite app_nil_r.
  repeat split. apply sublist_nil_l.
Qed.

Ltac segment :=
  repeat (apply emits_lifted; intros ?); apply emits_when;
  repeat (apply emits_lifted; intros ?); apply emits_emit; reflexivity.

Section Segments.
Context `{Xml2js}.

Lemma handleMessage_body_emits (data : string) :
  emits [0; 1; 2; 3; 4; 5]%nat (handleMessage_body data).
Proof.
  unfold handleMessage_body.
  apply emits_lifted. intros result. apply emits_lifted. intros updates.
  apply emits_when.
  apply (emits_ebind [0%nat] [1; 2; 3; 4; 5]%nat);
    [unfold onVolumeUpdated; segment | intros _].
  apply (emits_ebind [1%nat] [2; 3; 4; 5]%nat);
    [unfold onNowPlayingUpdated; segment | intros _].
  apply (emits_ebind [2%nat] [3; 4; 5]%nat);
    [unfold onPresetsUpdated; segment | intros _].
  apply (emits_ebind [3%nat] [4; 5]%nat);
    [unfold onZoneUpdated; segment | intros _].
  apply (emits_ebind [4%nat] [5%nat]);
    [unfold onBassUpdated; segment | intros _].
  unfold onConnectionStateUpdated. segment.
Qed.

(** X8: whatever a frame holds and whatever the parser makes of it,
    the stream emits for it at most one event of each kind of update, in
    the order volume, now playing, presets, zone, bass, connection state,
    and never [error], [connected] or [disconnected].  Delivering a frame
    changes nothing else: not the fields of the stream, not its sockets,
    timers or heartbeat. *)
Theorem frame_emits_updates_in_order (data : string) :
  (exists ranks : list nat,
      map update_rank (handleMessage data) = map Some ranks
      /\ sublist ranks [0; 1; 2; 3; 4; 5]%nat)
  /\ (forall (w : World) (i : nat),
        let w' := step w (socket_message i data) in
        this w' = this w
        /\ sockets w' = sockets w
        /\ timeouts w' = timeouts w
        /\ intervals w' = intervals w
        /\ pinged w' = pinged w
        /\ (emitted w' = emitted w
            \/ emitted w' = emitted w ++ handleMessage data)).
Proof.
  split.
  - destruct (handleMessage_body_emits data []) as (evs & rs & Hlog & Hmap & Hsub).
    exists rs. unfold handleMessage, try_catch. rewrite Hlog. auto.
  - intros w i w'. subst w'. unfold step.
    destruct (enabled _ w); [| repeat split; auto].
    cbn [fire]. unfold on_message, emit_all. cbn. repeat split; auto.
Qed.

End Segments.

End EventStreamFacts.

(* ===================================================================== *)
(** * Properties of discovery *)
(* ===================================================================== *)

Module DiscoveryFacts.
Import Discovery.

(** ** Which address becomes the host *)

Lemma find_skips (pre : list string) (a : string) (post : list string) :
  Forall (fun addr => includes_colon addr = true) pre ->
  includes_colon a = false ->
  find (fun addr => negb (includes_colon addr)) (pre ++ a :: post) = Some a.
Proof.
  intros Hpre Ha. induction Hpre as [| b pre Hb _ IH]; simpl.
  - rewrite Ha. reflexivity.
  - rewrite Hb. simpl. exact IH.
Qed.

Lemma find_none (l : list string) :
  Forall (fun addr => includes_colon addr = true) l ->
  find (fun addr => negb (includes_colon addr)) l = None.
Proof.
  intros Hl. induction Hl as [| b l Hb _ IH]; simpl; [reflexivity |].
  rewrite Hb. simpl. exact IH.
Qed.

(** The first address without a colon, when it is not empty. *)
Lemma selectHost_ipv4 (first : string) (rest pre : list string) (a : string)
    (post : list string) :
  first :: rest = pre ++ a :: post ->
  Forall (fun addr => includes_colon addr = true) pre ->
  includes_colon a = false ->
  a <> "" ->
  selectHost first rest = a.
Proof.
  intros Hsplit Hpre Ha Hne. unfold selectHost.
  rewrite Hsplit, (find_skips pre a post Hpre Ha).
  destruct (String.eqb_spec a ""); [contradiction | reflexivity].
Qed.

(** Otherwise the first address, whatever it is. *)
Lemma selectHost_first (first : string) (rest : list string) :
  Forall (fun addr => includes_colon addr = true) (first :: rest) ->
  selectHost first rest = first.
Proof. intros Hall. unfold selectHost. rewrite (find_none _ Hall). reflexivity. Qed.

Lemma selectHost_empty_first (first : string) (rest pre post : list string) :
  first :: rest = pre ++ "" :: post ->
  Forall (fun addr => includes_colon addr = true) pre ->
  selectHost first rest = first.
Proof.
  intros Hsplit Hpre. unfold selectHost.
  rewrite Hsplit, (find_skips pre "" post Hpre); reflexivity.
Qed.

Lemma handleServiceUp_fresh (service : Service.t) (first : string) (rest : list string) :
  Service.addresses service = Some (first :: rest) ->
  found (handleServiceUp service new_SoundTouchDiscovery) = [deviceOf service first rest].
Proof.
  intros Haddr. unfold handleServiceUp. rewrite Haddr. simpl.
  rewrite lookup_empty. reflexivity.
Qed.

Lemma onService_fresh (service : Service.t) (first : string) (rest : list string) :
  Service.addresses service = Some (first :: rest) ->
  onService service [] = [deviceOf service first rest].
Proof. intros Haddr. unfold onService. rewrite Haddr. reflexivity. Qed.

(** C5, as the code has it: for a service that advertises at least one
    address, both the continuous browser and the one-shot browser give
    the device the first advertised address that contains no colon,
    provided that address is not the empty string; when every address
    contains a colon the host is the first advertised address.  The
    advertised host name is not consulted. *)
Theorem host_is_first_ipv4_else_first_address
    (service : Service.t) (first : string) (rest : list string) :
  Service.addresses service = Some (first :: rest) ->
  exists device : DiscoveredDevice,
    found (handleServiceUp service new_SoundTouchDiscovery) = [device]
    /\ discoverOnce [service] = [device]
    /\ (forall (pre : list string) (a : string) (post : list string),
          first :: rest = pre ++ a :: post ->
          Forall (fun addr => includes_colon addr = true) pre ->
          includes_colon a = false ->
          a <> "" ->
          host device = a)
    /\ (Forall (fun addr => includes_colon addr = true) (first :: rest) ->
        host device = first)
    /\ (forall hostname : string,
          host device =
          host (deviceOf {| Service.name := Service.name service;
                            Service.host := hostname;
                            Service.port := Service.port service;
                            Service.addresses := Service.addresses service;
                            Service.txt := Service.txt service |} first rest)).
Proof.
  intros Haddr. exists (deviceOf service first rest).
  split; [apply handleServiceUp_fresh, Haddr |].
  split; [apply (onService_fresh service first rest Haddr) |].
  split; [| split].
  - intros pre a post Hsplit Hpre Ha Hne. simpl.
    apply (selectHost_ipv4 first rest pre a post); assumption.
  - intros Hall. simpl. apply selectHost_first, Hall.
  - intros hostname. reflexivity.
Qed.

(** A service without addresses is ignored by both browsers. *)
Lemma no_address_no_device (service : Service.t) (d : SoundTouchDiscovery)
    (collected : list DiscoveredDevice) :
  Service.addresses service = None \/ Service.addresses service = Some [] ->
  handleServiceUp service d = d /\ onService service collected = collected.
Proof.
  intros [Haddr | Haddr]; unfold handleServiceUp, onService; rewrite Haddr; auto.
Qed.

(** A speaker announced with an IPv4 and an IPv6 address. *)
Definition dual_stack : Service.t :=
  {| Service.name := "Living Room";
     Service.host := "soundtouch-living.local";
     Service.port := 8090;
     Service.addresses := Some ["fe80::a2f6:fdff:fe5d:1c2b"; "192.168.1.20"];
     Service.txt := Some [("MAC", "A0F6FD5D1C2B")] |}.

(** The same speaker announced with its IPv6 address only. *)
Definition ipv6_only : Service.t :=
  {| Service.name := "Living Room";
     Service.host := "soundtouch-living.local";
     Service.port := 8090;
     Service.addresses := Some ["fe80::a2f6:fdff:fe5d:1c2b"];
     Service.txt := Some [("MAC", "A0F6FD5D1C2B")] |}.

Lemma host_is_first_ipv4_else_first_address_witness :
  exists device : DiscoveredDevice,
    found (handleServiceUp dual_stack new_SoundTouchDiscovery) = [device]
    /\ discoverOnce [dual_stack] = [device]
    /\ (forall (pre : list string) (a : string) (post : list string),
          ["fe80::a2f6:fdff:fe5d:1c2b"; "192.168.1.20"] = pre ++ a :: post ->
          Forall (fun addr => includes_colon addr = true) pre ->
          includes_colon a = false ->
          a <> "" ->
          host device = a)
    /\ (Forall (fun addr => includes_colon addr = true)
          ["fe80::a2f6:fdff:fe5d:1c2b"; "192.168.1.20"] ->
        host device = "fe80::a2f6:fdff:fe5d:1c2b")
    /\ (forall hostname : string,
          host device =
          host (deviceOf {| Service.name := Service.name dual_stack;
                            Service.host := hostname;
                            Service.port := Service.port dual_stack;
                            Service.addresses := Service.addresses dual_stack;
                            Service.txt := Service.txt dual_stack |}
                  "fe80::a2f6:fdff:fe5d:1c2b" ["192.168.1.20"])).
Proof.
  apply (host_is_first_ipv4_else_first_address dual_stack
           "fe80::a2f6:fdff:fe5d:1c2b" ["192.168.1.20"]).
  reflexivity.
Defined.

Example dual_stack_host :
  map host (discoverOnce [dual_stack]) = ["192.168.1.20"].
Proof. reflexivity. Qed.

(** C5 as stated fails: with no IPv4-shaped address the host is the
    IPv6 address, not the advertised host name. *)
Lemma hostname_fallback_counterexample :
  map host (found (handleServiceUp ipv6_only new_SoundTouchDiscovery))
    = ["fe80::a2f6:fdff:fe5d:1c2b"]
  /\ map host (discoverOnce [ipv6_only]) = ["fe80::a2f6:fdff:fe5d:1c2b"]
  /\ map host (found (handleServiceUp ipv6_only new_SoundTouchDiscovery))
     <> [Service.host ipv6_only].
Proof. vm_compute. repeat split. discriminate. Qed.

Import Browsing.

(** ** One device per address *)

Definition address (d : DiscoveredDevice) : string * Z := (host d, port d).

(** The device a service stands for, if it advertises an address. *)
Definition announced (service : Service.t) : option DiscoveredDevice :=
  match Service.addresses service with
  | Some (first :: rest) => Some (deviceOf service first rest)
  | _ => None
  end.

Lemma existsb_address (device : DiscoveredDevice) (collected : list DiscoveredDevice) :
  existsb (fun d => String.eqb (host d) (host device) && (port d =? port device)%Z) collected
  = bool_decide (address device ∈ map address collected).
Proof.
  induction collected as [| d l IH]; cbn [existsb map].
  - symmetry. apply bool_decide_eq_false_2. apply not_elem_of_nil.
  - rewrite IH. clear IH.
    destruct (String.eqb_spec (host d) (host device)) as [Hh | Hh];
      [destruct (Z.eqb_spec (port d) (port device)) as [Hp | Hp] |]; cbn [andb orb].
    + symmetry. apply bool_decide_eq_true_2. unfold address at 2. rewrite Hh, Hp. left.
    + apply bool_decide_ext. rewrite elem_of_cons.
      split; [auto |]. intros [Heq | Hin]; [| exact Hin].
      unfold address in Heq. congruence.
    + apply bool_decide_ext. rewrite elem_of_cons.
      split; [auto |]. intros [Heq | Hin]; [| exact Hin].
      unfold address in Heq. congruence.
Qed.

Lemma onService_announced (service : Service.t) (collected : list DiscoveredDevice) :
  onService service collected =
    match announced service with
    | Some device =>
        if bool_decide (address device ∈ map address collected) then collected
        else collected ++ [device]
    | None => collected
    end.
Proof.
  unfold onService, announced.
  destruct (Service.addresses service) as [[| first rest] |]; try reflexivity.
  rewrite existsb_address. reflexivity.
Qed.

Lemma discoverOnce_snoc (reported : list Service.t) (service : Service.t) :
  discoverOnce (reported ++ [service]) = onService service (discoverOnce reported).
Proof. unfold discoverOnce. rewrite foldl_app. reflexivity. Qed.

Lemma onService_prefix (service : Service.t) (collected : list DiscoveredDevice) :
  collected `prefix_of` onService service collected.
Proof.
  rewrite onService_announced. destruct (announced service) as [device |]; [| reflexivity].
  destruct (bool_decide _); [reflexivity | apply prefix_app_r; reflexivity].
Qed.

Lemma discoverOnce_prefix (reported more : list Service.t) :
  discoverOnce reported `prefix_of` discoverOnce (reported ++ more).
Proof.
  induction more as [| service more IH] using rev_ind.
  - rewrite app_nil_r. reflexivity.
  - rewrite app_assoc, discoverOnce_snoc. etrans; [exact IH | apply onService_prefix].
Qed.

(** X3: whatever services the browser reports before the timeout,
    [discoverOnce] resolves to a list with no two devices of the same
    host and port; every device in it was built from a reported service,
    every reported service that advertises an address is represented by
    a device of its host and port, and a device once collected is never
    replaced or moved by a later report (the first announcement of an
    address wins). *)
Theorem discoverOnce_one_device_per_address (reported : list Service.t) :
  NoDup (map address (discoverOnce reported))
  /\ (forall device, device ∈ discoverOnce reported ->
        exists service, service ∈ reported /\ announced service = Some device)
  /\ (forall service device, service ∈ reported -> announced service = Some device ->
        address device ∈ map address (discoverOnce reported))
  /\ (forall more, discoverOnce reported `prefix_of` discoverOnce (reported ++ more)).
Proof.
  split; [| split; [| split; [| apply discoverOnce_prefix]]].
  - induction reported as [| service reported Hnodup] using rev_ind; [constructor |].
    rewrite discoverOnce_snoc, onService_announced.
    destruct (announced service) as [device |]; [| exact Hnodup].
    destruct (bool_decide_reflect (address device ∈ map address (discoverOnce reported)))
      as [Hin | Hnin]; [exact Hnodup |].
    rewrite map_app. apply NoDup_app. split; [exact Hnodup |].
    split; [| apply NoDup_singleton].
    intros a Ha Ha'. apply list_elem_of_singleton in Ha'. subst a. contradiction.
  - induction reported as [| service reported Hsound] using rev_ind.
    { intros device Hin. apply elem_of_nil in Hin. contradiction. }
    intros device. rewrite discoverOnce_snoc, onService_announced.
    assert (Hold : device ∈ discoverOnce reported ->
                   exists s, s ∈ reported ++ [service] /\ announced s = Some device).
    { intros Hd. destruct (Hsound device Hd) as (s & Hs & Hsd).
      exists s. split; [apply elem_of_app; left; exact Hs | exact Hsd]. }
    destruct (announced service) as [device' |] eqn:Hann; [| exact Hold].
    destruct (bool_decide _); [exact Hold |].
    intros Hd. apply elem_of_app in Hd as [Hd | Hd]; [exact (Hold Hd) |].
    apply list_elem_of_singleton in Hd. subst device'.
    exists service. split; [apply elem_of_app; right; left | exact Hann].
  - induction reported as [| service reported Hcomplete] using rev_ind.
    { intros service device Hin. apply elem_of_nil in Hin. contradiction. }
    intros s device Hs Hsd.
    pose proof (discoverOnce_prefix reported [service]) as [more Hmore].
    apply elem_of_app in Hs as [Hs | Hs].
    + rewrite Hmore, map_app. apply elem_of_app. left. apply (Hcomplete s device Hs Hsd).
    + apply list_elem_of_singleton in Hs. subst s.
      rewrite discoverOnce_snoc, onService_announced, Hsd.
      destruct (bool_decide_reflect (address device ∈ map address (discoverOnce reported)))
        as [Hin | Hnin]; [exact Hin |].
      rewrite map_app. apply elem_of_app. right. left.
Qed.

(** ** The key of a tracked device *)

Lemma includes_colon_pretty_N_go (x : N) (s : string) :
  includes_colon (pretty_N_go x s) = includes_colon s.
Proof.
  revert s. induction (N.lt_wf_0 x) as [x _ IH]. intros s.
  destruct (N.eq_dec x 0%N) as [-> | Hx]; [reflexivity |].
  rewrite pretty_N_go_step by lia.
  rewrite IH by (apply N.div_lt; lia). cbn [includes_colon].
  assert (Hmod : (x `mod` 10 < 10)%N) by (apply N.mod_lt; lia).
  destruct (JsFacts.pretty_N_char_plain _ Hmod) as (_ & _ & _ & Hcolon).
  destruct (Ascii.eqb_spec (pretty_N_char (x `mod` 10)) ":"); [contradiction | reflexivity].
Qed.

Lemma includes_colon_pretty (p : Z) : includes_colon (pretty p) = false.
Proof.
  destruct p as [| p | p].
  - reflexivity.
  - apply (includes_colon_pretty_N_go (N.pos p) "").
  - change (pretty (Z.neg p)) with (String "-" (pretty_N_go (N.pos p) "")).
    cbn [includes_colon]. apply (includes_colon_pretty_N_go (N.pos p) "").
Qed.

Lemma includes_colon_after (h rest : string) : includes_colon (h +:+ String ":" rest) = true.
Proof.
  induction h as [| c h IH]; [reflexivity |].
  change (String c h +:+ String ":" rest) with (String c (h +:+ String ":" rest)).
  cbn [includes_colon]. rewrite IH. apply orb_true_r.
Qed.

Lemma split_at_last_colon (h1 h2 r1 r2 : string) :
  includes_colon r1 = false -> includes_colon r2 = false ->
  h1 +:+ String ":" r1 = h2 +:+ String ":" r2 -> h1 = h2 /\ r1 = r2.
Proof.
  intros Hr1 Hr2. revert h2. induction h1 as [| c h1 IH]; intros [| c2 h2];
    rewrite ?RefXml2jsFacts.app_nil_l, ?RefXml2jsFacts.app_cons; intros Heq.
  - injection Heq as Heq. auto.
  - exfalso. injection Heq as <- Heq.
    rewrite Heq, includes_colon_after in Hr1. discriminate.
  - exfalso. injection Heq as -> Heq.
    rewrite <- Heq, includes_colon_after in Hr2. discriminate.
  - injection Heq as -> Heq. destruct (IH _ Heq) as [-> ->]. auto.
Qed.

(** The key names the host and the port: the digits of the port hold
    no colon, so the last colon of a key is the separator, also for an
    IPv6 host. *)
Lemma keyOf_inj (h1 h2 : string) (p1 p2 : Z) :
  keyOf h1 p1 = keyOf h2 p2 -> h1 = h2 /\ p1 = p2.
Proof.
  unfold keyOf. intros Heq.
  destruct (split_at_last_colon h1 h2 (pretty p1) (pretty p2)) as [Hh Hp];
    [apply includes_colon_pretty | apply includes_colon_pretty | exact Heq |].
  split; [exact Hh | apply (inj pretty), Hp].
Qed.

Definition key_of_device (device : DiscoveredDevice) : string :=
  keyOf (host device) (port device).

Lemma key_among (device : DiscoveredDevice) (l : list DiscoveredDevice) :
  key_of_device device ∈ map key_of_device l <-> address device ∈ map address l.
Proof.
  rewrite !list_elem_of_fmap. split; intros (d & Heq & Hin); exists d; split; try exact Hin.
  - destruct (keyOf_inj _ _ _ _ Heq) as [Hh Hp]. unfold address. congruence.
  - unfold address in Heq. unfold key_of_device. congruence.
Qed.

Lemma handleServiceUp_announced (service : Service.t) (d : SoundTouchDiscovery) :
  handleServiceUp service d =
    match announced service with
    | Some device =>
        match devices d !! key_of_device device with
        | Some _ => d
        | None =>
            {| devices := <[key_of_device device := device]> (devices d);
               found := found d ++ [device];
               lost := lost d |}
        end
    | None => d
    end.
Proof.
  unfold handleServiceUp, announced.
  destruct (Service.addresses service) as [[| first rest] |]; reflexivity.
Qed.

(** ** Continuous mode and one-shot mode *)

(** Without losses, the stored keys are those of the devices found. *)
Definition keys_of_found (d : SoundTouchDiscovery) : Prop :=
  forall key, is_Some (devices d !! key) <-> key ∈ map key_of_device (found d).

Lemma handleServiceUp_onService (service : Service.t) (d : SoundTouchDiscovery) :
  keys_of_found d ->
  keys_of_found (handleServiceUp service d)
  /\ found (handleServiceUp service d) = onService service (found d).
Proof.
  intros Hkeys. rewrite handleServiceUp_announced, onService_announced.
  destruct (announced service) as [device |]; [| auto].
  pose proof (Hkeys (key_of_device device)) as Hkey. rewrite key_among in Hkey.
  destruct (devices d !! key_of_device device) as [old |] eqn:Hlook.
  - rewrite bool_decide_eq_true_2 by (apply Hkey; eauto). auto.
  - rewrite bool_decide_eq_false_2
      by (intros Hin; apply Hkey in Hin; destruct Hin; discriminate).
    split; [| reflexivity].
    intros key. cbn [devices found]. rewrite map_app, elem_of_app. cbn [map].
    rewrite list_elem_of_singleton, <- (Hkeys key).
    destruct (decide (key = key_of_device device)) as [-> | Hne].
    + rewrite lookup_insert_eq. split; eauto.
    + rewrite lookup_insert_ne by congruence. tauto.
Qed.

Lemma start_snoc (reported : list BrowserEvent) (ev : BrowserEvent) :
  start (reported ++ [ev]) = on_browser_event (start reported) ev.
Proof. unfold start. rewrite foldl_app. reflexivity. Qed.

Lemma start_ups (reported : list Service.t) :
  keys_of_found (start (map service_up reported))
  /\ found (start (map service_up reported)) = discoverOnce reported.
Proof.
  induction reported as [| service reported IH] using rev_ind.
  - split; [| reflexivity]. intros key.
    change (devices (start (map service_up []))) with (∅ : gmap string DiscoveredDevice).
    rewrite lookup_empty. split; [intros [x Hx]; discriminate |].
    intros Hin. apply elem_of_nil in Hin. contradiction.
  - destruct IH as [Hkeys Hfound].
    rewrite map_app. cbn [map]. rewrite start_snoc, discoverOnce_snoc.
    cbn [on_browser_event].
    destruct (handleServiceUp_onService service _ Hkeys) as [Hkeys' Hfound'].
    split; [exact Hkeys' |]. rewrite Hfound', Hfound. reflexivity.
Qed.

(** X4: the two modes agree.  When the browser reports the same
    services, the devices the continuous browser announces through
    [onDeviceFound], in order, are the list [discoverOnce] resolves to;
    and while nothing goes down nothing is announced as lost. *)
Theorem start_finds_what_discoverOnce_returns (reported : list Service.t) :
  found (start (map service_up reported)) = discoverOnce reported
  /\ lost (start (map service_up reported)) = [].
Proof.
  split; [apply start_ups |].
  induction reported as [| service reported IH] using rev_ind; [reflexivity |].
  rewrite map_app. cbn [map]. rewrite start_snoc. cbn [on_browser_event].
  rewrite handleServiceUp_announced.
  destruct (announced service) as [device |]; [| exact IH].
  destruct (devices _ !! _); exact IH.
Qed.

(** ** Every notification is accounted for *)

(** The devices the object holds ([getDevices], up to order). *)
Definition tracked (d : SoundTouchDiscovery) : list DiscoveredDevice :=
  (map_to_list (devices d)).*2.

Definition accounted (d : SoundTouchDiscovery) : Prop :=
  found d ≡ₚ lost d ++ tracked d
  /\ (forall key device, devices d !! key = Some device ->
        key = keyOf (host device) (port device)).

Lemma handleServiceUp_accounted (service : Service.t) (d : SoundTouchDiscovery) :
  accounted d -> accounted (handleServiceUp service d).
Proof.
  intros [Hacc Hkeys]. unfold handleServiceUp.
  destruct (Service.addresses service) as [[| first rest] |]; try (split; assumption).
  cbv zeta.
  destruct (devices d !! _) as [old |] eqn:Hlook; [split; assumption |].
  split.
  - unfold tracked. cbn [found lost devices].
    rewrite (map_to_list_insert _ _ _ Hlook). cbn [fmap list_fmap snd].
    rewrite Hacc, <- !Permutation_middle, app_nil_r. reflexivity.
  - intros key device. cbn [devices]. intros Hin.
    apply lookup_insert_Some in Hin as [[<- <-] | [Hne Hin]]; [reflexivity |].
    apply (Hkeys _ _ Hin).
Qed.

(** One iteration of the loop of [handleServiceDown]. *)
Definition forget (p : Z) (d : SoundTouchDiscovery) (addr : string) : SoundTouchDiscovery :=
  let key := keyOf addr p in
  match devices d !! key with
  | Some device =>
      {| devices := delete key (devices d);
         found := found d;
         lost := lost d ++ [device] |}
  | None => d
  end.

Lemma handleServiceDown_forget (service : Service.t) (d : SoundTouchDiscovery) :
  handleServiceDown service d =
    foldl (forget (portOr8090 (Service.port service))) d
          (default [] (Service.addresses service)).
Proof. reflexivity. Qed.

Lemma forget_accounted (p : Z) (d : SoundTouchDiscovery) (addr : string) :
  accounted d -> accounted (forget p d addr).
Proof.
  intros [Hacc Hkeys]. unfold forget. cbv zeta.
  destruct (devices d !! _) as [device |] eqn:Hlook; [| split; assumption].
  split.
  - unfold tracked in *. cbn [found lost devices].
    rewrite Hacc, <- (map_to_list_delete (devices d) _ _ Hlook), <- app_assoc.
    reflexivity.
  - intros key dev. cbn [devices]. intros Hin.
    apply lookup_delete_Some in Hin as [_ Hin]. apply (Hkeys _ _ Hin).
Qed.

Lemma handleServiceDown_accounted (service : Service.t) (d : SoundTouchDiscovery) :
  accounted d -> accounted (handleServiceDown service d).
Proof.
  rewrite handleServiceDown_forget.
  generalize (default [] (Service.addresses service)). intros addrs. revert d.
  induction addrs as [| addr addrs IH]; intros d Hd; [exact Hd |].
  simpl. apply IH, forget_accounted, Hd.
Qed.

Lemma start_accounted (reported : list BrowserEvent) : accounted (start reported).
Proof.
  induction reported as [| ev reported IH] using rev_ind.
  - split; [reflexivity |]. intros key device Hin.
    change (devices (start [])) with (∅ : gmap string DiscoveredDevice) in Hin.
    rewrite lookup_empty in Hin. discriminate.
  - rewrite start_snoc. destruct ev as [service | service]; simpl.
    + apply handleServiceUp_accounted, IH.
    + apply handleServiceDown_accounted, IH.
Qed.

(** The tracked devices have distinct addresses. *)
Lemma tracked_NoDup (d : SoundTouchDiscovery) :
  accounted d -> NoDup (map address (tracked d)).
Proof.
  intros [_ Hkeys]. unfold tracked.
  assert (Hsame : map key_of_device (map_to_list (devices d)).*2
                  = (map_to_list (devices d)).*1).
  { pose proof (fun kv => proj1 (elem_of_map_to_list' (devices d) kv)) as Hall.
    induction (map_to_list (devices d)) as [| [key device] l IH]; [reflexivity |].
    cbn [fmap list_fmap map fst snd]. f_equal.
    - symmetry. apply (Hkeys key device). apply (Hall (key, device)). left.
    - apply IH. intros kv Hin. apply Hall. right. exact Hin. }
  pose proof (NoDup_fst_map_to_list (devices d)) as Hnodup. rewrite <- Hsame in Hnodup.
  clear Hsame. induction ((map_to_list (devices d)).*2) as [| device l IH]; [constructor |].
  cbn [map] in *. apply NoDup_cons in Hnodup as [Hnin Hnodup].
  apply NoDup_cons. split; [| apply IH, Hnodup].
  rewrite <- key_among. exact Hnin.
Qed.

(** X5: after any sequence of up and down reports, the calls to
    [onDeviceFound] are, as a multiset, the calls to [onDeviceLost]
    together with the devices still held: nothing is reported lost that
    was not reported found before, and a device found and not lost is
    still held.  The devices held have pairwise distinct host and port,
    and each is stored under the key of its own host and port. *)
Theorem start_accounts_for_every_device (reported : list BrowserEvent) :
  let d := start reported in
  found d ≡ₚ lost d ++ tracked d
  /\ NoDup (map address (tracked d))
  /\ (forall key device, devices d !! key = Some device ->
        key = keyOf (host device) (port device)).
Proof.
  pose proof (start_accounted reported) as Hacc.
  split; [apply Hacc |]. split; [apply tracked_NoDup, Hacc | apply Hacc].
Qed.

(** ** A service that goes down *)

Lemma selectHost_in (first : string) (rest : list string) :
  selectHost first rest ∈ first :: rest.
Proof.
  unfold selectHost.
  destruct (find _ (first :: rest)) as [addr |] eqn:Hfind; [| left].
  destruct (String.eqb addr ""); [left |].
  apply find_some in Hfind as [Hin _]. apply list_elem_of_In, Hin.
Qed.

Lemma forget_all (p : Z) (addrs : list string) (d : SoundTouchDiscovery) :
  exists gone : list DiscoveredDevice,
    lost (foldl (forget p) d addrs) = lost d ++ gone
    /\ found (foldl (forget p) d addrs) = found d
    /\ (forall addr, addr ∈ addrs ->
          devices (foldl (forget p) d addrs) !! keyOf addr p = None
          /\ (forall device, devices d !! keyOf addr p = Some device -> device ∈ gone))
    /\ (forall key, devices d !! key = None ->
          devices (foldl (forget p) d addrs) !! key = None).
Proof.
  revert d. induction addrs as [| a addrs IH]; intros d.
  - exists []. rewrite app_nil_r. split; [reflexivity |]. split; [reflexivity |].
    split; [| auto]. intros addr Hin. apply elem_of_nil in Hin. contradiction.
  - cbn [foldl]. destruct (IH (forget p d a)) as (gone & Hlost & Hfound & Hin & Hnone).
    unfold forget in Hlost, Hfound, Hin, Hnone |- *. cbv zeta in *.
    destruct (devices d !! keyOf a p) as [dev |] eqn:Hlook; cbn [lost found devices] in *.
    + exists (dev :: gone). rewrite Hlost, <- app_assoc. split; [reflexivity |].
      split; [exact Hfound |]. split.
      * intros addr Haddr. apply elem_of_cons in Haddr as [-> | Haddr].
        -- split; [apply Hnone, lookup_delete_eq |].
           intros device Hdev. rewrite Hlook in Hdev. injection Hdev as <-. left.
        -- destruct (Hin addr Haddr) as [Hgone Hdevs]. split; [exact Hgone |].
           intros device Hdev.
           destruct (decide (keyOf addr p = keyOf a p)) as [Heq | Hne].
           ++ rewrite Heq, Hlook in Hdev. injection Hdev as <-. left.
           ++ right. apply Hdevs. rewrite lookup_delete_ne by congruence. exact Hdev.
      * intros key Hkey. apply Hnone.
        destruct (decide (keyOf a p = key)) as [<- | Hne];
          [apply lookup_delete_eq | rewrite lookup_delete_ne by exact Hne; exact Hkey].
    + exists gone. split; [exact Hlost |]. split; [exact Hfound |]. split.
      * intros addr Haddr. apply elem_of_cons in Haddr as [-> | Haddr].
        -- split; [apply Hnone, Hlook |]. intros device Hdev. congruence.
        -- apply Hin, Haddr.
      * exact Hnone.
Qed.

(** X6: the two handlers agree on the key although they compute it
    differently ([handleServiceUp] from the selected host,
    [handleServiceDown] from every advertised address).  In any state
    of the browser, when a service that advertises an address comes up
    and then goes down, no device with its host and port is held any
    more, and [onDeviceLost] has been called for a device with that
    host and port. *)
Theorem service_down_after_up
    (reported : list BrowserEvent) (service : Service.t)
    (first : string) (rest : list string) :
  Service.addresses service = Some (first :: rest) ->
  let device := deviceOf service first rest in
  let before := start reported in
  let after := start (reported ++ [service_up service; service_down service]) in
  (address device ∉ map address (tracked after))
  /\ found after = found (handleServiceUp service before)
  /\ exists (gone : list DiscoveredDevice) (dev : DiscoveredDevice),
       lost after = lost before ++ gone
       /\ dev ∈ gone
       /\ address dev = address device.
Proof.
  intros Haddr device before after.
  assert (Hafter : after = handleServiceDown service (handleServiceUp service before)).
  { subst after before. unfold start. rewrite foldl_app. reflexivity. }
  pose proof (start_accounted reported) as Hbefore. fold before in Hbefore.
  pose proof (handleServiceUp_accounted service before Hbefore) as Hup.
  pose proof (handleServiceDown_accounted service _ Hup) as Hdown.
  rewrite <- Hafter in Hdown.
  assert (Hann : announced service = Some device).
  { unfold announced. rewrite Haddr. reflexivity. }
  assert (Hstored : exists dev, devices (handleServiceUp service before)
                                  !! key_of_device device = Some dev
                                /\ lost (handleServiceUp service before) = lost before).
  { rewrite handleServiceUp_announced, Hann.
    destruct (devices before !! key_of_device device) as [old |] eqn:Hlook.
    - exists old. auto.
    - exists device. cbn [devices lost]. rewrite lookup_insert_eq. auto. }
  destruct Hstored as (dev & Hstored & Hlost_up).
  rewrite handleServiceDown_forget, Haddr in Hafter. cbn [default from_option id] in Hafter.
  destruct (forget_all (portOr8090 (Service.port service)) (first :: rest)
              (handleServiceUp service before))
    as (gone & Hlost & Hfound & Hin & _).
  rewrite <- Hafter in Hlost, Hfound, Hin.
  destruct (Hin (selectHost first rest) (selectHost_in first rest)) as [Hnone Hgone].
  change (keyOf (selectHost first rest) (portOr8090 (Service.port service)))
    with (key_of_device device) in Hnone, Hgone.
  split; [| split].
  - intros Htracked. apply key_among in Htracked.
    apply list_elem_of_fmap in Htracked as (dev' & Hkey & Hdev').
    unfold tracked in Hdev'. apply list_elem_of_fmap in Hdev' as ([key dev''] & -> & Hkv).
    apply elem_of_map_to_list in Hkv. cbn [snd] in Hkey.
    destruct Hdown as [_ Hkeys]. rewrite (Hkeys _ _ Hkv) in Hkv.
    fold (key_of_device dev'') in Hkv. rewrite <- Hkey in Hkv. congruence.
  - exact Hfound.
  - exists gone, dev. rewrite Hlost, Hlost_up. split; [reflexivity |].
    split; [apply Hgone, Hstored |].
    destruct Hup as [_ Hkeys]. apply Hkeys in Hstored.
    destruct (keyOf_inj _ _ _ _ Hstored) as [Hh Hp]. unfold address. congruence.
Qed.

Lemma service_down_after_up_witness :
  (address (deviceOf dual_stack "fe80::a2f6:fdff:fe5d:1c2b" ["192.168.1.20"])
     ∉ map address (tracked (start ([] ++ [service_up dual_stack; service_down dual_stack]))))
  /\ found (start ([] ++ [service_up dual_stack; service_down dual_stack]))
     = found (handleServiceUp dual_stack (start []))
  /\ exists (gone : list DiscoveredDevice) (dev : DiscoveredDevice),
       lost (start ([] ++ [service_up dual_stack; service_down dual_stack]))
       = lost (start []) ++ gone
       /\ dev ∈ gone
       /\ address dev
          = address (deviceOf dual_stack "fe80::a2f6:fdff:fe5d:1c2b" ["192.168.1.20"]).
Proof.
  apply (service_down_after_up [] dual_stack "fe80::a2f6:fdff:fe5d:1c2b" ["192.168.1.20"]).
  reflexivity.
Defined.

(** The speaker of [dual_stack] is held under its IPv4 address and
    released when the service goes down. *)
Example dual_stack_up_and_down :
  map host (found (start [service_up dual_stack; service_down dual_stack]))
    = ["192.168.1.20"]
  /\ map host (lost (start [service_up dual_stack; service_down dual_stack]))
     = ["192.168.1.20"]
  /\ devices (start [service_up dual_stack; service_down dual_stack]) = ∅.
Proof. vm_compute. repeat split. Qed.

End DiscoveryFacts.

(* ===================================================================== *)
(** * Properties of the remaining client methods *)
(* ===================================================================== *)

Module ClientCommandsFacts.
Import Client ClientCommands ClientFacts.

(** ** powerOn and powerOff *)

Section Power.
Context `{Xml2js} (this : SoundTouchClient).
Context {S : Type} (device : S -> Request -> Outcome * S).

Definition now_playing_query : Request := options this GET "/now_playing" None.

(** The request that starts a POWER toggle. *)
Definition power_presses (tr : list Request) : nat :=
  length (filter (fun r => r = press this POWER) tr).

Lemma exec_getNowPlaying (s : S) :
  exec device (getNowPlaying this) s =
    (result <-r parsed (device s now_playing_query).1; decodeNowPlaying result,
     [now_playing_query],
     (device s now_playing_query).2).
Proof.
  unfold getNowPlaying. rewrite exec_bind, exec_get. fold now_playing_query.
  destruct (parsed _) as [e | result]; [reflexivity |].
  rewrite exec_lift. reflexivity.
Qed.

(** What [getNowPlaying] reports as the source: the [source] attribute
    of the [nowPlaying] element of a 2xx answer to [/now_playing]. *)
Lemma getNowPlaying_reads_source (s : S) (statusCode : Z) (data : string)
    (result np attrs src : value) (nowPlaying : NowPlaying) :
  (device s now_playing_query).1 = Responded statusCode data ->
  200 <= statusCode < 300 ->
  parseString data = ok result ->
  Js.get result "nowPlaying" = ok np ->
  Js.get np "$" = ok attrs ->
  Js.get attrs "source" = ok src ->
  result_of device (getNowPlaying this) s = ok nowPlaying ->
  np_source nowPlaying = src.
Proof.
  intros Hanswer Hstatus Hparse Hnp Hattrs Hsrc Hres.
  unfold result_of in Hres. rewrite exec_getNowPlaying in Hres. cbn [fst] in Hres.
  rewrite Hanswer, parsed_2xx, Hparse in Hres by exact Hstatus.
  cbn [rbind ok] in Hres. unfold decodeNowPlaying in Hres.
  rewrite Hnp in Hres. cbn [rbind ok] in Hres.
  destruct (Js.get np "ContentItem") as [e | ci]; [discriminate Hres |].
  cbn [rbind ok] in Hres.
  destruct (if truthy ci then _ else _) as [e | item]; [discriminate Hres |].
  cbn [rbind ok] in Hres.
  destruct (Js.get np "art") as [e | art]; [discriminate Hres |]. cbn [rbind ok] in Hres.
  destruct (artUrlOf art) as [e | artUrl]; [discriminate Hres |]. cbn [rbind ok] in Hres.
  rewrite Hattrs in Hres. cbn [rbind ok] in Hres. rewrite Hsrc in Hres.
  cbn [rbind ok] in Hres.
  repeat match type of Hres with
         | context [rbind ?m _] =>
             destruct m; cbn [rbind ok throw] in Hres; [discriminate Hres |]
         end.
  injection Hres as <-. reflexivity.
Qed.

Lemma power_presses_pressKey (s : S) :
  power_presses (trace_of device (pressKey this POWER) s) = 1%nat.
Proof.
  unfold trace_of. rewrite exec_pressKey.
  pose proof (release_is_not_press this POWER) as Hne.
  destruct (parsed _) as [e | v]; unfold power_presses; simpl.
  - rewrite filter_cons_True, filter_nil; reflexivity.
  - rewrite filter_cons_True, filter_cons_False, filter_nil; [reflexivity | exact Hne |].
    reflexivity.
Qed.

Lemma exec_powerOn (s : S) :
  exec device (powerOn this) s =
    match exec device (getNowPlaying this) s with
    | (inl e, tr, s1) => (inl e, tr, s1)
    | (inr nowPlaying, tr, s1) =>
        if is_literal "STANDBY" (np_source nowPlaying)
        then let '(r, tr2, s2) := exec device (pressKey this POWER) s1 in
             (r, tr ++ tr2, s2)
        else (ok tt, tr, s1)
    end.
Proof.
  unfold powerOn. rewrite exec_bind.
  destruct (exec device (getNowPlaying this) s) as [[[e | np] tr] s1]; [reflexivity |].
  destruct (is_literal _ _); [reflexivity |]. simpl. rewrite app_nil_r. reflexivity.
Qed.

Lemma exec_powerOff (s : S) :
  exec device (powerOff this) s =
    match exec device (getNowPlaying this) s with
    | (inl e, tr, s1) => (inl e, tr, s1)
    | (inr nowPlaying, tr, s1) =>
        if is_literal "STANDBY" (np_source nowPlaying)
        then (ok tt, tr, s1)
        else let '(r, tr2, s2) := exec device (pressKey this POWER) s1 in
             (r, tr ++ tr2, s2)
    end.
Proof.
  unfold powerOff. rewrite exec_bind.
  destruct (exec device (getNowPlaying this) s) as [[[e | np] tr] s1]; [reflexivity |].
  destruct (is_literal _ _); [| reflexivity]. simpl. rewrite app_nil_r. reflexivity.
Qed.

Lemma query_is_not_power : now_playing_query <> press this POWER.
Proof. unfold now_playing_query, press, options. intros Heq. discriminate. Qed.

Lemma power_presses_query : power_presses [now_playing_query] = 0%nat.
Proof.
  unfold power_presses. rewrite filter_cons_False, filter_nil; [reflexivity |].
  exact query_is_not_power.
Qed.

Lemma power_presses_pressed (s : S) :
  power_presses (now_playing_query :: trace_of device (pressKey this POWER) s) = 1%nat.
Proof.
  pose proof (power_presses_pressKey s) as Hone. unfold power_presses in *.
  rewrite filter_cons_False; [exact Hone | exact query_is_not_power].
Qed.

(** What [powerOn] and [powerOff] do, by what the speaker reports. *)
Lemma powerOn_runs (s : S) :
  let s1 := (device s now_playing_query).2 in
  (result_of device (powerOn this) s, trace_of device (powerOn this) s) =
    match result_of device (getNowPlaying this) s with
    | inr nowPlaying =>
        if is_literal "STANDBY" (np_source nowPlaying)
        then (result_of device (pressKey this POWER) s1,
              now_playing_query :: trace_of device (pressKey this POWER) s1)
        else (ok tt, [now_playing_query])
    | inl e => (throw e, [now_playing_query])
    end.
Proof.
  intros s1. subst s1. unfold result_of, trace_of.
  rewrite exec_powerOn, exec_getNowPlaying. cbn [fst snd].
  destruct (exec device (pressKey this POWER) (device s now_playing_query).2)
    as [[r tr2] s2].
  destruct (rbind _ _) as [e | nowPlaying]; [reflexivity |].
  destruct (is_literal _ _); reflexivity.
Qed.

Lemma powerOff_runs (s : S) :
  let s1 := (device s now_playing_query).2 in
  (result_of device (powerOff this) s, trace_of device (powerOff this) s) =
    match result_of device (getNowPlaying this) s with
    | inr nowPlaying =>
        if is_literal "STANDBY" (np_source nowPlaying)
        then (ok tt, [now_playing_query])
        else (result_of device (pressKey this POWER) s1,
              now_playing_query :: trace_of device (pressKey this POWER) s1)
    | inl e => (throw e, [now_playing_query])
    end.
Proof.
  intros s1. subst s1. unfold result_of, trace_of.
  rewrite exec_powerOff, exec_getNowPlaying. cbn [fst snd].
  destruct (exec device (pressKey this POWER) (device s now_playing_query).2)
    as [[r tr2] s2].
  destruct (rbind _ _) as [e | nowPlaying]; [reflexivity |].
  destruct (is_literal _ _); reflexivity.
Qed.

(** X10: [powerOn] and [powerOff] first ask what is playing, with a
    GET of [/now_playing].  When the answer decodes, exactly one of the
    two goes on to press POWER: the one whose target differs from the
    state the speaker reports (source STANDBY is off, anything else is
    on); the other sends nothing more and succeeds.  When the answer
    does not decode, neither presses a key and both fail with the error
    of the query.  The source the speaker reports is the [source]
    attribute of the [nowPlaying] element of its 2xx answer; a press of
    POWER starts with a POST of the POWER press event to [/key]. *)
Theorem power_is_pressed_only_to_change_state (s : S) :
  let s1 := (device s now_playing_query).2 in
  let pressed := now_playing_query :: trace_of device (pressKey this POWER) s1 in
  match result_of device (getNowPlaying this) s with
  | inr nowPlaying =>
      if is_literal "STANDBY" (np_source nowPlaying)
      then (trace_of device (powerOn this) s = pressed
            /\ power_presses (trace_of device (powerOn this) s) = 1%nat
            /\ result_of device (powerOn this) s
                = result_of device (pressKey this POWER) s1)
           /\ (trace_of device (powerOff this) s = [now_playing_query]
               /\ result_of device (powerOff this) s = ok tt)
      else (trace_of device (powerOff this) s = pressed
            /\ power_presses (trace_of device (powerOff this) s) = 1%nat
            /\ result_of device (powerOff this) s
                = result_of device (pressKey this POWER) s1)
           /\ (trace_of device (powerOn this) s = [now_playing_query]
               /\ result_of device (powerOn this) s = ok tt)
  | inl e =>
      (trace_of device (powerOn this) s = [now_playing_query]
       /\ result_of device (powerOn this) s = throw e)
      /\ (trace_of device (powerOff this) s = [now_playing_query]
          /\ result_of device (powerOff this) s = throw e)
  end
  /\ (req_method now_playing_query = GET
      /\ req_path now_playing_query = "/now_playing"
      /\ req_body now_playing_query = None
      /\ req_method (press this POWER) = POST
      /\ req_path (press this POWER) = "/key"
      /\ req_body (press this POWER)
         = Some ("<key state=" +:+ dq +:+ "press" +:+ dq +:+ " sender=" +:+ dq +:+ "Gabbo"
                   +:+ dq +:+ ">POWER</key>"))
  /\ (forall (statusCode : Z) (data : string) (result np attrs src : value)
             (nowPlaying : NowPlaying),
        (device s now_playing_query).1 = Responded statusCode data ->
        200 <= statusCode < 300 ->
        parseString data = ok result ->
        Js.get result "nowPlaying" = ok np ->
        Js.get np "$" = ok attrs ->
        Js.get attrs "source" = ok src ->
        result_of device (getNowPlaying this) s = ok nowPlaying ->
        np_source nowPlaying = src).
Proof.
  intros s1 pressed. subst s1 pressed.
  split; [| split; [repeat split | apply getNowPlaying_reads_source]].
  pose proof (powerOn_runs s) as Hon. pose proof (powerOff_runs s) as Hoff.
  cbv zeta in Hon, Hoff.
  pose proof (power_presses_pressed (device s now_playing_query).2) as Hone.
  destruct (result_of device (getNowPlaying this) s) as [e | nowPlaying].
  - injection Hon as -> ->. injection Hoff as -> ->. repeat split.
  - destruct (is_literal _ _); injection Hon as -> ->; injection Hoff as -> ->;
      repeat split; exact Hone.
Qed.

End Power.

(** ** storePreset *)

(** The content [getPresets] reads when it meets what [storePreset]
    wrote. *)
Definition storedContent (item : StoredItem) : ContentItem :=
  {| source := Str (item_source item);
     type := Undefined;
     location := Str (item_location item);
     sourceAccount := Str (orEmpty (item_sourceAccount item));
     isPresetable := true;
     name := if given (item_name item) then Str (orEmpty (item_name item)) else Undefined |}.

Lemma decodePreset_presetObj (slot : Z) (item : StoredItem) :
  (p <-r Js.get (presetObj (Fin slot) item) "preset"; decodePreset p)
  = ok {| id := Fin slot; contentItem := storedContent item |}.
Proof.
  unfold presetObj, decodePreset, contentItemOf, storedContent.
  destruct (given (item_name item)); cbn -[parseInt Number_toString];
    rewrite JsFacts.parseInt_Number_toString; reflexivity.
Qed.

Section StorePreset.
Context `{Xml2js} (this : SoundTouchClient).
Context {S : Type} (device : S -> Request -> Outcome * S).

(** X11: what [storePreset] writes is what [getPresets] reads.  For an
    integer slot that JavaScript prints digit by digit (a safe integer)
    and any content, when the codec hands back the object it was given,
    the one request of [storePreset] is a POST to [/storePreset] whose
    body parses to a [preset] element that the preset decoder of
    [getPresets] reads as that slot (the slot number survives being
    printed and parsed) with the same source and location, the account
    or the empty string, the name when it is not empty, [isPresetable]
    true and no type; and a [/presets] answer holding just that element
    decodes to that one preset. *)
Theorem storePreset_is_read_back (slot : Z) (item : StoredItem) (s : S) :
  JsFacts.safe_integer slot ->
  parseString (buildObject (presetObj (Fin slot) item)) = ok (presetObj (Fin slot) item) ->
  let stored := {| id := Fin slot; contentItem := storedContent item |} in
  trace_of device (storePreset this (Fin slot) item) s
    = [options this POST "/storePreset" (Some (buildObject (presetObj (Fin slot) item)))]
  /\ (result <-r parseString (buildObject (presetObj (Fin slot) item));
      p <-r Js.get result "preset";
      decodePreset p) = ok stored
  /\ (forall p, Js.get (presetObj (Fin slot) item) "preset" = ok p ->
        decodePresets (Obj [("presets", Obj [("preset", p)])]) = ok [stored]).
Proof.
  intros _ Hcodec stored. subst stored. split; [| split].
  - unfold trace_of, storePreset. rewrite exec_bind, exec_post.
    destruct (parsed _); reflexivity.
  - rewrite Hcodec. apply decodePreset_presetObj.
  - intros p Hp.
    assert (Hdec : decodePreset p
                   = ok {| id := Fin slot; contentItem := storedContent item |}).
    { pose proof (decodePreset_presetObj slot item) as Hdec.
      rewrite Hp in Hdec. exact Hdec. }
    unfold decodePresets. cbn -[truthy as_array mapM decodePreset].
    assert (Hobj : truthy p = true /\ as_array p = [p]).
    { unfold presetObj in Hp. cbn in Hp. injection Hp as <-. auto. }
    destruct Hobj as [-> ->]. cbn [negb mapM]. rewrite Hdec. reflexivity.
Qed.

End StorePreset.

(** A station kept in slot 3. *)
Definition kept_station : StoredItem :=
  {| item_source := "TUNEIN";
     item_location := "/v1/playback/station/s24939";
     item_sourceAccount := None;
     item_name := Some "Radio Swiss Jazz" |}.

Lemma storePreset_is_read_back_witness :
  trace_of obliging (@storePreset RefXml2js.codec speaker (Fin 3) kept_station) 0%nat
    = [options speaker POST "/storePreset"
         (Some (@buildObject RefXml2js.codec (presetObj (Fin 3) kept_station)))]
  /\ (result <-r @parseString RefXml2js.codec
                   (@buildObject RefXml2js.codec (presetObj (Fin 3) kept_station));
      p <-r Js.get result "preset";
      decodePreset p)
     = ok {| id := Fin 3; contentItem := storedContent kept_station |}
  /\ (forall p, Js.get (presetObj (Fin 3) kept_station) "preset" = ok p ->
        decodePresets (Obj [("presets", Obj [("preset", p)])])
        = ok [{| id := Fin 3; contentItem := storedContent kept_station |}]).
Proof.
  apply (@storePreset_is_read_back RefXml2js.codec speaker nat obliging 3 kept_station
           0%nat).
  - split; reflexivity.
  - vm_compute. reflexivity.
Defined.

(** ** setBass *)

Section SetBass.
Context `{Xml2js} (this : SoundTouchClient).
Context {S : Type} (device : S -> Request -> Outcome * S).

(** X12: [setBass] rounds and does not clamp.  For a finite level
    whose nearest integer JavaScript prints digit by digit (a safe
    integer), the one request is a POST to [/bass] carrying that integer
    (the upper one at a tie), whatever its size or sign; an integer
    level is sent as it is.  The range the speaker reports through
    [getBassCapabilities] plays no part. *)
Theorem setBass_sends_rounded_level (q : Q) (s : S) :
  JsFacts.safe_integer (Qfloor (q + (1 # 2))%Q) ->
  let n := Qfloor (q + (1 # 2))%Q in
  trace_of device (setBass this (Fin q)) s
    = [options this POST "/bass" (Some ("<bass>" +:+ pretty n +:+ "</bass>"))]
  /\ (inject_Z n - (1 # 2) <= q /\ q < inject_Z n + (1 # 2))%Q
  /\ (forall z : Z, q = inject_Z z -> n = z).
Proof.
  intros _ n. subst n. split; [| split].
  - unfold trace_of, setBass. rewrite exec_bind, exec_post.
    destruct (parsed _); reflexivity.
  - apply round_nearest.
  - intros z ->. apply Z.le_antisymm.
    + assert (Hlt : Qfloor (inject_Z z + (1 # 2))%Q < z + 1); [| lia].
      apply round_lt. rewrite inject_Z_plus. change (inject_Z 1) with (1 # 1)%Q. lra.
    + apply round_ge. lra.
Qed.

End SetBass.

Lemma setBass_sends_rounded_level_witness :
  trace_of obliging (@setBass RefXml2js.codec speaker (Fin (-9 # 2)%Q)) 0%nat
    = [options speaker POST "/bass" (Some ("<bass>" +:+ pretty (-4) +:+ "</bass>"))]
  /\ (inject_Z (-4) - (1 # 2) <= -9 # 2 /\ -9 # 2 < inject_Z (-4) + (1 # 2))%Q
  /\ (forall z : Z, (-9 # 2)%Q = inject_Z z -> -4 = z).
Proof.
  apply (@setBass_sends_rounded_level RefXml2js.codec speaker nat obliging (-9 # 2)%Q
           0%nat).
  split; reflexivity.
Defined.

(** A bass level beyond any speaker's range is sent as it is. *)
Example setBass_out_of_range :
  map req_body (trace_of obliging (@setBass RefXml2js.codec speaker (Fin 150%Q)) 0%nat)
  = [Some "<bass>150</bass>"].
Proof. vm_compute. reflexivity. Qed.
End ClientCommandsFacts.

(* ===================================================================== *)
(** * Push and poll *)
(* ===================================================================== *)

Module PushFacts.
Import EventStream.

(** The update a query result would be pushed as. *)
Definition volumeUpdateOf (v : Client.Volume) : VolumeUpdate :=
  {| targetvolume := Client.targetvolume v;
     actualvolume := Client.actualvolume v;
     muteenabled := Client.muteenabled v |}.

Definition nowPlayingUpdateOf (np : Client.NowPlaying) : NowPlayingUpdate :=
  {| source := Client.np_source np;
     sourceAccount := Client.np_sourceAccount np;
     track := Client.np_track np;
     artist := Client.np_artist np;
     album := Client.np_album np;
     stationName := Client.np_stationName np;
     art := Client.np_art np;
     playStatus := Client.np_playStatus np;
     shuffleSetting := Client.np_shuffleSetting np;
     repeatSetting := Client.np_repeatSetting np |}.

Definition bassUpdateOf (b : ClientCommands.Bass) : BassUpdate :=
  {| targetbass := ClientCommands.targetbass b;
     actualbass := ClientCommands.actualbass b |}.

Lemma onVolumeUpdated_decodeVolume (updates vu : value) (log : list Emitted) :
  get updates "volumeUpdated" = ok vu -> truthy vu = true ->
  onVolumeUpdated updates log =
    match Client.decodeVolume vu with
    | inr v => (ok tt, log ++ [volumeUpdated (volumeUpdateOf v)])
    | inl e => (inl e, log)
    end.
Proof.
  intros Hvu Htruthy. unfold onVolumeUpdated, Client.decodeVolume, ebind, elift, when.
  rewrite Hvu. unfold ok. cbv beta iota. rewrite Htruthy. cbn [rbind].
  destruct (get vu "volume") as [e | vol]; [reflexivity |]. cbn [rbind].
  destruct (get vol "targetvolume") as [e | t]; [reflexivity |]. cbn [rbind].
  destruct (get vol "actualvolume") as [e | a]; [reflexivity |]. cbn [rbind].
  destruct (get vol "muteenabled") as [e | m]; reflexivity.
Qed.

Lemma onBassUpdated_decodeBass (updates bu : value) (log : list Emitted) :
  get updates "bassUpdated" = ok bu -> truthy bu = true ->
  onBassUpdated updates log =
    match ClientCommands.decodeBass bu with
    | inr b => (ok tt, log ++ [bassUpdated (bassUpdateOf b)])
    | inl e => (inl e, log)
    end.
Proof.
  intros Hbu Htruthy. unfold onBassUpdated, ClientCommands.decodeBass, ebind, elift, when.
  rewrite Hbu. unfold ok. cbv beta iota. rewrite Htruthy. cbn [rbind].
  destruct (get bu "bass") as [e | bass]; [reflexivity |]. cbn [rbind].
  destruct (get bass "targetbass") as [e | t]; [reflexivity |]. cbn [rbind].
  destruct (get bass "actualbass") as [e | a]; reflexivity.
Qed.

Lemma onNowPlayingUpdated_decodeNowPlaying
    (updates nu : value) (np : Client.NowPlaying) (log : list Emitted) :
  get updates "nowPlayingUpdated" = ok nu -> truthy nu = true ->
  Client.decodeNowPlaying nu = ok np ->
  onNowPlayingUpdated updates log = (ok tt, log ++ [nowPlayingUpdated (nowPlayingUpdateOf np)]).
Proof.
  intros Hnu Htruthy Hdec.
  unfold onNowPlayingUpdated, ebind, elift, when. rewrite Hnu. unfold ok.
  cbv beta iota. rewrite Htruthy.
  unfold Client.decodeNowPlaying in Hdec.
  destruct (get nu "nowPlaying") as [e | npv]; [discriminate Hdec |]. cbn [rbind] in Hdec.
  destruct (get npv "ContentItem") as [e | ci]; [discriminate Hdec |]. cbn [rbind] in Hdec.
  destruct (if truthy ci then _ else _) as [e | item]; [discriminate Hdec |].
  cbn [rbind] in Hdec.
  destruct (get npv "art") as [e | v_art]; [discriminate Hdec |]. cbn [rbind] in Hdec.
  assert (Hart : Client.artUrlOf v_art =
                 (if truthy v_art then
                    if is_string v_art then inr v_art
                    else rbind (get v_art "_")
                           (fun t => if truthy t then inr t else inr Undefined)
                  else inr Undefined)) by reflexivity.
  rewrite Hart in Hdec. clear Hart.
  destruct (if truthy v_art then _ else _) as [e | artUrl]; [discriminate Hdec |].
  cbn [rbind] in Hdec.
  destruct (get npv "$") as [e | attrs]; [discriminate Hdec |]. cbn [rbind] in Hdec.
  destruct (get attrs "source") as [e | v1]; [discriminate Hdec |]. cbn [rbind] in Hdec.
  destruct (get attrs "sourceAccount") as [e | v2]; [discriminate Hdec |].
  cbn [rbind] in Hdec.
  destruct (get npv "track") as [e | v3]; [discriminate Hdec |]. cbn [rbind] in Hdec.
  destruct (get npv "artist") as [e | v4]; [discriminate Hdec |]. cbn [rbind] in Hdec.
  destruct (get npv "album") as [e | v5]; [discriminate Hdec |]. cbn [rbind] in Hdec.
  destruct (get npv "stationName") as [e | v6]; [discriminate Hdec |]. cbn [rbind] in Hdec.
  destruct (get npv "playStatus") as [e | v7]; [discriminate Hdec |]. cbn [rbind] in Hdec.
  destruct (get npv "shuffleSetting") as [e | v8]; [discriminate Hdec |].
  cbn [rbind] in Hdec.
  destruct (get npv "repeatSetting") as [e | v9]; [discriminate Hdec |].
  cbn [rbind] in Hdec.
  destruct (get npv "streamType") as [e | v10]; [discriminate Hdec |]. cbn [rbind] in Hdec.
  destruct (get npv "trackID") as [e | v11]; [discriminate Hdec |]. cbn [rbind] in Hdec.
  injection Hdec as <-. reflexivity.
Qed.

(** X9: a push carries what a poll would return.  When the
    [volumeUpdated] element of a frame is read, the event holds exactly
    the values [getVolume] decodes from the same element, and both fail
    on the same elements with the same error; likewise [bassUpdated]
    and [getBass].  When [getNowPlaying] decodes the [nowPlayingUpdated]
    element, the event holds the same source, account, track, artist,
    album, station, art, play status, shuffle and repeat settings. *)
Theorem push_agrees_with_poll (updates : value) (log : list Emitted) :
  (forall vu, get updates "volumeUpdated" = ok vu -> truthy vu = true ->
     onVolumeUpdated updates log =
       match Client.decodeVolume vu with
       | inr v => (ok tt, log ++ [volumeUpdated (volumeUpdateOf v)])
       | inl e => (inl e, log)
       end)
  /\ (forall bu, get updates "bassUpdated" = ok bu -> truthy bu = true ->
        onBassUpdated updates log =
          match ClientCommands.decodeBass bu with
          | inr b => (ok tt, log ++ [bassUpdated (bassUpdateOf b)])
          | inl e => (inl e, log)
          end)
  /\ (forall nu np, get updates "nowPlayingUpdated" = ok nu -> truthy nu = true ->
        Client.decodeNowPlaying nu = ok np ->
        onNowPlayingUpdated updates log
        = (ok tt, log ++ [nowPlayingUpdated (nowPlayingUpdateOf np)])).
Proof.
  split; [| split].
  - intros vu. apply onVolumeUpdated_decodeVolume.
  - intros bu. apply onBassUpdated_decodeBass.
  - intros nu np. apply onNowPlayingUpdated_decodeNowPlaying.
Qed.

End PushFacts.

(* ===================================================================== *)
(** * Properties of the accessory *)
(* ===================================================================== *)

Module AccessoryFacts.
Import Client ClientCommands Platform Accessory ClientFacts ClientCommandsFacts.

Section Running.
Context `{Xml2js}.
Context {S : Type} (device : S -> Request -> Outcome * S).

Lemma exec_attempt {A} (m : io A) (s : S) :
  exec device (attempt m) s =
    (ok (result_of device m s), trace_of device m s, final_of device m s).
Proof.
  unfold result_of, trace_of, final_of. revert s.
  induction m as [a | e | r k IH]; intros s; simpl; try reflexivity.
  destruct (device s r) as [o s1]. rewrite IH.
  destruct (exec device (k o) s1) as [[b tr] s2]. reflexivity.
Qed.

Lemma exec_bind_attempt {A B} (m : io A) (f : res A -> io B) (s : S) :
  exec device (bind (attempt m) f) s =
    let '(b, tr2, s2) := exec device (f (result_of device m s)) (final_of device m s) in
    (b, trace_of device m s ++ tr2, s2).
Proof. rewrite exec_bind, exec_attempt. reflexivity. Qed.

(** [try { await m; yes } catch { no }]. *)
Lemma exec_guarded {A B} (m : io A) (yes no : B) (s : S) :
  exec device (r <- attempt m ;;
               match r with
               | inr _ => Ret yes
               | inl _ => Ret no
               end) s =
    (ok (if is_ok (result_of device m s) then yes else no),
     trace_of device m s, final_of device m s).
Proof.
  rewrite exec_bind_attempt.
  destruct (result_of device m s); cbn; rewrite app_nil_r; reflexivity.
Qed.

(** ** Handlers that keep their errors *)

(** X13: the volume, mute, volume-selector and remote-key handlers
    keep the errors of their commands.  Once the requests of the
    command have settled, the handler resolves, whether the command
    succeeded or failed (a rejected request, a timeout, an answer that
    is not 2xx or does not parse): it never rejects.  The volume and
    mute handlers send what [setVolume] and [setMute] send;
    [currentVolume] and [currentMute] change only when the command
    succeeded, and after a failed command the accessory is as it
    was. *)
Theorem speaker_handlers_never_fail
    (a : SoundTouchAccessory) (volume : number) (muted : bool) (value : Z)
    (key : RemoteKey) (s : S) :
  (result_of device (Volume_onSet volume a) s
     = ok (if is_ok (result_of device (setVolume (client a) volume) s)
           then set_currentVolume volume a else a)
   /\ trace_of device (Volume_onSet volume a) s
      = trace_of device (setVolume (client a) volume) s)
  /\ (result_of device (Mute_onSet muted a) s
        = ok (if is_ok (result_of device (setMute (client a) muted) s)
              then set_currentMute muted a else a)
      /\ trace_of device (Mute_onSet muted a) s
         = trace_of device (setMute (client a) muted) s)
  /\ result_of device (VolumeSelector_onSet value a) s = ok a
  /\ result_of device (handleRemoteKey key a) s = ok a.
Proof.
  split; [| split; [| split]].
  - unfold result_of, trace_of, Volume_onSet. rewrite exec_bind_attempt.
    unfold result_of, trace_of, final_of.
    destruct (exec device (setVolume (client a) volume) s) as [[[e | u] tr] s1];
      cbn; rewrite app_nil_r; auto.
  - unfold result_of, trace_of, Mute_onSet. rewrite exec_bind_attempt.
    unfold result_of, trace_of, final_of.
    destruct (exec device (setMute (client a) muted) s) as [[[e | u] tr] s1];
      cbn; rewrite app_nil_r; auto.
  - unfold result_of, VolumeSelector_onSet. rewrite exec_bind_attempt. reflexivity.
  - unfold result_of, handleRemoteKey. rewrite exec_bind_attempt. reflexivity.
Qed.

(** ** setPowerState *)

(** X14: [setPowerState] sends nothing when the requested state is the
    one the accessory believes the speaker is in.  Otherwise it runs
    [powerOn] or [powerOff]: the belief follows the request only when
    that succeeds, and a failure is reported as
    SERVICE_COMMUNICATION_FAILURE with the accessory unchanged.  The
    POWER key is pressed only when the state the speaker itself reports
    differs from the requested one, so a wrong belief never toggles
    the speaker away from what was asked for.  The source the speaker
    reports is the [source] attribute of the [nowPlaying] element of
    its 2xx answer to [/now_playing]. *)
Theorem setPowerState_presses_power_only_to_change_state
    (a : SoundTouchAccessory) (value : Z) (s : S) :
  let shouldBeOn := (value =? ACTIVE)%Z in
  let command := if shouldBeOn then powerOn (client a) else powerOff (client a) in
  (shouldBeOn = isPoweredOn a ->
     exec device (setPowerState value a) s = (ok (a, Resolved), [], s))
  /\ (shouldBeOn <> isPoweredOn a ->
        trace_of device (setPowerState value a) s = trace_of device command s
        /\ result_of device (setPowerState value a) s
            = ok (if is_ok (result_of device command s)
                  then (set_isPoweredOn shouldBeOn a, Resolved)
                  else (a, HapStatusError SERVICE_COMMUNICATION_FAILURE))
        /\ (forall nowPlaying,
              result_of device (getNowPlaying (client a)) s = ok nowPlaying ->
              power_presses (client a) (trace_of device (setPowerState value a) s)
              = if Bool.eqb (negb (is_literal "STANDBY" (np_source nowPlaying))) shouldBeOn
                then 0%nat else 1%nat))
  /\ (forall (statusCode : Z) (data : string) (result np attrs src : Js.value)
             (nowPlaying : NowPlaying),
        (device s (now_playing_query (client a))).1 = Responded statusCode data ->
        200 <= statusCode < 300 ->
        parseString data = ok result ->
        Js.get result "nowPlaying" = ok np ->
        Js.get np "$" = ok attrs ->
        Js.get attrs "source" = ok src ->
        result_of device (getNowPlaying (client a)) s = ok nowPlaying ->
        np_source nowPlaying = src).
Proof.
  intros shouldBeOn command. subst command. unfold setPowerState. fold shouldBeOn.
  split; [| split; [| apply getNowPlaying_reads_source]].
  - intros <-. destruct shouldBeOn; reflexivity.
  - intros Hne.
    assert (Hcases : (shouldBeOn = true /\ isPoweredOn a = false)
                     \/ (shouldBeOn = false /\ isPoweredOn a = true)).
    { destruct shouldBeOn, (isPoweredOn a); auto; congruence. }
    pose proof (powerOn_runs (client a) device s) as Hon.
    pose proof (powerOff_runs (client a) device s) as Hoff.
    cbv zeta in Hon, Hoff.
    pose proof (power_presses_pressed (client a) device
                  (device s (now_playing_query (client a))).2) as Hone.
    pose proof (power_presses_query (client a)) as Hzero.
    destruct Hcases as [[-> ->] | [-> ->]]; cbn [andb negb].
    + pose proof (exec_guarded (powerOn (client a)) (set_isPoweredOn true a, Resolved)
                    (a, HapStatusError SERVICE_COMMUNICATION_FAILURE) s) as Hexec.
      split; [unfold trace_of at 1; rewrite Hexec; reflexivity |].
      split; [unfold result_of at 1; rewrite Hexec; reflexivity |].
      intros nowPlaying Hnp. unfold trace_of at 1. rewrite Hexec. cbn [fst snd].
      rewrite Hnp in Hon. unfold ok in Hon. cbv beta iota in Hon.
      apply (f_equal snd) in Hon. cbn [snd] in Hon. rewrite Hon.
      destruct (is_literal "STANDBY" (np_source nowPlaying)); cbn [negb Bool.eqb snd];
        assumption.
    + pose proof (exec_guarded (powerOff (client a)) (set_isPoweredOn false a, Resolved)
                    (a, HapStatusError SERVICE_COMMUNICATION_FAILURE) s) as Hexec.
      split; [unfold trace_of at 1; rewrite Hexec; reflexivity |].
      split; [unfold result_of at 1; rewrite Hexec; reflexivity |].
      intros nowPlaying Hnp. unfold trace_of at 1. rewrite Hexec. cbn [fst snd].
      rewrite Hnp in Hoff. unfold ok in Hoff. cbv beta iota in Hoff.
      apply (f_equal snd) in Hoff. cbn [snd] in Hoff. rewrite Hoff.
      destruct (is_literal "STANDBY" (np_source nowPlaying)); cbn [negb Bool.eqb snd];
        assumption.
Qed.

(** ** refreshState and the listeners *)

Lemma exec_all2 {A B} (m1 : io A) (m2 : io B) (s : S) :
  exec device (all2 m1 m2) s =
    let s1 := final_of device m1 s in
    (match result_of device m1 s, result_of device m2 s1 with
     | inr x, inr y => ok (x, y)
     | inl e, _ => throw e
     | _, inl e => throw e
     end,
     trace_of device m1 s ++ trace_of device m2 s1,
     final_of device m2 s1).
Proof.
  unfold all2. rewrite exec_bind_attempt, exec_bind_attempt.
  unfold result_of, trace_of, final_of.
  destruct (exec device m1 s) as [[r1 tr1] s1]. cbn [fst snd].
  destruct (exec device m2 s1) as [[r2 tr2] s2]. cbn [fst snd].
  destruct r1 as [e1 | x], r2 as [e2 | y]; cbn; rewrite app_nil_r; reflexivity.
Qed.

(** X15: polling and pushing leave the accessory in the same state.
    [refreshState] sends both queries, the volume query first, and once
    both have settled it resolves, whether they succeeded or failed.
    When both answers decode, the accessory ends up exactly as if the
    listeners had received a [volumeUpdated] and a [nowPlayingUpdated]
    event with the same values (in either order): the volume is the
    actual volume, not the target, and the speaker counts as on unless
    the source is STANDBY.  When either query fails the accessory is
    unchanged.  The values are those of the speaker's 2xx answers: the
    numbers in the [targetvolume] and [actualvolume] children of the
    [volume] element, whether the text of its [muteenabled] child is
    [true], and the [source] attribute of the [nowPlaying] element. *)
Theorem refreshState_sets_what_pushes_set (a : SoundTouchAccessory) (s : S) :
  let s1 := final_of device (getVolume (client a)) s in
  let pushed v np :=
    on_emitted (EventStream.nowPlayingUpdated (PushFacts.nowPlayingUpdateOf np))
      (on_emitted (EventStream.volumeUpdated (PushFacts.volumeUpdateOf v)) a) in
  trace_of device (refreshState a) s
    = [volume_query (client a); now_playing_query (client a)]
  /\ result_of device (refreshState a) s
      = ok (match result_of device (getVolume (client a)) s,
                  result_of device (getNowPlaying (client a)) s1 with
            | inr v, inr np => pushed v np
            | _, _ => a
            end)
  /\ (forall v np,
        pushed v np
        = on_emitted (EventStream.volumeUpdated (PushFacts.volumeUpdateOf v))
            (on_emitted (EventStream.nowPlayingUpdated (PushFacts.nowPlayingUpdateOf np)) a)
        /\ currentVolume (pushed v np) = of_integral (actualvolume v)
        /\ isPoweredOn (pushed v np) = negb (is_literal "STANDBY" (np_source np))
        /\ Active (pushed v np) = isPoweredOn (pushed v np)
        /\ Volume (pushed v np) = currentVolume (pushed v np)
        /\ Mute (pushed v np) = muteenabled v)
  /\ (forall (statusCode : Z) (data : string) (result vol m : value),
        (device s (volume_query (client a))).1 = Responded statusCode data ->
        200 <= statusCode < 300 ->
        parseString data = ok result ->
        Js.get result "volume" = ok vol ->
        Js.get vol "muteenabled" = ok m ->
        exists t act,
          Js.get vol "targetvolume" = ok t
          /\ Js.get vol "actualvolume" = ok act
          /\ result_of device (getVolume (client a)) s
             = ok {| targetvolume := parseInt t;
                     actualvolume := parseInt act;
                     muteenabled := match m with
                                    | Str text => String.eqb text "true"
                                    | _ => false
                                    end |})
  /\ (forall (statusCode : Z) (data : string) (result np attrs src : value)
             (nowPlaying : NowPlaying),
        (device s1 (now_playing_query (client a))).1 = Responded statusCode data ->
        200 <= statusCode < 300 ->
        parseString data = ok result ->
        Js.get result "nowPlaying" = ok np ->
        Js.get np "$" = ok attrs ->
        Js.get attrs "source" = ok src ->
        result_of device (getNowPlaying (client a)) s1 = ok nowPlaying ->
        np_source nowPlaying = src).
Proof.
  intros s1 pushed. subst s1 pushed. cbv beta.
  assert (Hexec : exec device (refreshState a) s =
            (ok (match result_of device (getVolume (client a)) s,
                       result_of device (getNowPlaying (client a))
                         (final_of device (getVolume (client a)) s) with
                 | inr v, inr np =>
                     on_emitted
                       (EventStream.nowPlayingUpdated (PushFacts.nowPlayingUpdateOf np))
                       (on_emitted
                          (EventStream.volumeUpdated (PushFacts.volumeUpdateOf v)) a)
                 | _, _ => a
                 end),
             trace_of device (getVolume (client a)) s
               ++ trace_of device (getNowPlaying (client a))
                    (final_of device (getVolume (client a)) s),
             final_of device (getNowPlaying (client a))
               (final_of device (getVolume (client a)) s))).
  { unfold refreshState. rewrite exec_bind_attempt.
    unfold result_of at 1, trace_of at 1, final_of at 1. rewrite exec_all2.
    cbv zeta. cbn [fst snd].
    destruct (result_of device (getVolume (client a)) s) as [e1 | v];
      destruct (result_of device (getNowPlaying (client a))
                  (final_of device (getVolume (client a)) s)) as [e2 | np];
      cbn; rewrite app_nil_r; reflexivity. }
  split; [| split; [| split; [| split]]].
  - unfold trace_of at 1. rewrite Hexec. cbn [fst snd].
    unfold trace_of. rewrite exec_getVolume, exec_getNowPlaying. reflexivity.
  - unfold result_of at 1. rewrite Hexec. reflexivity.
  - intros v np. repeat split.
  - apply getVolume_reads_answer.
  - apply getNowPlaying_reads_source.
Qed.

(** ** setActiveInput *)

(** The key an index between 1 and 6 stands for. *)
Definition presetKey (index : Z) : option KeyValue :=
  if (index =? 1)%Z then Some PRESET_1
  else if (index =? 2)%Z then Some PRESET_2
  else if (index =? 3)%Z then Some PRESET_3
  else if (index =? 4)%Z then Some PRESET_4
  else if (index =? 5)%Z then Some PRESET_5
  else if (index =? 6)%Z then Some PRESET_6
  else None.

Lemma selectPreset_presetKey (this : SoundTouchClient) (index : Z) (key : KeyValue) :
  presetKey index = Some key -> selectPreset this (Fin index) = pressKey this key.
Proof.
  unfold presetKey.
  repeat match goal with
         | |- context [(index =? ?n)%Z] =>
             destruct (Z.eqb_spec index n) as [-> | _];
             [intros [= <-]; reflexivity |]
         end.
  discriminate.
Qed.

(** X18: what [setActiveInput] leaves behind.  The index is recorded
    before anything is sent and stays recorded when the selection fails,
    so the getter then reports an input the speaker did not switch to;
    the failure itself is reported as SERVICE_COMMUNICATION_FAILURE and
    the power state is untouched.  When the selection succeeds the
    accessory counts as on.  Without a configured preset for it, an
    index from 1 to 6 presses the preset key of that number, 7 presses
    AUX_INPUT and 8 selects the BLUETOOTH source; any other index sends
    nothing at all and still succeeds (and marks the accessory on). *)
Theorem setActiveInput_records_the_index
    (index : Z) (a : SoundTouchAccessory) (s : S) :
  let a0 := set_currentInputIndex index a in
  let selection := selectInput index a0 in
  trace_of device (setActiveInput index a) s = trace_of device selection s
  /\ (exists a' completion,
        result_of device (setActiveInput index a) s = ok (a', completion)
        /\ currentInputIndex a' = index
        /\ if is_ok (result_of device selection s)
           then completion = Resolved /\ isPoweredOn a' = true
                /\ Active a' = (if isPoweredOn a then Active a else true)
           else completion = HapStatusError SERVICE_COMMUNICATION_FAILURE
                /\ isPoweredOn a' = isPoweredOn a /\ Active a' = Active a)
  /\ (forall key, configPresetFor (deviceConfig a) index = None ->
        presetKey index = Some key -> selection = pressKey (client a) key)
  /\ (index = 7 -> selection = pressKey (client a) AUX_INPUT)
  /\ (index = 8 -> selection = selectSource (client a) "BLUETOOTH" None)
  /\ (index < 1 \/ 8 < index -> selection = Ret tt).
Proof.
  intros a0 selection.
  assert (Hexec : exec device (setActiveInput index a) s =
            (ok (if is_ok (result_of device selection s)
                 then (if negb (isPoweredOn a0)
                       then updatePowerState (set_isPoweredOn true a0) else a0,
                       Resolved)
                 else (a0, HapStatusError SERVICE_COMMUNICATION_FAILURE)),
             trace_of device selection s, final_of device selection s)).
  { unfold setActiveInput. cbv zeta. fold a0. fold selection. apply exec_guarded. }
  split; [unfold trace_of at 1; rewrite Hexec; reflexivity |].
  split; [| split; [| split; [| split]]].
  - unfold result_of at 1. rewrite Hexec. cbn [fst].
    destruct (is_ok (result_of device selection s)).
    + eexists _, _. split; [reflexivity |].
      subst a0. destruct (isPoweredOn a) eqn:Hon; cbn; rewrite ?Hon; auto.
    + eexists _, _. split; [reflexivity |]. subst a0. cbn. auto.
  - intros key Hnone Hkey. subst selection. unfold selectInput.
    assert (Hrange : (1 <=? index)%Z && (index <=? 6)%Z = true).
    { unfold presetKey in Hkey.
      repeat match type of Hkey with
             | context [(index =? ?n)%Z] =>
                 destruct (Z.eqb_spec index n) as [-> | _]; [reflexivity |]
             end.
      discriminate. }
    rewrite Hrange. change (deviceConfig a0) with (deviceConfig a). rewrite Hnone.
    apply selectPreset_presetKey, Hkey.
  - intros ->. reflexivity.
  - intros ->. reflexivity.
  - intros Hout. subst selection. unfold selectInput.
    assert (Hrange : (1 <=? index)%Z && (index <=? 6)%Z = false).
    { apply andb_false_iff. rewrite Z.leb_gt, Z.leb_gt. lia. }
    rewrite Hrange.
    rewrite (proj2 (Z.eqb_neq index 7)), (proj2 (Z.eqb_neq index 8)) by lia.
    reflexivity.
Qed.

(** ** initialize *)

Lemma refreshState_keeps (a : SoundTouchAccessory) (s : S) :
  exists a', result_of device (refreshState a) s = ok a'
    /\ deviceConfig a' = deviceConfig a
    /\ webSocket a' = webSocket a
    /\ listening a' = listening a
    /\ deviceInfo a' = deviceInfo a.
Proof.
  unfold result_of, refreshState. rewrite exec_bind_attempt.
  destruct (result_of device (all2 _ _) s) as [e | [v np]]; cbn; eauto 10.
Qed.

Lemma result_initialize (ctor : option exn) (a : SoundTouchAccessory) (s : S) :
  result_of device (initialize ctor a) s =
    match result_of device (getInfo (client a)) s with
    | inl _ => ok a
    | inr info =>
        let s1 := final_of device (getInfo (client a)) s in
        let a1 := setAccessoryInformation (info_type info) (info_deviceID info)
                    (set_deviceInfo (Some info) a) in
        match result_of device (refreshState a1) s1 with
        | inl e => throw e
        | inr a2 =>
            match result_of device (getPresets (client a2))
                    (final_of device (refreshState a1) s1) with
            | inl _ => ok a2
            | inr presets =>
                ok (setupWebSocket ctor
                      (updateInputSourceNames (set_devicePresets presets a2)))
            end
        end
    end.
Proof.
  unfold initialize, result_of, final_of. rewrite exec_bind_attempt.
  unfold result_of, final_of.
  destruct (exec device (getInfo (client a)) s) as [[[e | info] tr1] s1];
    cbn [fst snd]; [reflexivity |].
  rewrite exec_bind.
  destruct (exec device
              (refreshState (setAccessoryInformation (info_type info) (info_deviceID info)
                               (set_deviceInfo (Some info) a))) s1)
    as [[[e | a2] tr2] s2]; cbn [fst snd]; [reflexivity |].
  rewrite exec_bind_attempt. unfold result_of, final_of.
  destruct (exec device (getPresets (client a2)) s2) as [[[e | presets] tr3] s3];
    reflexivity.
Qed.

(** X16: [initialize] connects the push stream only at its very end,
    and keeps its errors: once its requests have settled it resolves,
    whether they succeeded or failed.  When [getInfo] fails, the one
    request to [/info] is all that happens: the accessory is left as it
    was, with no socket made.  When [getInfo] succeeds the state is
    refreshed (a failed refresh does not matter), and then the stream is
    connected exactly if [getPresets] succeeds. *)
Theorem initialize_connects_only_after_info_and_presets
    (ctor : option exn) (a : SoundTouchAccessory) (s : S) :
  let s1 := final_of device (getInfo (client a)) s in
  match result_of device (getInfo (client a)) s with
  | inl e =>
      result_of device (initialize ctor a) s = ok a
      /\ trace_of device (initialize ctor a) s = [options (client a) GET "/info" None]
  | inr info =>
      let a1 := setAccessoryInformation (info_type info) (info_deviceID info)
                    (set_deviceInfo (Some info) a) in
      let s2 := final_of device (refreshState a1) s1 in
      exists a2,
        result_of device (refreshState a1) s1 = ok a2
        /\ webSocket a2 = webSocket a
        /\ listening a2 = listening a
        /\ match result_of device (getPresets (client a)) s2 with
           | inl e => result_of device (initialize ctor a) s = ok a2
           | inr presets =>
               exists a3,
                 result_of device (initialize ctor a) s = ok a3
                 /\ a3 = setupWebSocket ctor
                           (updateInputSourceNames (set_devicePresets presets a2))
                 /\ listening a3 = true
                 /\ webSocket a3 = EventStream.connect ctor (webSocket a)
           end
  end.
Proof.
  intros s1. subst s1. rewrite result_initialize.
  destruct (result_of device (getInfo (client a)) s) as [e | info] eqn:Hres.
  - split; [reflexivity |]. unfold trace_of, initialize. rewrite exec_bind_attempt, Hres.
    cbn [fst snd exec app]. rewrite app_nil_r.
    unfold trace_of, getInfo. rewrite exec_bind, exec_get.
    destruct (parsed _) as [e' | result]; [reflexivity |].
    rewrite exec_lift. reflexivity.
  - cbv zeta.
    destruct (refreshState_keeps
                (setAccessoryInformation (info_type info) (info_deviceID info)
                   (set_deviceInfo (Some info) a))
                (final_of device (getInfo (client a)) s))
      as (a2 & Hrefresh & Hconfig & Hws & Hlisten & _).
    exists a2. split; [exact Hrefresh |]. split; [exact Hws |]. split; [exact Hlisten |].
    assert (Hclient : client a2 = client a).
    { unfold client. rewrite Hconfig. reflexivity. }
    rewrite Hrefresh. unfold ok. cbv beta iota. rewrite Hclient.
    destruct (result_of device (getPresets (client a)) _) as [e | presets].
    + reflexivity.
    + eexists. split; [reflexivity |]. split; [reflexivity |].
      split; [reflexivity |]. cbn. rewrite Hws. reflexivity.
Qed.

End Running.

(** ** Base64 *)

Lemma list_ind3 {A} (P : list A -> Prop) :
  P [] -> (forall a, P [a]) -> (forall a b, P [a; b]) ->
  (forall a b c l, P l -> P (a :: b :: c :: l)) ->
  forall l, P l.
Proof.
  intros H0 H1 H2 H3.
  fix IH 1. intros [| a [| b [| c l]]]; [exact H0 | apply H1 | apply H2 |].
  apply H3, IH.
Qed.

(** Every three bytes, or part of three, give four characters. *)
Lemma length_base64_encode (bytes : list N) :
  String.length (Node.base64_encode bytes) = (4 * ((length bytes + 2) / 3))%nat.
Proof.
  induction bytes as [| a | a b | a b c l IH] using list_ind3; try reflexivity.
  cbn [Node.base64_encode String.length length]. rewrite IH.
  replace (Datatypes.S (Datatypes.S (Datatypes.S (length l))) + 2)%nat
    with ((length l + 2) + 1 * 3)%nat by lia.
  rewrite Nat.div_add by lia. lia.
Qed.

Lemma length_bytes_of (s : string) : length (Node.bytes_of s) = String.length s.
Proof.
  unfold Node.bytes_of. rewrite length_map.
  induction s as [| c s IH]; [reflexivity |]. cbn. rewrite IH. reflexivity.
Qed.

(** The location [playSpotify] sends is never the URI itself. *)
Lemma spotifyLocation_differs (spotifyUri : string) :
  spotifyLocation spotifyUri <> spotifyUri.
Proof.
  intros Heq. apply (f_equal String.length) in Heq. revert Heq.
  unfold spotifyLocation, Node.toBase64.
  rewrite RefXml2jsFacts.length_append, length_base64_encode, length_bytes_of.
  cbn [String.length].
  pose proof (Nat.div_mod_eq (String.length spotifyUri + 2) 3) as Hdiv.
  pose proof (Nat.mod_upper_bound (String.length spotifyUri + 2) 3) as Hmod. lia.
Qed.

(** ** Configured presets *)

(** An attribute of the [ContentItem] of a payload. *)
Definition playedAttr (k : string) (obj : value) : res value :=
  ci <-r Js.get obj "ContentItem"; a <-r Js.get ci "$"; Js.get a k.

Section Presets.
Context `{Xml2js}.

(** [config] makes the accessory play [played] and then store [item]
    in its slot, with the source and the account that were played. *)
Definition plays_then_stores (config : PresetConfig.t) (a : SoundTouchAccessory)
    (played : value) (item : StoredItem) : Prop :=
  playConfiguredPreset config a =
    (_ <- select (client a) played ;;
     storePreset (client a) (PresetConfig.slot config) item)
  /\ playedAttr "source" played = ok (Str (item_source item))
  /\ playedAttr "sourceAccount" played = ok (Str (orEmpty (item_sourceAccount item))).

(** ... and the location that was played. *)
Definition stores_played_location (config : PresetConfig.t) (a : SoundTouchAccessory)
    : Prop :=
  exists played item,
    plays_then_stores config a played item
    /\ playedAttr "location" played = ok (Str (item_location item)).

(** X17: what a configured preset stores in its slot, against what it
    plays.  With its required fields present, an Amazon, Deezer, TuneIn
    or NAS preset is played with one POST to [/select] and then stored
    with one POST to [/storePreset], and what is stored has the source,
    the location and the account of what was played.  A Spotify preset
    is stored with the same source and account but with the plain URI
    as location, which is never the location that was played
    ([/playback/container/] and the URI in base64).  A radio preset is
    played and not stored. *)
Theorem configured_preset_stores_what_it_plays
    (config : PresetConfig.t) (a : SoundTouchAccessory) :
  (PresetConfig.type config = "amazon" ->
   given (PresetConfig.contentId config) = true ->
   given (PresetConfig.sourceAccount config) = true ->
   stores_played_location config a)
  /\ (PresetConfig.type config = "deezer" ->
      given (PresetConfig.contentId config) = true ->
      given (PresetConfig.sourceAccount config) = true ->
      stores_played_location config a)
  /\ (PresetConfig.type config = "tunein" ->
      given (PresetConfig.contentId config) = true ->
      stores_played_location config a)
  /\ (PresetConfig.type config = "nas" ->
      given (PresetConfig.nasLocation config) = true ->
      given (PresetConfig.nasServer config) = true ->
      stores_played_location config a)
  /\ (PresetConfig.type config = "spotify" ->
      given (PresetConfig.spotifyUri config) = true ->
      given (PresetConfig.sourceAccount config) = true ->
      exists played item,
        plays_then_stores config a played item
        /\ item_location item = orEmpty (PresetConfig.spotifyUri config)
        /\ playedAttr "location" played
           = ok (Str (spotifyLocation (orEmpty (PresetConfig.spotifyUri config))))
        /\ playedAttr "location" played <> ok (Str (item_location item)))
  /\ (PresetConfig.type config = "radio" ->
      given (PresetConfig.url config) = true ->
      playConfiguredPreset config a
      = playUrl (client a) (orEmpty (PresetConfig.url config))
          (Some (PresetConfig.name config))).
Proof.
  unfold stores_played_location, plays_then_stores, playConfiguredPreset.
  repeat split; intros Htype; rewrite Htype; cbn [String.eqb Ascii.eqb Bool.eqb];
    intros Hg1; try intros Hg2; rewrite ?Hg1, ?Hg2; cbn [andb].
  - eexists _, _. split; [split; [reflexivity | split; reflexivity] |]. reflexivity.
  - eexists _, _. split; [split; [reflexivity | split; reflexivity] |]. reflexivity.
  - eexists _, _. split; [split; [reflexivity | split; reflexivity] |]. reflexivity.
  - eexists _, _. split; [split; [reflexivity | split; reflexivity] |]. reflexivity.
  - eexists _, _. split; [split; [reflexivity | split; reflexivity] |].
    split; [reflexivity |]. split; [reflexivity |].
    cbn. intros Heq. injection Heq as Heq. revert Heq. apply spotifyLocation_differs.
  - reflexivity.
Qed.

End Presets.
End AccessoryFacts.

(* ===================================================================== *)
(** * A request that never settles *)
(* ===================================================================== *)

Module UnsettledFacts.
Import Client ClientCommands Platform Accessory ClientFacts ClientCommandsFacts.

(** On a speaker that settles every request, [run] is [exec]. *)
Lemma run_settling `{Xml2js} {S A} (device : S -> Request -> Outcome * S)
    (p : io A) (s : S) :
  run (settling device) p s = let '(r, tr, s1) := exec device p s in (Some r, tr, s1).
Proof.
  revert s. induction p as [a | e | r k IH]; intros s; cbn; try reflexivity.
  unfold settling at 1. destruct (device s r) as [o s1]. rewrite IH.
  destruct (exec device (k o) s1) as [[b tr] s2]. reflexivity.
Qed.

Section Unsettled.
Context `{Xml2js}.
Context {S : Type} (speaker : S -> Request -> option Outcome * S).

Lemma run_bind {A B} (m : io A) (f : A -> io B) (s : S) :
  run speaker (bind m f) s =
    match run speaker m s with
    | (Some (inr a), tr, s1) =>
        let '(b, tr2, s2) := run speaker (f a) s1 in (b, tr ++ tr2, s2)
    | (Some (inl e), tr, s1) => (Some (inl e), tr, s1)
    | (None, tr, s1) => (None, tr, s1)
    end.
Proof.
  revert s. induction m as [a | e | r k IH]; intros s; cbn.
  - destruct (run speaker (f a) s) as [[b tr2] s2]. reflexivity.
  - reflexivity.
  - destruct (speaker s r) as [[o |] s1]; [| reflexivity]. rewrite IH.
    destruct (run speaker (k o) s1) as [[[[e | a] |] tr] s2]; try reflexivity.
    destruct (run speaker (f a) s2) as [[b tr2] s3]. reflexivity.
Qed.

Lemma run_attempt {A} (m : io A) (s : S) :
  run speaker (attempt m) s =
    let '(r, tr, s1) := run speaker m s in (option_map ok r, tr, s1).
Proof.
  revert s. induction m as [a | e | r k IH]; intros s; cbn; try reflexivity.
  destruct (speaker s r) as [[o |] s1]; [| reflexivity]. rewrite IH.
  destruct (run speaker (k o) s1) as [[b tr] s2]. reflexivity.
Qed.

(** [try { await m; yes } catch { no }]. *)
Lemma run_guarded {A B} (m : io A) (yes no : B) (s : S) :
  run speaker (r <- attempt m ;;
               match r with
               | inr _ => Ret yes
               | inl _ => Ret no
               end) s =
    let '(r, tr, s1) := run speaker m s in
    (option_map (fun r => ok (if is_ok r then yes else no)) r, tr, s1).
Proof.
  rewrite run_bind, run_attempt.
  destruct (run speaker m s) as [[[[e | a] |] tr] s1]; cbn; rewrite ?app_nil_r; reflexivity.
Qed.

Lemma run_post (this : SoundTouchClient) path body s :
  run speaker (post this path body) s =
    (option_map parsed (speaker s (options this POST path (Some body))).1,
     [options this POST path (Some body)],
     (speaker s (options this POST path (Some body))).2).
Proof.
  unfold post, request. cbn.
  destruct (speaker s (options this POST path (Some body))) as [[o |] s1]; [| reflexivity].
  cbn. destruct o as [c d | e |]; cbn; [unfold parsed, resolves; destruct (status_ok c) |..];
    cbn; try reflexivity.
  destruct (parseString d); reflexivity.
Qed.

(** X23: a request that is left unsettled stalls whoever awaits it,
    and nobody rejects.  A key press whose press request is left
    unsettled never settles and never sends the release.  The volume,
    mute, volume-selector and remote-key handlers send what their
    command sends and settle exactly when it settles, always by
    resolving: the accessory changes only after a command that
    succeeded.  [setPowerState] likewise settles exactly when its
    [powerOn] or [powerOff] does, and reports
    SERVICE_COMMUNICATION_FAILURE only for one that failed.  On a
    speaker that settles every request this is the run the other
    results are about. *)
Theorem unsettled_request_stalls_its_handler
    (a : SoundTouchAccessory) (volume : number) (muted : bool) (value : Z)
    (remote : RemoteKey) (key : KeyValue) (s : S) :
  let kept {A B} (command : io A) (yes no : B) (handler : io B) : Prop :=
    run speaker handler s =
      let '(r, tr, s1) := run speaker command s in
      (option_map (fun r => ok (if is_ok r then yes else no)) r, tr, s1) in
  let shouldBeOn := (value =? ACTIVE)%Z in
  ((speaker s (press (client a) key)).1 = None ->
   run speaker (pressKey (client a) key) s
   = (None, [press (client a) key], (speaker s (press (client a) key)).2))
  /\ kept (setVolume (client a) volume) (set_currentVolume volume a) a
       (Volume_onSet volume a)
  /\ kept (setMute (client a) muted) (set_currentMute muted a) a (Mute_onSet muted a)
  /\ kept (if (value =? INCREMENT)%Z then volumeUp (client a) else volumeDown (client a))
       a a (VolumeSelector_onSet value a)
  /\ kept (remoteKeyAction remote a) a a (handleRemoteKey remote a)
  /\ (shouldBeOn = isPoweredOn a ->
      run speaker (setPowerState value a) s = (Some (ok (a, Resolved)), [], s))
  /\ (shouldBeOn <> isPoweredOn a ->
      kept (if shouldBeOn then powerOn (client a) else powerOff (client a))
        (set_isPoweredOn shouldBeOn a, Resolved)
        (a, HapStatusError SERVICE_COMMUNICATION_FAILURE)
        (setPowerState value a))
  /\ (forall (D B : Type) (device : D -> Request -> Outcome * D) (p : io B) (d : D),
        run (settling device) p d
        = let '(r, tr, d1) := exec device p d in (Some r, tr, d1)).
Proof.
  intros kept shouldBeOn. subst kept. cbv beta.
  split; [| split; [| split; [| split; [| split; [| split; [| split]]]]]].
  - intros Hnone. unfold pressKey. rewrite run_bind, run_post.
    fold (press (client a) key). rewrite Hnone. reflexivity.
  - apply run_guarded.
  - apply run_guarded.
  - unfold VolumeSelector_onSet. rewrite run_bind, run_attempt.
    destruct (run speaker _ s) as [[[[e | u] |] tr] s1]; cbn; rewrite ?app_nil_r;
      reflexivity.
  - unfold handleRemoteKey. rewrite run_bind, run_attempt.
    destruct (run speaker _ s) as [[[[e | u] |] tr] s1]; cbn; rewrite ?app_nil_r;
      reflexivity.
  - intros Heq. unfold setPowerState. fold shouldBeOn. rewrite <- Heq.
    destruct shouldBeOn; reflexivity.
  - intros Hne. unfold setPowerState. fold shouldBeOn.
    destruct shouldBeOn, (isPoweredOn a); try congruence; cbn [andb negb];
      apply run_guarded.
  - intros D B device p d. apply run_settling.
Qed.

End Unsettled.

(** A speaker that answers the first request it gets and loses the
    connection during the second. *)
Definition dropping (n : nat) (r : Request) : option Outcome * nat :=
  (match n with
   | O => Some (Responded 200 "<status>/key</status>")
   | _ => None
   end,
   Datatypes.S n).

(** The release is sent and never answered: the key press hangs, and so
    does the handler that pressed the key. *)
Example pressKey_release_unsettled :
  run dropping (@pressKey RefXml2js.codec speaker PLAY) 0%nat
  = (None, [press speaker PLAY; release speaker PLAY], 2%nat).
Proof. reflexivity. Qed.

End UnsettledFacts.

(* ===================================================================== *)
(** * Properties of the platform *)
(* ===================================================================== *)

Module PlatformFacts.
Import Platform.

(** ** Maps in insertion order *)

Lemma eqb_sym (a b : string) : String.eqb a b = String.eqb b a.
Proof.
  destruct (String.eqb_spec a b) as [-> | Hne].
  - symmetry. apply String.eqb_refl.
  - symmetry. apply String.eqb_neq. congruence.
Qed.

Lemma assoc_Map_set {V} (k k' : string) (v : V) (m : list (string * V)) :
  assoc k' (Map_set k v m) = if String.eqb k' k then Some v else assoc k' m.
Proof.
  induction m as [| [k0 v0] m IH]; cbn [Map_set assoc].
  - destruct (String.eqb k' k); reflexivity.
  - destruct (String.eqb_spec k0 k) as [-> | Hne]; cbn [assoc].
    + destruct (String.eqb k' k); reflexivity.
    + rewrite IH. destruct (String.eqb_spec k' k0) as [-> | Hne'].
      * rewrite (proj2 (String.eqb_neq k0 k) Hne). reflexivity.
      * reflexivity.
Qed.

Lemma assoc_None {V} (k : string) (m : list (string * V)) :
  assoc k m = None <-> k ∉ map fst m.
Proof.
  induction m as [| [k0 v0] m IH]; cbn [assoc map fst].
  - split; [intros _; apply not_elem_of_nil | reflexivity].
  - rewrite not_elem_of_cons.
    destruct (String.eqb_spec k k0) as [-> | Hne].
    + split; [discriminate | intros [Hne _]; congruence].
    + rewrite IH. tauto.
Qed.

Lemma Map_has_false {V} (k : string) (m : list (string * V)) :
  Map_has k m = false <-> k ∉ map fst m.
Proof.
  unfold Map_has. rewrite bool_decide_eq_false, <- assoc_None.
  destruct (assoc k m); split; intros Hx; try reflexivity; try discriminate.
  - exfalso. apply Hx. eauto.
  - intros [x Hsome]. discriminate.
Qed.

Lemma keys_Map_set_new {V} (k : string) (v : V) (m : list (string * V)) :
  k ∉ map fst m -> Map_set k v m = m ++ [(k, v)].
Proof.
  induction m as [| [k0 v0] m IH]; cbn [Map_set map fst app]; [reflexivity |].
  rewrite not_elem_of_cons. intros [Hne Hnin].
  rewrite (proj2 (String.eqb_neq k0 k)) by congruence. rewrite IH by exact Hnin.
  reflexivity.
Qed.

Lemma keys_Map_set_old {V} (k : string) (v : V) (m : list (string * V)) :
  k ∈ map fst m -> map fst (Map_set k v m) = map fst m.
Proof.
  induction m as [| [k0 v0] m IH]; cbn [Map_set map fst].
  - intros Hin. apply elem_of_nil in Hin. contradiction.
  - intros Hin. destruct (String.eqb_spec k0 k) as [-> | Hne]; [reflexivity |].
    cbn [map fst]. rewrite IH; [reflexivity |].
    apply elem_of_cons in Hin as [-> | Hin]; [congruence | exact Hin].
Qed.

Lemma NoDup_Map_set {V} (k : string) (v : V) (m : list (string * V)) :
  NoDup (map fst m) -> NoDup (map fst (Map_set k v m)).
Proof.
  intros Hnodup. destruct (decide (k ∈ map fst m)) as [Hin | Hnin].
  - rewrite keys_Map_set_old by exact Hin. exact Hnodup.
  - rewrite keys_Map_set_new by exact Hnin. rewrite map_app. cbn [map fst].
    apply NoDup_app. split; [exact Hnodup |]. split; [| apply NoDup_singleton].
    intros x Hx Hx'. apply list_elem_of_singleton in Hx'. subst x. contradiction.
Qed.

Lemma assoc_Some_in {V} (k : string) (v : V) (m : list (string * V)) :
  assoc k m = Some v -> (k, v) ∈ m.
Proof.
  induction m as [| [k0 v0] m IH]; cbn [assoc]; [discriminate |].
  destruct (String.eqb_spec k k0) as [-> | Hne].
  - intros [= ->]. left.
  - intros Hin. right. apply IH, Hin.
Qed.

Lemma in_assoc_NoDup {V} (k : string) (v : V) (m : list (string * V)) :
  NoDup (map fst m) -> (k, v) ∈ m -> assoc k m = Some v.
Proof.
  induction m as [| [k0 v0] m IH]; cbn [assoc map fst].
  - intros _ Hin. apply elem_of_nil in Hin. contradiction.
  - intros Hnodup Hin. apply NoDup_cons in Hnodup as [Hnin Hnodup].
    apply elem_of_cons in Hin as [[= -> ->] | Hin].
    + rewrite String.eqb_refl. reflexivity.
    + destruct (String.eqb_spec k k0) as [-> | Hne]; [| apply IH; assumption].
      exfalso. apply Hnin. apply list_elem_of_fmap. exists (k0, v). auto.
Qed.


(** ** Registration *)

Section Hap.
Context (generate : string -> string).

(** The accessory [registerDevice] publishes for a device. *)
Definition accessoryFor (device : DeviceConfig.t) : PlatformAccessory :=
  {| displayName := displayNameOf device;
     UUID := generate (DeviceConfig.host device);
     category := categoryOf device;
     context_device := device |}.

Definition hostOf (accessory : PlatformAccessory) : string :=
  DeviceConfig.host (context_device accessory).

(** Both maps hold the hosts of what was published, once each. *)
Definition consistent (p : SoundTouchPlatform) : Prop :=
  map fst (externalAccessories p) = map hostOf (published p)
  /\ map fst (soundTouchAccessories p) = map hostOf (published p)
  /\ NoDup (map hostOf (published p)).

Lemma registerDevice_published (device : DeviceConfig.t) (p : SoundTouchPlatform) :
  consistent p ->
  consistent (registerDevice generate device p)
  /\ published (registerDevice generate device p)
     = if bool_decide (DeviceConfig.host device ∈ map hostOf (published p))
       then published p
       else published p ++ [accessoryFor device].
Proof.
  intros (Hext & Hst & Hnodup). unfold registerDevice. cbv zeta.
  destruct (Map_has (DeviceConfig.host device) (externalAccessories p)) eqn:Hhas.
  - assert (Hin : DeviceConfig.host device ∈ map hostOf (published p)).
    { rewrite <- Hext.
      destruct (decide (DeviceConfig.host device ∈ map fst (externalAccessories p)))
        as [Hyes | Hno]; [assumption |].
      apply Map_has_false in Hno. congruence. }
    rewrite bool_decide_eq_true_2 by exact Hin. repeat split; assumption.
  - apply Map_has_false in Hhas.
    assert (Hnin : DeviceConfig.host device ∉ map hostOf (published p))
      by (rewrite <- Hext; exact Hhas).
    rewrite bool_decide_eq_false_2 by exact Hnin. split; [| reflexivity].
    unfold consistent. cbn [externalAccessories soundTouchAccessories published].
    rewrite !keys_Map_set_new, !map_app by (rewrite ?Hst; assumption).
    cbn [map fst]. rewrite Hext, Hst. repeat split.
    apply NoDup_app. split; [exact Hnodup |]. split; [| apply NoDup_singleton].
    intros x Hx Hx'. apply list_elem_of_singleton in Hx'. subst x. contradiction.
Qed.

Lemma register_all (l : list DeviceConfig.t) (p : SoundTouchPlatform) :
  consistent p ->
  NoDup (map DeviceConfig.host l) ->
  (forall d, d ∈ l -> DeviceConfig.host d ∉ map hostOf (published p)) ->
  consistent (foldl (fun p device => registerDevice generate device p) p l)
  /\ published (foldl (fun p device => registerDevice generate device p) p l)
     = published p ++ map accessoryFor l.
Proof.
  revert p. induction l as [| d l IH]; intros p Hp Hnodup Hfresh.
  - cbn. rewrite app_nil_r. auto.
  - cbn [foldl map] in *. apply NoDup_cons in Hnodup as [Hd Hnodup].
    destruct (registerDevice_published d p Hp) as [Hp' Hpub].
    rewrite bool_decide_eq_false_2 in Hpub by (apply Hfresh; left).
    destruct (IH (registerDevice generate d p) Hp' Hnodup) as [Hc Hall].
    { intros d' Hd'. rewrite Hpub, map_app, elem_of_app. cbn [map].
      intros [Hin | Hin].
      - revert Hin. apply Hfresh. right. exact Hd'.
      - apply list_elem_of_singleton in Hin. apply Hd.
        apply list_elem_of_fmap. exists d'. split; [symmetry; exact Hin | exact Hd']. }
    split; [exact Hc |]. rewrite Hall, Hpub, <- app_assoc. reflexivity.
Qed.

(** ** The configured devices *)

(** The entries of the configuration that have a host. *)
Definition withHost (c : SoundTouchPlatformConfig) : list DeviceConfig.t :=
  filter (fun d => hasHost d = true) (default [] (devices c)).

Definition setAll (l : list DeviceConfig.t) (m : list (string * DeviceConfig.t))
    : list (string * DeviceConfig.t) :=
  foldl (fun m d => Map_set (DeviceConfig.host d) d m) m l.

Lemma addConfigured_setAll (devs : option (list DeviceConfig.t)) :
  addConfigured devs = setAll (filter (fun d => hasHost d = true) (default [] devs)) [].
Proof.
  unfold addConfigured, setAll. generalize (@nil (string * DeviceConfig.t)).
  induction (default [] devs) as [| d l IH]; intros m; [reflexivity |].
  cbn [foldl]. destruct (hasHost d) eqn:Hd.
  - rewrite filter_cons_True by exact Hd. cbn [foldl]. apply IH.
  - rewrite filter_cons_False by congruence. apply IH.
Qed.

(** The map is keyed by the host of each entry. *)
Definition keyed (m : list (string * DeviceConfig.t)) : Prop :=
  NoDup (map fst m) /\ (forall k v, (k, v) ∈ m -> DeviceConfig.host v = k).

Lemma keyed_Map_set (d : DeviceConfig.t) (m : list (string * DeviceConfig.t)) :
  keyed m -> keyed (Map_set (DeviceConfig.host d) d m).
Proof.
  intros [Hnodup Hkeys]. split; [apply NoDup_Map_set, Hnodup |].
  intros k v Hin.
  assert (Hassoc : assoc k (Map_set (DeviceConfig.host d) d m) = Some v).
  { apply in_assoc_NoDup; [apply NoDup_Map_set, Hnodup | exact Hin]. }
  rewrite assoc_Map_set in Hassoc.
  destruct (String.eqb_spec k (DeviceConfig.host d)) as [-> | Hne].
  - injection Hassoc as <-. reflexivity.
  - apply Hkeys, assoc_Some_in, Hassoc.
Qed.

Lemma setAll_spec (l : list DeviceConfig.t) (m : list (string * DeviceConfig.t)) :
  keyed m ->
  keyed (setAll l m)
  /\ (forall k, k ∈ map fst (setAll l m)
               <-> k ∈ map fst m \/ k ∈ map DeviceConfig.host l)
  /\ (forall k v, (k, v) ∈ setAll l m -> (k, v) ∈ m \/ v ∈ l)
  /\ (forall pre d post, l = pre ++ d :: post ->
        (forall d', d' ∈ post -> DeviceConfig.host d' <> DeviceConfig.host d) ->
        assoc (DeviceConfig.host d) (setAll l m) = Some d).
Proof.
  revert m. induction l as [| d0 l IH]; intros m Hm.
  - split; [exact Hm |]. split; [| split].
    + intros k. cbn. rewrite elem_of_nil. tauto.
    + auto.
    + intros pre d post Hsplit. destruct pre; discriminate.
  - cbn [setAll foldl]. fold (setAll l (Map_set (DeviceConfig.host d0) d0 m)).
    pose proof (keyed_Map_set d0 m Hm) as Hm'.
    destruct (IH _ Hm') as (Hkeyed & Hdom & Hvals & Hlast).
    split; [exact Hkeyed |]. split; [| split].
    + intros k. rewrite Hdom. cbn [map]. rewrite elem_of_cons.
      destruct (decide (DeviceConfig.host d0 ∈ map fst m)) as [Hin | Hnin].
      * rewrite keys_Map_set_old by exact Hin.
        split; [tauto |]. intros [? | [-> | ?]]; auto.
      * rewrite keys_Map_set_new, map_app, elem_of_app by exact Hnin. cbn [map fst].
        rewrite list_elem_of_singleton. tauto.
    + intros k v Hin. destruct (Hvals k v Hin) as [Hset | Hl]; [| right; right; exact Hl].
      assert (Hassoc : assoc k (Map_set (DeviceConfig.host d0) d0 m) = Some v).
      { apply in_assoc_NoDup; [apply Hm' | exact Hset]. }
      rewrite assoc_Map_set in Hassoc.
      destruct (String.eqb k (DeviceConfig.host d0)).
      * injection Hassoc as <-. right. left.
      * left. apply assoc_Some_in, Hassoc.
    + intros pre d post Hsplit Hlater. destruct pre as [| d1 pre].
      * cbn in Hsplit. injection Hsplit as <- <-.
        assert (Hstill : forall l' m',
                   (forall d', d' ∈ l' -> DeviceConfig.host d' <> DeviceConfig.host d0) ->
                   assoc (DeviceConfig.host d0) (setAll l' m')
                   = assoc (DeviceConfig.host d0) m').
        { clear. induction l' as [| d' l' IH']; intros m' Hne; [reflexivity |].
          cbn [setAll foldl]. fold (setAll l' (Map_set (DeviceConfig.host d') d' m')).
          rewrite IH' by (intros x Hx; apply Hne; right; exact Hx).
          rewrite assoc_Map_set.
          rewrite (proj2 (String.eqb_neq _ _)); [reflexivity |].
          intros Heq. apply (Hne d'); [left | congruence]. }
        rewrite Hstill by exact Hlater. rewrite assoc_Map_set, String.eqb_refl.
        reflexivity.
      * cbn in Hsplit. injection Hsplit as <- ->. apply (Hlast pre d post); auto.
Qed.

Lemma addDiscovered_spec (discovered : list Discovery.DiscoveredDevice)
    (m : list (string * DeviceConfig.t)) :
  keyed m ->
  exists extra,
    addDiscovered discovered m = m ++ extra
    /\ keyed (m ++ extra)
    /\ (forall k v, (k, v) ∈ extra ->
          exists dev, dev ∈ discovered /\ v = discoveredConfig dev
                      /\ k = Discovery.host dev /\ k ∉ map fst m)
    /\ (forall dev, dev ∈ discovered -> Discovery.host dev ∈ map fst (m ++ extra))
    /\ (forall dev, dev ∈ discovered -> Discovery.host dev ∉ map fst m ->
          exists dev', dev' ∈ discovered /\ Discovery.host dev' = Discovery.host dev
                       /\ (Discovery.host dev, discoveredConfig dev') ∈ extra).
Proof.
  revert m. induction discovered as [| dev l IH]; intros m Hm.
  - exists []. rewrite app_nil_r. split; [reflexivity |]. split; [exact Hm |].
    split; [| split].
    + intros k v Hin. apply elem_of_nil in Hin. contradiction.
    + intros d Hin. apply elem_of_nil in Hin. contradiction.
    + intros d Hin. apply elem_of_nil in Hin. contradiction.
  - cbn [addDiscovered foldl].
    destruct (Map_has (Discovery.host dev) m) eqn:Hhas.
    + fold (addDiscovered l m).
      destruct (IH m Hm) as (extra & Heq & Hkeyed & Hextra & Hall & Hnew).
      assert (Hin : Discovery.host dev ∈ map fst m).
      { destruct (decide (Discovery.host dev ∈ map fst m)) as [Hyes | Hno];
          [assumption |].
        apply Map_has_false in Hno. congruence. }
      exists extra. split; [exact Heq |]. split; [exact Hkeyed |].
      split; [| split].
      * intros k v Hkv. destruct (Hextra k v Hkv) as (d & Hd & ?).
        exists d. split; [right; exact Hd | assumption].
      * intros d Hd. apply elem_of_cons in Hd as [-> | Hd]; [| apply Hall, Hd].
        rewrite map_app, elem_of_app. left. exact Hin.
      * intros d Hd Hnin. apply elem_of_cons in Hd as [-> | Hd]; [contradiction |].
        destruct (Hnew d Hd Hnin) as (d' & Hd' & ?).
        exists d'. split; [right; exact Hd' | assumption].
    + apply Map_has_false in Hhas.
      fold (addDiscovered l (Map_set (Discovery.host dev) (discoveredConfig dev) m)).
      rewrite (keys_Map_set_new _ _ _ Hhas).
      assert (Hm' : keyed (m ++ [(Discovery.host dev, discoveredConfig dev)])).
      { rewrite <- (keys_Map_set_new _ _ _ Hhas).
        apply (keyed_Map_set (discoveredConfig dev) m Hm). }
      destruct (IH _ Hm') as (extra & Heq & Hkeyed & Hextra & Hall & Hnew).
      exists ((Discovery.host dev, discoveredConfig dev) :: extra).
      rewrite Heq, <- app_assoc. cbn [app].
      rewrite <- app_assoc in Hkeyed, Hall. cbn [app] in Hkeyed, Hall.
      split; [reflexivity |]. split; [exact Hkeyed |]. split; [| split].
      * intros k v Hkv. apply elem_of_cons in Hkv as [[= -> ->] | Hkv].
        -- exists dev. split; [left |]. auto.
        -- destruct (Hextra k v Hkv) as (d & Hd & Hv & Hk & Hnin).
           exists d. split; [right; exact Hd |]. split; [exact Hv |].
           split; [exact Hk |]. intros Hin. apply Hnin.
           rewrite map_app, elem_of_app. left. exact Hin.
      * intros d Hd. apply elem_of_cons in Hd as [-> | Hd]; [| apply Hall, Hd].
        rewrite map_app, elem_of_app. right. left.
      * intros d Hd Hnin. apply elem_of_cons in Hd as [-> | Hd].
        -- exists dev. split; [left |]. split; [reflexivity | left].
        -- destruct (decide (Discovery.host d = Discovery.host dev)) as [Heqh | Hneh].
           ++ exists dev. split; [left |]. split; [congruence |]. rewrite Heqh. left.
           ++ destruct (Hnew d Hd) as (d' & Hd' & Hh & Hin').
              { rewrite map_app, elem_of_app. cbn [map fst].
                rewrite list_elem_of_singleton. tauto. }
              exists d'. split; [right; exact Hd' |]. split; [exact Hh |].
              right. exact Hin'.
Qed.


Lemma fresh_consistent (c : SoundTouchPlatformConfig) :
  consistent (new_SoundTouchPlatform c).
Proof. repeat split. constructor. Qed.

(** What [discoverDevices] publishes on a fresh platform: one accessory
    for each entry of the reconciled map, in its order. *)
Lemma discoverDevices_published (c : SoundTouchPlatformConfig)
    (reported : list Discovery.Service.t) :
  let m := if autoDiscovers c
           then addDiscovered (Discovery.discoverOnce reported) (addConfigured (devices c))
           else addConfigured (devices c) in
  keyed m
  /\ consistent (discoverDevices generate reported (new_SoundTouchPlatform c))
  /\ published (discoverDevices generate reported (new_SoundTouchPlatform c))
     = map accessoryFor (Map_values m).
Proof.
  intros m.
  assert (Hm0 : keyed (addConfigured (devices c))).
  { rewrite addConfigured_setAll. apply setAll_spec. split; [constructor |].
    intros k v Hin. apply elem_of_nil in Hin. contradiction. }
  assert (Hm : keyed m).
  { subst m. destruct (autoDiscovers c); [| exact Hm0].
    destruct (addDiscovered_spec (Discovery.discoverOnce reported) _ Hm0)
      as (extra & -> & Hkeyed & _). exact Hkeyed. }
  split; [exact Hm |].
  unfold discoverDevices. cbv zeta. fold m.
  cbn [config new_SoundTouchPlatform accessories soundTouchAccessories
       externalAccessories published unregistered app].
  set (p0 := {| config := c; accessories := []; soundTouchAccessories := [];
                externalAccessories := []; published := []; unregistered := [];
                discovering := autoDiscovers c |}).
  assert (Hhosts : map DeviceConfig.host (Map_values m) = map fst m).
  { destruct Hm as [_ Hkeys]. unfold Map_values. clear -Hkeys.
    induction m as [| [k v] m IH]; [reflexivity |]. cbn [map fst snd]. f_equal.
    - apply Hkeys. left.
    - apply IH. intros k' v' Hin. apply Hkeys. right. exact Hin. }
  destruct (register_all (Map_values m) p0) as [Hc Hpub].
  - repeat split. constructor.
  - rewrite Hhosts. apply Hm.
  - intros d _. apply not_elem_of_nil.
  - split; [exact Hc | exact Hpub].
Qed.

(** X19: static configuration and discovery reconciled.  On a fresh
    platform [discoverDevices] publishes at most one accessory per host.
    Every configured device with a host is published from its own
    configuration entry (the last one, when several entries name the
    same host), whether or not discovery also finds that host.  A
    discovered device is published from its advertised name only when
    no configured entry names its host, and nothing else is published.
    With [autoDiscover] false nothing discovered is published. *)
Theorem discoverDevices_reconciles (c : SoundTouchPlatformConfig)
    (reported : list Discovery.Service.t) :
  let p := discoverDevices generate reported (new_SoundTouchPlatform c) in
  let discovered := Discovery.discoverOnce reported in
  NoDup (map hostOf (published p))
  /\ (forall pre d post,
        withHost c = pre ++ d :: post ->
        (forall d', d' ∈ post -> DeviceConfig.host d' <> DeviceConfig.host d) ->
        accessoryFor d ∈ published p)
  /\ (forall dev,
        autoDiscovers c = true ->
        dev ∈ discovered ->
        Discovery.host dev ∉ map DeviceConfig.host (withHost c) ->
        exists dev', dev' ∈ discovered
                     /\ Discovery.host dev' = Discovery.host dev
                     /\ accessoryFor (discoveredConfig dev') ∈ published p)
  /\ (forall accessory,
        accessory ∈ published p ->
        accessory = accessoryFor (context_device accessory)
        /\ (context_device accessory ∈ withHost c
            \/ (autoDiscovers c = true
                /\ exists dev, dev ∈ discovered
                               /\ context_device accessory = discoveredConfig dev
                               /\ Discovery.host dev
                                    ∉ map DeviceConfig.host (withHost c)))).
Proof.
  intros p discovered. subst p discovered.
  destruct (discoverDevices_published c reported) as (Hm & Hcons & Hpub).
  cbv zeta in Hm, Hpub.
  assert (Hnil : keyed (@nil (string * DeviceConfig.t))).
  { split; [constructor |]. intros k v Hin. apply elem_of_nil in Hin. contradiction. }
  destruct (setAll_spec (withHost c) [] Hnil) as (Hm0 & Hdom0 & Hvals0 & Hlast0).
  unfold withHost in Hm0, Hdom0, Hvals0, Hlast0.
  rewrite <- addConfigured_setAll in Hm0, Hdom0, Hvals0, Hlast0.
  fold (withHost c) in Hdom0, Hvals0, Hlast0.
  assert (Hdom0' : forall k, k ∈ map fst (addConfigured (devices c))
                             <-> k ∈ map DeviceConfig.host (withHost c)).
  { intros k. rewrite Hdom0. cbn [map]. rewrite elem_of_nil. tauto. }
  assert (Hvals0' : forall k v, (k, v) ∈ addConfigured (devices c) -> v ∈ withHost c).
  { intros k v Hin. destruct (Hvals0 k v Hin) as [Hnil' | Hv]; [| exact Hv].
    apply elem_of_nil in Hnil'. contradiction. }
  destruct (addDiscovered_spec (Discovery.discoverOnce reported) _ Hm0)
    as (extra & Hadd & Hkeyed & Hextra & Hall & Hnew).
  rewrite Hadd in Hm, Hpub.
  split; [apply Hcons |]. split; [| split].
  - intros pre d post Hsplit Hlater. rewrite Hpub.
    apply list_elem_of_fmap. exists d. split; [reflexivity |].
    unfold Map_values. apply list_elem_of_fmap. exists (DeviceConfig.host d, d).
    split; [reflexivity |].
    pose proof (assoc_Some_in _ _ _ (Hlast0 pre d post Hsplit Hlater)) as Hin.
    destruct (autoDiscovers c); [apply elem_of_app; left |]; exact Hin.
  - intros dev Hauto Hdev Hnin. rewrite Hauto in Hpub.
    destruct (Hnew dev Hdev) as (dev' & Hdev' & Hhost & Hin).
    { rewrite Hdom0'. exact Hnin. }
    exists dev'. split; [exact Hdev' |]. split; [exact Hhost |].
    rewrite Hpub. apply list_elem_of_fmap. exists (discoveredConfig dev').
    split; [reflexivity |]. unfold Map_values. apply list_elem_of_fmap.
    exists (Discovery.host dev, discoveredConfig dev'). split; [reflexivity |].
    apply elem_of_app. right. exact Hin.
  - intros accessory Hacc. rewrite Hpub in Hacc.
    apply list_elem_of_fmap in Hacc as (d & -> & Hd).
    split; [reflexivity |]. cbn [context_device accessoryFor].
    unfold Map_values in Hd. apply list_elem_of_fmap in Hd as ([k v] & -> & Hkv).
    cbn [snd].
    destruct (autoDiscovers c).
    + apply elem_of_app in Hkv as [Hkv | Hkv].
      * left. apply (Hvals0' k v Hkv).
      * right. split; [reflexivity |].
        destruct (Hextra k v Hkv) as (dev & Hdev & Hv & Hk & Hnin).
        exists dev. split; [exact Hdev |]. split; [exact Hv |].
        rewrite <- Hdom0', <- Hk. exact Hnin.
    + left. apply (Hvals0' k v Hkv).
Qed.


(** ** Devices found later *)

Lemma onDeviceFound_published (dev : Discovery.DiscoveredDevice) (p : SoundTouchPlatform) :
  consistent p ->
  consistent (onDeviceFound generate dev p)
  /\ published (onDeviceFound generate dev p)
     = if bool_decide (Discovery.host dev ∈ map hostOf (published p))
       then published p
       else published p ++ [accessoryFor (discoveredConfig dev)].
Proof.
  intros Hp. unfold onDeviceFound.
  destruct (Map_has (Discovery.host dev) (soundTouchAccessories p)) eqn:Hhas.
  - assert (Hin : Discovery.host dev ∈ map hostOf (published p)).
    { destruct Hp as (_ & Hst & _). rewrite <- Hst.
      destruct (decide (Discovery.host dev ∈ map fst (soundTouchAccessories p)))
        as [Hyes | Hno]; [assumption |].
      apply Map_has_false in Hno. congruence. }
    rewrite bool_decide_eq_true_2 by exact Hin. auto.
  - apply (registerDevice_published (discoveredConfig dev) p Hp).
Qed.

Lemma found_later (later : list Discovery.DiscoveredDevice) (p : SoundTouchPlatform) :
  consistent p ->
  let p' := foldl (fun p dev => onDeviceFound generate dev p) p later in
  consistent p'
  /\ published p `prefix_of` published p'
  /\ (forall dev, dev ∈ later -> Discovery.host dev ∈ map hostOf (published p'))
  /\ (forall accessory, accessory ∈ published p' ->
        accessory ∈ published p
        \/ exists dev, dev ∈ later
                       /\ accessory = accessoryFor (discoveredConfig dev)
                       /\ Discovery.host dev ∉ map hostOf (published p)).
Proof.
  revert p. induction later as [| dev later IH]; intros p Hp; cbn [foldl].
  - split; [exact Hp |]. split; [reflexivity |]. split; [| auto].
    intros dev Hin. apply elem_of_nil in Hin. contradiction.
  - destruct (onDeviceFound_published dev p Hp) as [Hp1 Hpub].
    destruct (IH _ Hp1) as (Hc & Hprefix & Hall & Hfrom).
    assert (Hstep : published p `prefix_of` published (onDeviceFound generate dev p)).
    { rewrite Hpub. destruct (bool_decide _); [reflexivity |].
      apply prefix_app_r. reflexivity. }
    split; [exact Hc |]. split; [etrans; eassumption |]. split.
    + intros d Hd. apply elem_of_cons in Hd as [-> | Hd]; [| apply Hall, Hd].
      destruct Hprefix as [more ->]. rewrite map_app, elem_of_app. left.
      rewrite Hpub.
      destruct (bool_decide_reflect (Discovery.host dev ∈ map hostOf (published p)))
        as [Hin | Hnin]; [exact Hin |].
      rewrite map_app, elem_of_app. right. left.
    + intros accessory Hacc. destruct (Hfrom accessory Hacc) as [Hin | Hnew].
      * rewrite Hpub in Hin.
        destruct (bool_decide_reflect (Discovery.host dev ∈ map hostOf (published p)))
          as [Hyes | Hno]; [left; exact Hin |].
        apply elem_of_app in Hin as [Hin | Hin]; [left; exact Hin |].
        apply list_elem_of_singleton in Hin. right. exists dev.
        split; [left |]. auto.
      * destruct Hnew as (d & Hd & Heq & Hnin). right. exists d.
        split; [right; exact Hd |]. split; [exact Heq |].
        intros Hin. apply Hnin. destruct Hstep as [more ->].
        rewrite map_app, elem_of_app. left. exact Hin.
Qed.

(** X20: the devices continuous discovery finds after start-up never
    give a host a second accessory.  Whatever [discoverDevices]
    published stays as it is; a device found later is published, from
    its advertised name, only if no accessory exists for its host; and
    after any sequence of such finds every found host has exactly one
    accessory. *)
Theorem later_finds_add_new_hosts_only (c : SoundTouchPlatformConfig)
    (reported : list Discovery.Service.t) (later : list Discovery.DiscoveredDevice) :
  let p1 := discoverDevices generate reported (new_SoundTouchPlatform c) in
  let p2 := foldl (fun p dev => onDeviceFound generate dev p) p1 later in
  NoDup (map hostOf (published p2))
  /\ published p1 `prefix_of` published p2
  /\ (forall dev, dev ∈ later -> Discovery.host dev ∈ map hostOf (published p2))
  /\ (forall accessory, accessory ∈ published p2 ->
        accessory ∈ published p1
        \/ exists dev, dev ∈ later
                       /\ accessory = accessoryFor (discoveredConfig dev)
                       /\ Discovery.host dev ∉ map hostOf (published p1)).
Proof.
  intros p1 p2. subst p1 p2.
  destruct (discoverDevices_published c reported) as (_ & Hcons & _).
  destruct (found_later later _ Hcons) as (Hc & Hrest).
  split; [apply Hc | exact Hrest].
Qed.

End Hap.
End PlatformFacts.

(* ===================================================================== *)
(** * Properties of the settings page's server *)
(* ===================================================================== *)

Module UiServerFacts.
Import Platform PlatformFacts UiServer.

(** An address written with dots or with colons, not both: IPv4 in
    dotted form, or IPv6 in plain form. *)
Definition plain (addr : string) : Prop :=
  includes_dot addr = negb (Discovery.includes_colon addr).

Lemma find_plain (l : list string) :
  Forall plain l ->
  find includes_dot l = find (fun addr => negb (Discovery.includes_colon addr)) l.
Proof.
  intros Hl. induction Hl as [| a l Ha _ IH]; [reflexivity |].
  cbn [find]. rewrite Ha, IH. reflexivity.
Qed.

Lemma find_dotted (l : list string) :
  Exists (fun addr => includes_dot addr = true) l ->
  exists addr, find includes_dot l = Some addr /\ includes_dot addr = true.
Proof.
  intros Hl. induction Hl as [a l Ha | a l _ IH]; cbn [find].
  - rewrite Ha. eauto.
  - destruct (includes_dot a) eqn:Ha; eauto.
Qed.

(** A string with a dot in it is not blank. *)
Lemma dotted_not_blank_upto (n : nat) (s : string) :
  (String.length s <= n)%nat -> blank s = true -> includes_dot s = false.
Proof.
  revert s. induction n as [| n IH]; intros s Hlen.
  - destruct s; [reflexivity | cbn in Hlen; lia].
  - destruct s as [| c1 s1]; [reflexivity |]. cbn [String.length] in Hlen.
    cbn [blank includes_dot].
    destruct (ascii_white c1) eqn:Hw1.
    + intros Hb. rewrite (IH s1) by (lia || exact Hb).
      destruct (Ascii.eqb_spec c1 "."); [subst c1; discriminate | reflexivity].
    + destruct s1 as [| c2 s2]; [discriminate |]. cbn [String.length] in Hlen.
      destruct (white2 c1 c2) eqn:Hw2.
      * intros Hb. cbn [includes_dot]. rewrite (IH s2) by (lia || exact Hb).
        unfold white2 in Hw2. apply andb_true_iff in Hw2 as [H1 H2].
        apply Nat.eqb_eq in H1, H2.
        destruct (Ascii.eqb_spec c1 "."); [subst c1; discriminate |].
        destruct (Ascii.eqb_spec c2 "."); [subst c2; discriminate | reflexivity].
      * destruct s2 as [| c3 s3]; [discriminate |]. cbn [String.length] in Hlen.
        destruct (white3 c1 c2 c3) eqn:Hw3; [| discriminate].
        intros Hb. cbn [includes_dot]. rewrite (IH s3) by (lia || exact Hb).
        destruct (Ascii.eqb_spec c1 "."); [subst c1; discriminate |].
        destruct (Ascii.eqb_spec c2 ".");
          [subst c2; unfold white3 in Hw3; cbn in Hw3;
           rewrite !andb_false_r in Hw3; discriminate |].
        destruct (Ascii.eqb_spec c3 "."); [| reflexivity].
        subst c3. unfold white3 in Hw3. cbn in Hw3.
        rewrite !andb_false_r in Hw3. discriminate.
Qed.

Lemma dotted_hasHost (d : DeviceConfig.t) :
  includes_dot (DeviceConfig.host d) = true -> hasHost d = true.
Proof.
  intros Hdot. unfold hasHost.
  destruct (String.eqb_spec (DeviceConfig.host d) "") as [Heq | _];
    [rewrite Heq in Hdot; discriminate |].
  destruct (blank (DeviceConfig.host d)) eqn:Hb; [| reflexivity].
  rewrite (dotted_not_blank_upto _ _ (Nat.le_refl _) Hb) in Hdot. discriminate.
Qed.

(** X21: the settings page and the plugin name a speaker by the same
    host.  For a service whose addresses are each in dotted or in colon
    form, one of them dotted, the host [/discover] lists is the host
    discovery selects.  So a device entry saved with the listed host is
    the only accessory published for that speaker: discovery finds the
    speaker again under the same host and the configured entry wins. *)
Theorem ui_and_plugin_agree_on_host
    (service : Discovery.Service.t) (first : string) (rest : list string) :
  Discovery.Service.addresses service = Some (first :: rest) ->
  Forall plain (first :: rest) ->
  Exists (fun addr => includes_dot addr = true) (first :: rest) ->
  hostFor service = Discovery.selectHost first rest
  /\ (forall (o : Client.Outcome) (codec : Xml2js),
        host (onUp service o) = Discovery.selectHost first rest)
  /\ (forall (generate : string -> string) (entry : DeviceConfig.t)
             (auto : option bool) (timeout : option Z),
        DeviceConfig.host entry = hostFor service ->
        published
          (Platform.discoverDevices generate [service]
             (new_SoundTouchPlatform
                {| devices := Some [entry]; autoDiscover := auto;
                   discoveryTimeout := timeout |}))
        = [accessoryFor generate entry]).
Proof.
  intros Haddr Hplain Hdotted.
  destruct (find_dotted _ Hdotted) as (addr & Hfind & Hdot).
  assert (Hhost : hostFor service = addr).
  { unfold hostFor. rewrite Haddr, Hfind. reflexivity. }
  assert (Hsel : Discovery.selectHost first rest = addr).
  { unfold Discovery.selectHost. rewrite <- (find_plain _ Hplain), Hfind.
    destruct (String.eqb_spec addr "") as [-> |]; [discriminate | reflexivity]. }
  split; [congruence |]. split.
  - intros o codec. unfold onUp. cbv zeta.
    destruct (getDeviceInfo o); cbn [host]; congruence.
  - intros generate entry auto timeout Hentry.
    assert (HhasHost : hasHost entry = true).
    { apply dotted_hasHost. rewrite Hentry, Hhost. exact Hdot. }
    unfold Platform.discoverDevices. cbv zeta.
    cbn [config new_SoundTouchPlatform devices accessories soundTouchAccessories
         externalAccessories published unregistered app].
    assert (Hconfigured : addConfigured (Some [entry]) = [(DeviceConfig.host entry, entry)]).
    { unfold addConfigured. change (default [] (Some [entry])) with [entry].
      cbn [foldl]. rewrite HhasHost. reflexivity. }
    rewrite Hconfigured.
    assert (Hdiscovered : addDiscovered (Discovery.discoverOnce [service])
                            [(DeviceConfig.host entry, entry)]
                          = [(DeviceConfig.host entry, entry)]).
    { unfold Discovery.discoverOnce. cbn [foldl]. unfold Discovery.onService.
      rewrite Haddr. cbn [existsb]. unfold addDiscovered. cbn [foldl app].
      cbn [Discovery.host Discovery.deviceOf]. rewrite Hsel, Hentry, Hhost.
      unfold Map_has. cbn [assoc]. rewrite String.eqb_refl.
      rewrite bool_decide_eq_true_2 by eauto. reflexivity. }
    assert (Hmap : (if autoDiscovers {| devices := Some [entry]; autoDiscover := auto;
                                        discoveryTimeout := timeout |}
                    then addDiscovered (Discovery.discoverOnce [service])
                           [(DeviceConfig.host entry, entry)]
                    else [(DeviceConfig.host entry, entry)])
                   = [(DeviceConfig.host entry, entry)]).
    { rewrite Hdiscovered. destruct (autoDiscovers _); reflexivity. }
    rewrite Hmap. cbn [Map_values map snd foldl]. unfold registerDevice. cbv zeta.
    cbn [externalAccessories]. unfold Map_has. cbn [assoc].
    rewrite bool_decide_eq_false_2 by (intros [x Hx]; discriminate).
    reflexivity.
Qed.

Lemma ui_and_plugin_agree_on_host_witness :
  hostFor DiscoveryFacts.dual_stack = Discovery.selectHost "fe80::a2f6:fdff:fe5d:1c2b" ["192.168.1.20"]
  /\ (forall (o : Client.Outcome) (codec : Xml2js),
        host (onUp DiscoveryFacts.dual_stack o)
        = Discovery.selectHost "fe80::a2f6:fdff:fe5d:1c2b" ["192.168.1.20"])
  /\ (forall (generate : string -> string) (entry : DeviceConfig.t)
             (auto : option bool) (timeout : option Z),
        DeviceConfig.host entry = hostFor DiscoveryFacts.dual_stack ->
        published
          (Platform.discoverDevices generate [DiscoveryFacts.dual_stack]
             (new_SoundTouchPlatform
                {| devices := Some [entry]; autoDiscover := auto;
                   discoveryTimeout := timeout |}))
        = [accessoryFor generate entry]).
Proof.
  apply (ui_and_plugin_agree_on_host DiscoveryFacts.dual_stack
           "fe80::a2f6:fdff:fe5d:1c2b" ["192.168.1.20"]).
  - reflexivity.
  - repeat constructor.
  - right. left. reflexivity.
Defined.

(** Where the two differ, the speaker is published twice: once from
    the saved entry, under its name, and once from discovery, under its
    address. *)
Example saved_by_name_found_by_address :
  map hostOf
    (published
       (Platform.discoverDevices (fun h => h) [DiscoveryFacts.ipv6_only]
          (new_SoundTouchPlatform
             {| devices := Some [{| DeviceConfig.name := Some "Living Room";
                                    DeviceConfig.host := hostFor DiscoveryFacts.ipv6_only;
                                    DeviceConfig.room := None;
                                    DeviceConfig.deviceIcon := None;
                                    DeviceConfig.presets := None |}];
                autoDiscover := None; discoveryTimeout := None |})))
  = ["soundtouch-living.local"; "fe80::a2f6:fdff:fe5d:1c2b"].
Proof. vm_compute. reflexivity. Qed.

End UiServerFacts.
